(** * Pack calculator: solver, result cache and request handlers

    A shallow embedding of the Go sources
      - [internal/calculator/calculator.go]  (NewCalculator, Calculate,
        CalculateWithDetails),
      - [internal/cache/cache.go]            (MemoryCache, GenerateCacheKey),
      - [internal/handlers/handlers.go]      (AddPackSize, DeletePackSize,
        GetOrders, CalculatePacks, NewHandler),
      - package [middleware]                 (RateLimiter, RateLimitMiddleware,
        APIKeyAuth),
    together with the properties proved about them. *)

From Stdlib Require Import ZArith Lia Ascii.
From stdpp Require Import gmap strings list fin_maps sorting pretty.

Local Open Scope Z_scope.

(** ** Go integers

    The target is linux/amd64: [int] is 64 bits wide; addition and
    subtraction wrap around silently. *)

Module GoInt.

Definition MinInt64 : Z := -9223372036854775808.
Definition MaxInt64 : Z := 9223372036854775807.
Definition MaxInt32 : Z := 2147483647.

(** [maxAlloc] of the runtime on linux/amd64 (2^48): the most bytes one
    allocation may take. *)
Definition maxAlloc : Z := 281474976710656.

Definition in_int64 (z : Z) : Prop := MinInt64 <= z <= MaxInt64.

(** The sum or difference [z] of two [int] values reduced to 64 bits,
    two's complement: it is off by at most one multiple of 2^64. *)
Definition wrap64 (z : Z) : Z :=
  if z >? MaxInt64 then z - 18446744073709551616
  else if z <? MinInt64 then z + 18446744073709551616
  else z.

Definition add64 (a b : Z) : Z := wrap64 (a + b).
Definition sub64 (a b : Z) : Z := wrap64 (a - b).

End GoInt.
Export GoInt.

(** ** Outcomes of a Go call

    A call either returns, panics (index out of range, negative length
    passed to [make]), or is still running when the fuel given to an
    unbounded [for] loop is used up. *)

Inductive run (A : Type) : Type :=
  | Done (a : A)
  | Panic
  | OutOfFuel.
Arguments Done {A} a.
Arguments Panic {A}.
Arguments OutOfFuel {A}.

Definition run_bind {A B : Type} (m : run A) (k : A → run B) : run B :=
  match m with
  | Done a => k a
  | Panic => Panic
  | OutOfFuel => OutOfFuel
  end.

Notation "x ←ᵣ m ; k" := (run_bind m (λ x, k))
  (at level 20, m at level 100, k at level 200, right associativity,
   format "x  ←ᵣ  m ;  '/' k").
Notation "' p ←ᵣ m ; k" := (run_bind m (λ p, k))
  (at level 20, p pattern, m at level 100, k at level 200,
   right associativity, format "' p  ←ᵣ  m ;  '/' k").

(** [for i := lo; ...; i++] with a trip count fixed before the loop. *)
Fixpoint for_range {A : Type} (n : nat) (i : Z) (body : A → Z → run A) (a : A)
  : run A :=
  match n with
  | O => Done a
  | S n' => a' ←ᵣ body a i; for_range n' (i + 1) body a'
  end.

(** [for _, x := range xs]. *)
Fixpoint for_each {A B : Type} (body : A → B → run A) (a : A) (xs : list B)
  : run A :=
  match xs with
  | [] => Done a
  | x :: xs' => a' ←ᵣ body a x; for_each body a' xs'
  end.

(** ** Slices of [int] local to a call

    A slice made by [make([]int, n)] is its length and the cells written so
    far; a cell never written holds the zero value.  Indexing outside
    [0, len) panics, and so does [make] with a negative length or with a
    length whose cells, eight bytes each, take more than [maxAlloc] bytes
    (the runtime's makeslice: len out of range).  Within that limit memory
    is taken to be there: [make] never fails for lack of it. *)

Record slice : Type := Slice { slen : Z; cells : gmap Z Z }.

Definition make (n : Z) : run slice :=
  if (n <? 0) || (8 * n >? maxAlloc) then Panic else Done (Slice n ∅).

Definition get (s : slice) (i : Z) : run Z :=
  if (0 <=? i) && (i <? slen s) then Done (default 0 (cells s !! i)) else Panic.

Definition set (s : slice) (i v : Z) : run slice :=
  if (0 <=? i) && (i <? slen s) then Done (Slice (slen s) (<[i := v]> (cells s)))
  else Panic.

(** ** The heap of caller-visible slices *)

Abbreviation loc := positive.
Abbreviation heap := (gmap loc (list Z)).

Definition alloc (h : heap) (xs : list Z) : heap * loc :=
  let l := fresh (dom h) in (<[l := xs]> h, l).

(** The builtin [copy(dst, src)]: the first [min (len dst) (len src)]
    elements of [dst] are overwritten. *)
Definition copy (dst src : list Z) : list Z :=
  take (length dst) src ++ drop (length src) dst.

(** ** internal/calculator *)

Module calculator.

Record Calculator : Type := { packSizes : loc }.

Inductive error : Type :=
  | ErrAmount      (* "amount must be positive" *)
  | ErrNoPackSizes (* "no pack sizes available" *)
  | ErrNoCombination (* "no valid pack combination found" *).

Definition Error (e : error) : string :=
  match e with
  | ErrAmount => "amount must be positive"
  | ErrNoPackSizes => "no pack sizes available"
  | ErrNoCombination => "no valid pack combination found"
  end.

(** [sort.Ints]: the ascending arrangement of the elements. *)
Definition sort_Ints (xs : list Z) : list Z := merge_sort Z.le xs.

(** NewCalculator: [make] a slice of the same length, [copy] the
    caller's elements into it, sort the copy in place. *)
Definition NewCalculator (packSizes : loc) (h : heap) : run (heap * Calculator) :=
  match h !! packSizes with
  | None => Panic
  | Some src =>
      let '(h1, sorted) := alloc h (replicate (length src) 0) in
      let h2 := alter (λ dst, copy dst src) sorted h1 in
      let h3 := alter sort_Ints sorted h2 in
      Done (h3, {| packSizes := sorted |})
  end.

(** Inner loop body of the relaxation: try to extend state [i] by one
    pack of size [packSize]. *)
Definition relax (maxTarget i : Z) (st : slice * slice) (packSize : Z)
  : run (slice * slice) :=
  let '(dp, parent) := st in
  let next := add64 i packSize in
  if next <=? maxTarget then
    dn ←ᵣ get dp next;
    di ←ᵣ get dp i;
    if dn >? add64 di 1 then
      dp' ←ᵣ set dp next (add64 di 1);
      parent' ←ᵣ set parent next packSize;
      Done (dp', parent')
    else Done st
  else Done st.

(** Outer loop body. *)
Definition dp_step (sizes : list Z) (maxTarget : Z) (st : slice * slice) (i : Z)
  : run (slice * slice) :=
  di ←ᵣ get (fst st) i;
  if di =? MaxInt32 then Done st
  else for_each (relax maxTarget i) st sizes.

(** The scan for the first reachable total, [-1] when there is none. *)
Fixpoint scan (n : nat) (i : Z) (dp : slice) : run Z :=
  match n with
  | O => Done (-1)
  | S n' =>
      di ←ᵣ get dp i;
      if di =? MaxInt32 then scan n' (i + 1) dp else Done i
  end.

(** [for current > 0 { ... }]. *)
Fixpoint backtrack (fuel : nat) (parent : slice) (current : Z) (packs : gmap Z Z)
  : run (gmap Z Z) :=
  if current <=? 0 then Done packs
  else match fuel with
       | O => OutOfFuel
       | S fuel' =>
           packUsed ←ᵣ get parent current;
           backtrack fuel' parent (sub64 current packUsed)
             (<[packUsed := add64 (default 0 (packs !! packUsed)) 1]> packs)
       end.

Definition fill (dp : slice) (i : Z) : run slice := set dp i MaxInt32.

(** Body of [Calculate] over the contents of [c.packSizes]. *)
Definition Calculate_on (fuel : nat) (sizes : list Z) (amount : Z)
  : run (gmap Z Z * Z + error) :=
  if amount <=? 0 then Done (inr ErrAmount)
  else match last sizes with
       | None => Done (inr ErrNoPackSizes)
       | Some largest =>
           let maxTarget := add64 amount largest in
           dp ←ᵣ make (add64 maxTarget 1);
           dp ←ᵣ for_range (Z.to_nat (slen dp)) 0 fill dp;
           dp ←ᵣ set dp 0 0;
           parent ←ᵣ make (add64 maxTarget 1);
           '(dp, parent) ←ᵣ for_range (Z.to_nat (maxTarget + 1)) 0
                              (dp_step sizes maxTarget) (dp, parent);
           bestTotal ←ᵣ scan (Z.to_nat (maxTarget - amount + 1)) amount dp;
           if bestTotal =? -1 then Done (inr ErrNoCombination)
           else
             packs ←ᵣ backtrack fuel parent bestTotal ∅;
             Done (inl (packs, bestTotal))
       end.

Definition Calculate (fuel : nat) (c : Calculator) (amount : Z) (h : heap)
  : run (heap * (gmap Z Z * Z + error)) :=
  match h !! packSizes c with
  | None => Panic
  | Some sizes => r ←ᵣ Calculate_on fuel sizes amount; Done (h, r)
  end.

(** [for _, count := range packs { totalPacks += count }]. *)
Definition count_packs (packs : gmap Z Z) : Z :=
  map_fold (λ _ count totalPacks, add64 totalPacks count) 0 packs.

Definition CalculateWithDetails (fuel : nat) (c : Calculator) (amount : Z) (h : heap)
  : run (heap * (gmap Z Z * Z * Z + error)) :=
  '(h', r) ←ᵣ Calculate fuel c amount h;
  match r with
  | inr err => Done (h', inr err)
  | inl (packs, totalItems) => Done (h', inl (packs, totalItems, count_packs packs))
  end.

End calculator.

Import calculator.


(** ** strconv *)

Module strconv.

(** [strconv.Itoa]: the decimal digits, after a minus sign when negative. *)
Definition Itoa (i : Z) : string := pretty i.

Definition digit (c : ascii) : option Z :=
  let n := Z.of_nat (nat_of_ascii c) in
  if (48 <=? n) && (n <=? 57) then Some (n - 48) else None.

Fixpoint digits (acc : Z) (s : string) : option Z :=
  match s with
  | EmptyString => Some acc
  | String c s' =>
      match digit c with
      | Some d => digits (10 * acc + d) s'
      | None => None
      end
  end.

(** [strconv.Atoi]: an optional sign and at least one decimal digit; a
    value outside the [int] range, like any other text, is an error
    ([None]). *)
Definition Atoi (s : string) : option Z :=
  let '(neg, ds) :=
    match s with
    | String "-"%char s' => (true, s')
    | String "+"%char s' => (false, s')
    | _ => (false, s)
    end in
  match ds with
  | EmptyString => None
  | _ =>
      match digits 0 ds with
      | Some n =>
          let v := if neg : bool then - n else n in
          if (MinInt64 <=? v) && (v <=? MaxInt64) then Some v else None
      | None => None
      end
  end.

End strconv.

(** ** internal/cache *)

Module cache.

Import strconv.

(** A cached result.  The [*lruNode] of an item holds nothing but the
    item's key, and items and nodes are created and dropped together, so
    a node is named by its key. *)
Record cacheItem : Type := {
  packs : gmap Z Z;
  total : Z;
  expiration : Z
}.

(** [chain] is the doubly linked list of nodes read from [head] (most
    recently used) to [tail]; [hits] and [misses] are the [int64]
    counters.  Instants and durations are counted in nanoseconds. *)
Record MemoryCache : Type := {
  items : gmap string cacheItem;
  chain : list string;
  maxSize : Z;
  hits : Z;
  misses : Z
}.

Record CacheStats : Type := { Hits : Z; Misses : Z; Size : Z }.

Definition NewMemoryCache (maxSize : Z) : MemoryCache :=
  {| items := ∅; chain := []; maxSize := maxSize; hits := 0; misses := 0 |}.

(** addToFront: the node becomes the head. *)
Definition addToFront (node : string) (chain : list string) : list string :=
  node :: chain.

(** removeNode: unlink the node. *)
Fixpoint removeNode (node : string) (chain : list string) : list string :=
  match chain with
  | [] => []
  | k :: rest => if decide (k = node) then rest else k :: removeNode node rest
  end.

(** moveToFront: nothing to do for the head, otherwise unlink and add. *)
Definition moveToFront (node : string) (chain : list string) : list string :=
  match chain with
  | k :: _ => if decide (k = node) then chain
              else addToFront node (removeNode node chain)
  | [] => addToFront node (removeNode node chain)
  end.

Definition with_chain (c : MemoryCache) (chain' : list string) : MemoryCache :=
  {| items := items c; chain := chain'; maxSize := maxSize c;
     hits := hits c; misses := misses c |}.

Definition with_items (c : MemoryCache) (items' : gmap string cacheItem) : MemoryCache :=
  {| items := items'; chain := chain c; maxSize := maxSize c;
     hits := hits c; misses := misses c |}.

(** Get: a miss for an absent or expired key; otherwise a hit, and the
    node moves to the front. *)
Definition Get (key : string) (now : Z) (c : MemoryCache)
  : MemoryCache * option (gmap Z Z * Z) :=
  match items c !! key with
  | Some item =>
      if now >? expiration item then
        ({| items := items c; chain := chain c; maxSize := maxSize c;
            hits := hits c; misses := add64 (misses c) 1 |}, None)
      else
        ({| items := items c; chain := moveToFront key (chain c);
            maxSize := maxSize c;
            hits := add64 (hits c) 1; misses := misses c |},
         Some (packs item, total item))
  | None =>
      ({| items := items c; chain := chain c; maxSize := maxSize c;
          hits := hits c; misses := add64 (misses c) 1 |}, None)
  end.

(** evictLRU: drop the tail node and its item. *)
Definition evictLRU (c : MemoryCache) : MemoryCache :=
  match last (chain c) with
  | None => c
  | Some key =>
      {| items := delete key (items c); chain := removelast (chain c);
         maxSize := maxSize c; hits := hits c; misses := misses c |}
  end.

Definition Set_ (key : string) (packs : gmap Z Z) (total : Z) (ttl now : Z)
  (c : MemoryCache) : MemoryCache :=
  let item := {| packs := packs; total := total; expiration := now + ttl |} in
  match items c !! key with
  | Some _ =>
      {| items := <[key := item]> (items c); chain := moveToFront key (chain c);
         maxSize := maxSize c; hits := hits c; misses := misses c |}
  | None =>
      let c := if Z.of_nat (size (items c)) >=? maxSize c then evictLRU c else c in
      {| items := <[key := item]> (items c); chain := addToFront key (chain c);
         maxSize := maxSize c; hits := hits c; misses := misses c |}
  end.

Definition Clear (c : MemoryCache) : MemoryCache :=
  {| items := ∅; chain := []; maxSize := maxSize c; hits := 0; misses := 0 |}.

(** Stats, without the floating-point hit ratio. *)
Definition Stats (c : MemoryCache) : CacheStats :=
  {| Hits := hits c; Misses := misses c; Size := Z.of_nat (size (items c)) |}.

(** The loop of GenerateCacheKey over the pack sizes; [b] is the text
    built so far. *)
Fixpoint write_sizes (i : nat) (b : string) (packSizes : list Z) : string :=
  match packSizes with
  | [] => b
  | size :: rest =>
      let b := if (0 <? i)%nat then b +:+ "," else b in
      write_sizes (S i) (b +:+ Itoa size) rest
  end.

Definition GenerateCacheKey (amount : Z) (packSizes : list Z) : string :=
  let b := EmptyString in
  let b := b +:+ "calc:" in
  let b := b +:+ Itoa amount in
  let b := b +:+ ":" in
  write_sizes 0 b packSizes.

(** The [Cache] interface with its two implementations. *)
Inductive Cache : Type :=
  | InMemory (c : MemoryCache)
  | NoOpCache.

Definition Cache_Get (key : string) (now : Z) (c : Cache)
  : Cache * option (gmap Z Z * Z) :=
  match c with
  | InMemory m => let '(m', r) := Get key now m in (InMemory m', r)
  | NoOpCache => (NoOpCache, None)
  end.

Definition Cache_Set (key : string) (packs : gmap Z Z) (total : Z) (ttl now : Z)
  (c : Cache) : Cache :=
  match c with
  | InMemory m => InMemory (Set_ key packs total ttl now m)
  | NoOpCache => NoOpCache
  end.

Definition Cache_Clear (c : Cache) : Cache :=
  match c with
  | InMemory m => InMemory (Clear m)
  | NoOpCache => NoOpCache
  end.

Definition Cache_Stats (c : Cache) : CacheStats :=
  match c with
  | InMemory m => Stats m
  | NoOpCache => {| Hits := 0; Misses := 0; Size := 0 |}
  end.

End cache.

(** ** internal/repository, as the handlers see it

    The database is outside the program: a repository call is given by
    what it answers and how it leaves the database, and any call may fail. *)

Module repository.

Record Order : Type := {
  Amount : Z;
  TotalItems : Z;
  TotalPacks : Z;
  Packs : gmap Z Z
}.

Record Repository (DB : Type) : Type := {
  GetPackSizesAsSlice : DB → option (list Z);
  PackSizeExists : Z → DB → option bool;
  AddPackSize : Z → DB → option DB;
  DeletePackSize : Z → DB → string + DB;
  SaveOrder : Order → DB → DB;
  GetAllOrders : Z → DB → option (list Order)
}.
Arguments GetPackSizesAsSlice {DB} _ _.
Arguments PackSizeExists {DB} _ _ _.
Arguments AddPackSize {DB} _ _ _.
Arguments DeletePackSize {DB} _ _ _.
Arguments SaveOrder {DB} _ _ _.
Arguments GetAllOrders {DB} _ _ _.

(** A store held in memory: the pack sizes in ascending order without
    repetition, and the orders, latest first. *)
Definition memory_store : Repository (list Z * list Order) :=
  {| GetPackSizesAsSlice := λ db, Some db.1;
     PackSizeExists := λ size db, Some (bool_decide (size ∈ db.1));
     AddPackSize := λ size db,
       if bool_decide (size ∈ db.1) then None
       else Some (merge_sort Z.le (size :: db.1), db.2);
     DeletePackSize := λ size db,
       if bool_decide (size ∈ db.1)
       then inr (filter (λ s, s ≠ size) db.1, db.2)
       else inl ("pack size " +:+ strconv.Itoa size +:+ " not found");
     SaveOrder := λ order db, (db.1, order :: db.2);
     GetAllOrders := λ limit db, Some (take (Z.to_nat limit) db.2) |}.

End repository.

(** ** internal/handlers *)

Module handlers.

Import strconv cache calculator.

Record Handler (DB : Type) : Type := {
  repo : repository.Repository DB;
  db : DB;
  cache : Cache
}.
Arguments repo {DB} _.
Arguments db {DB} _.
Arguments cache {DB} _.

Inductive Body : Type :=
  | ErrorBody (error : string)
  | MessageBody (message : string)
  | ResultBody (result : repository.Order)
  | OrdersBody (orders : list repository.Order)
  | PlainBody (text : string).

Record Response : Type := { status : Z; body : Body }.

Definition respondJSON (status : Z) (data : Body) : Response :=
  {| status := status; body := data |}.

Definition maxAmount : Z := 10000000.

(** [1 * time.Hour] in nanoseconds. *)
Definition Hour : Z := 3600000000000.

(** CalculatePacks, for a request with the given method whose body
    decodes to [amount] ([None] when it does not decode); [now] is the
    instant of the cache lookup and [later] the instant at which the
    result is stored. *)
Definition CalculatePacks {DB} (fuel : nat) (method : string) (amount : option Z)
  (now later : Z) (h : Handler DB) : run (Handler DB * Response) :=
  if negb (String.eqb method "POST") then
    Done (h, {| status := 405; body := PlainBody "Method not allowed" |})
  else match amount with
  | None => Done (h, respondJSON 400 (ErrorBody "Invalid request body"))
  | Some amount =>
    if amount <? 1 then
      Done (h, respondJSON 400 (ErrorBody "Amount must be at least 1"))
    else if amount >? maxAmount then
      Done (h, respondJSON 400
                 (ErrorBody "Amount too large. Maximum allowed: 10000000 items"))
    else match repository.GetPackSizesAsSlice (repo h) (db h) with
    | None => Done (h, respondJSON 500 (ErrorBody "Failed to get pack sizes"))
    | Some packSizes =>
      if (length packSizes =? 0)%nat then
        Done (h, respondJSON 400 (ErrorBody "No pack sizes configured"))
      else
        let cacheKey := GenerateCacheKey amount packSizes in
        match Cache_Get cacheKey now (cache h) with
        | (cache', Some (cachedPacks, cachedTotal)) =>
            let totalPacks :=
              map_fold (λ _ count totalPacks, add64 totalPacks count) 0 cachedPacks in
            Done ({| repo := repo h; db := db h; cache := cache' |},
                  respondJSON 200
                    (ResultBody {| repository.Amount := amount;
                                   repository.TotalItems := cachedTotal;
                                   repository.TotalPacks := totalPacks;
                                   repository.Packs := cachedPacks |}))
        | (cache', None) =>
            let '(heap0, slice) := alloc ∅ packSizes in
            '(heap1, calc) ←ᵣ NewCalculator slice heap0;
            '(_, r) ←ᵣ CalculateWithDetails fuel calc amount heap1;
            match r with
            | inr err =>
                Done ({| repo := repo h; db := db h; cache := cache' |},
                      respondJSON 500 (ErrorBody (Error err)))
            | inl (packs, totalItems, totalPacks) =>
                let cache'' := Cache_Set cacheKey packs totalItems Hour later cache' in
                let order := {| repository.Amount := amount;
                                repository.TotalItems := totalItems;
                                repository.TotalPacks := totalPacks;
                                repository.Packs := packs |} in
                let db' := repository.SaveOrder (repo h) order (db h) in
                Done ({| repo := repo h; db := db'; cache := cache'' |},
                      respondJSON 200 (ResultBody order))
            end
        end
    end
  end.

(** AddPackSize, for a request whose body decodes to [size]. *)
Definition AddPackSize {DB} (method : string) (size : option Z) (h : Handler DB)
  : Handler DB * Response :=
  if negb (String.eqb method "POST") then
    (h, {| status := 405; body := PlainBody "Method not allowed" |})
  else match size with
  | None => (h, respondJSON 400 (ErrorBody "Invalid request body"))
  | Some size =>
    if size <? 1 then (h, respondJSON 400 (ErrorBody "Size must be at least 1"))
    else match repository.PackSizeExists (repo h) size (db h) with
    | None => (h, respondJSON 500 (ErrorBody "Failed to check pack size"))
    | Some true => (h, respondJSON 409 (ErrorBody "Pack size already exists"))
    | Some false =>
      match repository.AddPackSize (repo h) size (db h) with
      | None => (h, respondJSON 500 (ErrorBody "Failed to add pack size"))
      | Some db' =>
          ({| repo := repo h; db := db'; cache := Cache_Clear (cache h) |},
           respondJSON 201 (MessageBody "Pack size added successfully"))
      end
    end
  end.

(** DeletePackSize, for a request whose path splits at the slashes into
    [parts]. *)
Definition DeletePackSize {DB} (method : string) (parts : list string)
  (h : Handler DB) : Handler DB * Response :=
  if negb (String.eqb method "DELETE") then
    (h, {| status := 405; body := PlainBody "Method not allowed" |})
  else if (length parts <? 4)%nat then
    (h, respondJSON 400 (ErrorBody "Invalid URL"))
  else match Atoi (default EmptyString (last parts)) with
  | None => (h, respondJSON 400 (ErrorBody "Invalid size"))
  | Some size =>
    match repository.DeletePackSize (repo h) size (db h) with
    | inl err => (h, respondJSON 404 (ErrorBody err))
    | inr db' =>
        ({| repo := repo h; db := db'; cache := Cache_Clear (cache h) |},
         respondJSON 200 (MessageBody "Pack size deleted successfully"))
    end
  end.

(** The limit GetOrders passes to the repository, from the value of the
    [limit] query parameter (empty when absent). *)
Definition orders_limit (limitStr : string) : Z :=
  let limit := 100 in
  if negb (String.eqb limitStr EmptyString) then
    match Atoi limitStr with
    | Some l => if l >? 0 then l else limit
    | None => limit
    end
  else limit.

Definition GetOrders {DB} (method : string) (limitStr : string) (h : Handler DB)
  : Handler DB * Response :=
  if negb (String.eqb method "GET") then
    (h, {| status := 405; body := PlainBody "Method not allowed" |})
  else
    let limit := orders_limit limitStr in
    match repository.GetAllOrders (repo h) limit (db h) with
    | None => (h, respondJSON 500 (ErrorBody "Failed to get orders"))
    | Some orders => (h, respondJSON 200 (OrdersBody orders))
    end.

(** NewHandler: without a cache the handler gets the one that stores
    nothing. *)
Definition NewHandler {DB} (repo : repository.Repository DB) (db : DB)
  (cacheImpl : option Cache) : Handler DB :=
  let cacheImpl := match cacheImpl with
                   | None => NoOpCache
                   | Some c => c
                   end in
  {| repo := repo; db := db; cache := cacheImpl |}.

End handlers.

(** ** net/http, as the middleware sees a request *)

Module http.

Import handlers.

(** [Header] and [Query] hold the first value given for a name, [Path]
    the pieces of the URL path between the slashes, [Body] the integer
    fields of the JSON body ([None] when it does not decode). *)
Record Request : Type := {
  Method : string;
  RemoteAddr : string;
  Header : gmap string string;
  Query : gmap string string;
  Path : list string;
  Body : option (gmap string Z)
}.

(** [r.Header.Get(name)] and [r.URL.Query().Get(name)]: the empty string
    for a name that is not there. *)
Definition Header_Get (r : Request) (name : string) : string :=
  default EmptyString (Header r !! name).

Definition Query_Get (r : Request) (name : string) : string :=
  default EmptyString (Query r !! name).

(** Decoding the body into a struct with the one [int] field [name]: a
    field the body does not give keeps its zero value. *)
Definition Decode (r : Request) (name : string) : option Z :=
  match Body r with
  | Some fields => Some (default 0 (fields !! name))
  | None => None
  end.

(** An [http.HandlerFunc] over the state [S] it works on. *)
Definition HandlerFunc (S : Type) : Type := Request → S → run (S * Response).

(** [http.Error]. *)
Definition Error (error : string) (code : Z) : Response :=
  {| status := code; body := PlainBody error |}.

End http.

(** ** internal/middleware *)

Module middleware.

Import handlers http.

(** [tokens] is an [int]; [lastSeen] is an instant, in nanoseconds. *)
Record Visitor : Type := { tokens : Z; lastSeen : Z }.

(** [rate] is a [time.Duration], in nanoseconds. *)
Record RateLimiter : Type := {
  visitors : gmap string Visitor;
  rate : Z;
  burst : Z
}.

(** NewRateLimiter, without the goroutine that drops idle visitors. *)
Definition NewRateLimiter (rate burst : Z) : RateLimiter :=
  {| visitors := ∅; rate := rate; burst := burst |}.

(** getVisitor; [now] is the instant read when the visitor is created. *)
Definition getVisitor (ip : string) (now : Z) (rl : RateLimiter)
  : RateLimiter * Visitor :=
  match visitors rl !! ip with
  | Some v => (rl, v)
  | None =>
      let v := {| tokens := burst rl; lastSeen := now |} in
      ({| visitors := <[ip := v]> (visitors rl); rate := rate rl; burst := burst rl |}, v)
  end.

(** [t.Sub(u)]: the difference as a [time.Duration], the largest or
    smallest one when the difference does not fit. *)
Definition Sub (t u : Z) : Z :=
  if t - u >? MaxInt64 then MaxInt64
  else if t - u <? MinInt64 then MinInt64
  else t - u.

(** Allow.  [created] is the instant getVisitor reads, [now] the one
    Allow reads.  The quotient of two durations truncates toward zero, and
    a zero divisor panics.  The visitor is shared with the map, which
    holds what Allow leaves in it. *)
Definition Allow (ip : string) (created now : Z) (rl : RateLimiter)
  : run (RateLimiter * bool) :=
  let '(rl, visitor) := getVisitor ip created rl in
  let elapsed := Sub now (lastSeen visitor) in
  if rate rl =? 0 then Panic
  else
    let tokensToAdd := wrap64 (elapsed ÷ rate rl) in
    let visitor :=
      if tokensToAdd >? 0 then
        let tokens := add64 (tokens visitor) tokensToAdd in
        let tokens := if tokens >? burst rl then burst rl else tokens in
        {| tokens := tokens; lastSeen := now |}
      else visitor in
    if tokens visitor >? 0 then
      Done ({| visitors := <[ip := {| tokens := sub64 (tokens visitor) 1;
                                      lastSeen := lastSeen visitor |}]> (visitors rl);
               rate := rate rl; burst := burst rl |}, true)
    else
      Done ({| visitors := <[ip := visitor]> (visitors rl);
               rate := rate rl; burst := burst rl |}, false).

Definition Minute : Z := 60000000000.

(** One round of the loop of cleanupVisitors; [now ip] is the instant
    read when the visitor of [ip] is looked at. *)
Definition cleanupVisitors (now : string → Z) (rl : RateLimiter) : RateLimiter :=
  {| visitors :=
       filter (λ kv, ¬ (Sub (now kv.1) (lastSeen kv.2) > 5 * Minute)) (visitors rl);
     rate := rate rl; burst := burst rl |}.

(** RateLimitMiddleware over the limiter it closes on. *)
Definition RateLimitMiddleware {S : Type} (created now : Z) (next : HandlerFunc S)
  : HandlerFunc (RateLimiter * S) :=
  λ r '(rl, s),
    let ip := RemoteAddr r in
    let forwarded := Header_Get r "X-Forwarded-For" in
    let ip := if negb (String.eqb forwarded EmptyString) then forwarded else ip in
    '(rl, ok) ←ᵣ Allow ip created now rl;
    if negb ok then
      Done ((rl, s), Error "Rate limit exceeded. Please try again later." 429)
    else
      '(s, resp) ←ᵣ next r s;
      Done ((rl, s), resp).

Record APIKeyAuth : Type := { apiKey : string }.

Definition NewAPIKeyAuth (apiKey : string) : APIKeyAuth := {| apiKey := apiKey |}.

Definition AuthMiddleware {S : Type} (a : APIKeyAuth) (next : HandlerFunc S)
  : HandlerFunc S :=
  λ r s,
    if String.eqb (Method r) "GET" then next r s
    else
      let key := Header_Get r "X-API-Key" in
      let key := if String.eqb key EmptyString then Query_Get r "api_key" else key in
      if String.eqb (apiKey a) EmptyString then next r s
      else if negb (String.eqb key (apiKey a)) then
        Done (s, Error "Unauthorized: Invalid or missing API key" 401)
      else next r s.

End middleware.

(** * Vocabulary of the properties *)

(** The value in cell [i]. *)
Definition rd (s : slice) (i : Z) : Z := default 0 (cells s !! i).

Definition sum_list_Z (l : list Z) : Z := foldr Z.add 0 l.

(** A combination over [sizes]: the packs shipped, one entry per pack. *)
Definition packing (sizes l : list Z) : Prop := Forall (λ s, s ∈ sizes) l.

(** A non-negative integer combination over [sizes]: how many packs of
    each size. *)
Definition combination (sizes : list Z) (n : gmap Z Z) : Prop :=
  ∀ s c, n !! s = Some c → s ∈ sizes ∧ 0 <= c.

(** The packs of a combination, one entry per pack. *)
Definition packs_list (n : gmap Z Z) : list Z :=
  map_fold (λ s c acc, replicate (Z.to_nat c) s ++ acc) [] n.

(** Σ s · M[s] *)
Definition items_of (M : gmap Z Z) : Z := map_fold (λ s c acc, acc + s * c) 0 M.
(** Σ M[s] *)
Definition packs_of (M : gmap Z Z) : Z := map_fold (λ _ c acc, acc + c) 0 M.

(** The map built by [packs[s]++] for each pack of [l] in turn. *)
Definition tally (l : list Z) (packs : gmap Z Z) : gmap Z Z :=
  foldl (λ m s, <[s := default 0 (m !! s) + 1]> m) packs l.

(** The state while the outer loop is at [i] and the inner loop has gone
    through the sizes in [seen]. *)
Record dp_inv (sizes : list Z) (U : Z) (i : Z) (seen : list Z) (st : slice * slice) : Prop := {
  inv_len_dp : slen st.1 = U + 1;
  inv_len_parent : slen st.2 = U + 1;
  inv_range : ∀ j, 0 <= j <= U → 0 <= rd st.1 j <= MaxInt32;
  inv_zero : rd st.1 0 = 0;
  inv_sound : ∀ j, 0 < j <= U → rd st.1 j < MaxInt32 →
    rd st.2 j ∈ sizes ∧ 0 <= j - rd st.2 j <= i ∧
    rd st.1 (j - rd st.2 j) + 1 = rd st.1 j;
  inv_complete_lt : ∀ j s, 0 <= j < i → s ∈ sizes → j + s <= U →
    rd st.1 j < MaxInt32 → rd st.1 (j + s) <= rd st.1 j + 1;
  inv_complete_eq : ∀ s, s ∈ seen → i + s <= U →
    rd st.1 i < MaxInt32 → rd st.1 (i + s) <= rd st.1 i + 1
}.

Arguments inv_len_dp {_ _ _ _ _} _.
Arguments inv_len_parent {_ _ _ _ _} _.
Arguments inv_range {_ _ _ _ _} _.
Arguments inv_zero {_ _ _ _ _} _.
Arguments inv_sound {_ _ _ _ _} _.
Arguments inv_complete_lt {_ _ _ _ _} _.
Arguments inv_complete_eq {_ _ _ _ _} _.

(** The tables as Calculate builds them, up to the end of the
    relaxation loop. *)
Definition tables (sizes : list Z) (U : Z) : run (slice * slice) :=
  dp ←ᵣ make (add64 U 1);
  dp ←ᵣ for_range (Z.to_nat (slen dp)) 0 fill dp;
  dp ←ᵣ set dp 0 0;
  parent ←ᵣ make (add64 U 1);
  for_range (Z.to_nat (U + 1)) 0 (dp_step sizes U) (dp, parent).

(** What Calculate does once the tables are there. *)
Definition finish (fuel : nat) (amount U : Z) (st : slice * slice)
  : run (gmap Z Z * Z + error) :=
  bestTotal ←ᵣ scan (Z.to_nat (U - amount + 1)) amount st.1;
  if bestTotal =? -1 then Done (inr ErrNoCombination)
  else packs ←ᵣ backtrack fuel st.2 bestTotal ∅;
       Done (inl (packs, bestTotal)).

(** How many packs of size [s] a combination holds. *)
Fixpoint count_of (s : Z) (l : list Z) : Z :=
  match l with
  | [] => 0
  | x :: l' => (if decide (x = s) then 1 else 0) + count_of s l'
  end.

(** Any number of calculations on one calculator, one after the other. *)
Definition Calculate_all (fuel : nat) (c : Calculator) (amounts : list Z) (h : heap)
  : run heap :=
  for_each (λ h amount, '(h', _) ←ᵣ Calculate fuel c amount h; Done h') h amounts.

(** Operations on a cache, one after the other. *)
Inductive cache_op : Type :=
  | OpGet (key : string) (now : Z)
  | OpSet (key : string) (packs : gmap Z Z) (total ttl now : Z)
  | OpClear.

Definition run_op (c : cache.MemoryCache) (o : cache_op) : cache.MemoryCache :=
  match o with
  | OpGet key now => (cache.Get key now c).1
  | OpSet key packs total ttl now => cache.Set_ key packs total ttl now c
  | OpClear => cache.Clear c
  end.

Definition run_ops (c : cache.MemoryCache) (ops : list cache_op) : cache.MemoryCache :=
  foldl run_op c ops.

(** Whether the operation touches a key: a Set always does, a Get when
    it hits. *)
Definition touched (c : cache.MemoryCache) (o : cache_op) : option string :=
  match o with
  | OpGet key now =>
      match (cache.Get key now c).2 with Some _ => Some key | None => None end
  | OpSet key _ _ _ _ => Some key
  | OpClear => None
  end.

(** The keys in the order of their last touch, the latest first; Clear
    forgets them. *)
Definition recency_step (cR : cache.MemoryCache * list string) (o : cache_op)
  : cache.MemoryCache * list string :=
  (run_op cR.1 o,
   match o with
   | OpClear => []
   | _ => match touched cR.1 o with
          | Some key => key :: filter (λ k, k ≠ key) cR.2
          | None => cR.2
          end
   end).

Definition recency (c : cache.MemoryCache) (ops : list cache_op) : list string :=
  (foldl recency_step (c, []) ops).2.

(** The number of Get operations since the last Clear. *)
Definition gets_since_clear (ops : list cache_op) : Z :=
  foldl (λ n o, match o with
                | OpGet _ _ => n + 1
                | OpSet _ _ _ _ _ => n
                | OpClear => 0
                end) 0 ops.

(** One Set for each of the keys, in turn; [entry] gives what is stored
    and when. *)
Definition set_each (entry : string → gmap Z Z * Z * Z * Z) (keys : list string)
  : list cache_op :=
  (λ key, let '(packs, total, ttl, now) := entry key in
          OpSet key packs total ttl now) <$> keys.

(** The pack sizes of a cache key, joined by commas. *)
Fixpoint joined (packSizes : list Z) : string :=
  match packSizes with
  | [] => EmptyString
  | size :: rest =>
      match rest with
      | [] => strconv.Itoa size
      | _ => strconv.Itoa size +:+ "," +:+ joined rest
      end
  end.

(** The character occurs in the text. *)
Fixpoint has_char (c : ascii) (s : string) : Prop :=
  match s with
  | EmptyString => False
  | String c' s' => c' = c ∨ has_char c s'
  end.

(** The state of a cache of capacity [n >= 1] against the keys in the
    order of their last touch. *)
Record lru_inv (n : nat) (c : cache.MemoryCache) (R : list string) : Prop := {
  lru_nodup : NoDup R;
  lru_chain : cache.chain c = take n R;
  lru_items : ∀ k, is_Some (cache.items c !! k) ↔ k ∈ cache.chain c;
  lru_size : size (cache.items c) = length (cache.chain c);
  lru_max : cache.maxSize c = Z.of_nat n
}.

(** A handler over the store held in memory, with two pack sizes and
    one cached result. *)
Definition sample_handler : handlers.Handler (list Z * list repository.Order) :=
  {| handlers.repo := repository.memory_store;
     handlers.db := ([250; 500], []);
     handlers.cache :=
       cache.InMemory (cache.Set_ "calc:251:250,500" {[500 := 1]} 500 handlers.Hour 0
                         (cache.NewMemoryCache 1000)) |}.

(** A calculator built on a slice the caller has just made, and one
    detailed calculation on it, [NewCalculator(S).CalculateWithDetails(A)],
    as CalculatePacks and the tests run the solver. *)
Definition solve (fuel : nat) (S : list Z) (amount : Z)
  : run (gmap Z Z * Z * Z + error) :=
  let '(heap0, slice) := alloc ∅ S in
  '(heap1, calc) ←ᵣ NewCalculator slice heap0;
  '(_, r) ←ᵣ CalculateWithDetails fuel calc amount heap1;
  Done r.

(** ⌈a / s⌉ for positive [s]. *)
Definition ceil_div (a s : Z) : Z := (a + s - 1) / s.

(** The same cache under another capacity. *)
Definition with_maxSize (c : cache.MemoryCache) (maxSize' : Z) : cache.MemoryCache :=
  {| cache.items := cache.items c; cache.chain := cache.chain c;
     cache.maxSize := maxSize';
     cache.hits := cache.hits c; cache.misses := cache.misses c |}.

(** The handlers as [http.HandlerFunc] values. *)
Definition serve_AddPackSize {DB} : http.HandlerFunc (handlers.Handler DB) :=
  λ r h, Done (handlers.AddPackSize (http.Method r) (http.Decode r "size") h).

Definition serve_DeletePackSize {DB} : http.HandlerFunc (handlers.Handler DB) :=
  λ r h, Done (handlers.DeletePackSize (http.Method r) (http.Path r) h).

(** The key a request presents: the [X-API-Key] header, or the
    [api_key] query parameter when the header is empty. *)
Definition presented_key (r : http.Request) : string :=
  if String.eqb (http.Header_Get r "X-API-Key") EmptyString
  then http.Query_Get r "api_key"
  else http.Header_Get r "X-API-Key".

(** Calls of Allow for one address, one after the other, each with the
    two instants it reads; the answers in turn. *)
Fixpoint Allow_each (ip : string) (times : list (Z * Z)) (rl : middleware.RateLimiter)
  : run (middleware.RateLimiter * list bool) :=
  match times with
  | [] => Done (rl, [])
  | (created, now) :: times' =>
      '(rl', ok) ←ᵣ middleware.Allow ip created now rl;
      '(rl'', oks) ←ᵣ Allow_each ip times' rl';
      Done (rl'', ok :: oks)
  end.

(** How many of the calls were allowed. *)
Definition admitted (oks : list bool) : Z :=
  Z.of_nat (length (filter (λ ok, ok = true) oks)).

(** Every bucket holds between no token and [burst] tokens. *)
Definition buckets_ok (rl : middleware.RateLimiter) : Prop :=
  ∀ ip v, middleware.visitors rl !! ip = Some v →
          0 <= middleware.tokens v <= middleware.burst rl.

(** * Properties *)

(** ** Integers and outcomes *)

Lemma wrap64_id z : in_int64 z → wrap64 z = z.
Proof.
  unfold in_int64, wrap64. intros [H1 H2].
  destruct (Z.gtb_spec z MaxInt64); [lia|].
  destruct (Z.ltb_spec z MinInt64); [lia|done].
Qed.

Lemma add64_id a b : in_int64 (a + b) → add64 a b = a + b.
Proof. apply wrap64_id. Qed.

Lemma sub64_id a b : in_int64 (a - b) → sub64 a b = a - b.
Proof. apply wrap64_id. Qed.

(** On [int] operands the reduced sum is again an [int] and congruent to
    the exact sum modulo 2^64. *)
Lemma add64_wraps a b :
  in_int64 a → in_int64 b →
  in_int64 (add64 a b) ∧ ∃ k, add64 a b = a + b + k * 18446744073709551616.
Proof.
  unfold in_int64, add64, wrap64, MinInt64, MaxInt64. intros Ha Hb.
  destruct (Z.gtb_spec (a + b) 9223372036854775807).
  { split; [lia|]. exists (-1). lia. }
  destruct (Z.ltb_spec (a + b) (-9223372036854775808)).
  { split; [lia|]. exists 1. lia. }
  split; [lia|]. exists 0. lia.
Qed.

Lemma run_bind_Done {A B} (m : run A) (k : A → run B) b :
  run_bind m k = Done b ↔ ∃ a, m = Done a ∧ k a = Done b.
Proof.
  destruct m; simpl; split; try discriminate; eauto.
  - intros (a' & Ha & Hk). by injection Ha as ->.
  - intros (a' & Ha & _). discriminate.
  - intros (a' & Ha & _). discriminate.
Qed.

(** Loop rules: an invariant carried through a counted loop and through a
    loop over a list. *)

Lemma for_range_inv {A} (P : Z → A → Prop) (body : A → Z → run A) n i a :
  P i a →
  (∀ k x, i <= k < i + Z.of_nat n → P k x → ∃ x', body x k = Done x' ∧ P (k + 1) x') →
  ∃ a', for_range n i body a = Done a' ∧ P (i + Z.of_nat n) a'.
Proof.
  revert i a. induction n as [|n IH]; intros i a Hi Hstep.
  - exists a. split; [done|]. by replace (i + Z.of_nat 0) with i by lia.
  - destruct (Hstep i a) as (a1 & E1 & H1); [lia|done|].
    destruct (IH (i + 1) a1) as (a2 & E2 & H2); [done| |].
    + intros k x Hk. apply Hstep. lia.
    + exists a2. simpl. rewrite E1. simpl. split; [done|].
      by replace (i + Z.of_nat (S n)) with (i + 1 + Z.of_nat n) by lia.
Qed.

Lemma for_each_inv {A B} (P : list B → A → Prop) (body : A → B → run A) xs a :
  P [] a →
  (∀ pre x y, (∃ suf, xs = pre ++ x :: suf) → P pre y →
     ∃ y', body y x = Done y' ∧ P (pre ++ [x]) y') →
  ∃ a', for_each body a xs = Done a' ∧ P xs a'.
Proof.
  intros H0 Hstep.
  cut (∀ suf pre y, xs = pre ++ suf → P pre y →
         ∃ a', for_each body y suf = Done a' ∧ P xs a').
  { intros Hc. by apply (Hc xs [] a). }
  induction suf as [|x suf IH]; intros pre y Hxs Hy.
  - exists y. split; [done|]. by rewrite Hxs, app_nil_r.
  - destruct (Hstep pre x y) as (y1 & E1 & H1); [by exists suf|done|].
    destruct (IH (pre ++ [x]) y1) as (a2 & E2 & H2); [by rewrite <- app_assoc|done|].
    exists a2. simpl. by rewrite E1.
Qed.

(** ** Slices *)


Lemma get_Done s i : 0 <= i < slen s → get s i = Done (rd s i).
Proof.
  intros [H1 H2]. unfold get.
  apply Z.leb_le in H1. apply Z.ltb_lt in H2. by rewrite H1, H2.
Qed.

Lemma set_Done s i v :
  0 <= i < slen s → set s i v = Done (Slice (slen s) (<[i := v]> (cells s))).
Proof.
  intros [H1 H2]. unfold set.
  apply Z.leb_le in H1. apply Z.ltb_lt in H2. by rewrite H1, H2.
Qed.

Lemma rd_insert_eq n m i v : rd (Slice n (<[i := v]> m)) i = v.
Proof. unfold rd. simpl. by rewrite lookup_insert_eq. Qed.

Lemma rd_insert_ne n m i j v : i ≠ j → rd (Slice n (<[i := v]> m)) j = rd (Slice n m) j.
Proof. intros. unfold rd. simpl. by rewrite lookup_insert_ne. Qed.

(** ** The relaxation phase of Calculate *)


Section relaxation.

Variable sizes : list Z.
Variable U : Z.
Hypothesis sizes_pos : Forall (λ s, 1 <= s) sizes.
Hypothesis U_nonneg : 0 <= U.
Hypothesis U_fits : ∀ s, s ∈ sizes → U + s <= MaxInt64.

Lemma size_pos s : s ∈ sizes → 1 <= s.
Proof. intros Hs. by eapply (proj1 (Forall_forall _ _) sizes_pos). Qed.


Lemma relax_inv i seen s st :
  0 <= i <= U → s ∈ sizes → rd st.1 i < MaxInt32 →
  dp_inv sizes U i seen st →
  ∃ st', relax U i st s = Done st' ∧ dp_inv sizes U i (seen ++ [s]) st' ∧
         rd st'.1 i = rd st.1 i.
Proof.
  intros Hi Hs Hreach [Hl1 Hl2 Hr H0 Hsound Hlt Heq].
  destruct st as [dp parent]; simpl in *.
  pose proof (size_pos s Hs) as Hs1.
  pose proof (U_fits s Hs) as Hfit.
  pose proof (Hr i Hi) as Hri.
  unfold relax.
  assert (add64 i s = i + s) as ->.
  { apply add64_id. unfold in_int64, MinInt64, MaxInt64 in *. lia. }
  destruct (Z.leb_spec (i + s) U) as [Hle|Hgt].
  2:{ exists (dp, parent). split; [done|]. split; [|done].
      constructor; simpl; try done.
      intros s' [Hs'|Hs']%elem_of_app Hb; [by apply Heq|].
      apply list_elem_of_singleton in Hs' as ->. lia. }
  rewrite (get_Done dp (i + s)) by lia. simpl.
  rewrite (get_Done dp i) by lia. simpl.
  assert (add64 (rd dp i) 1 = rd dp i + 1) as ->.
  { apply add64_id. unfold in_int64, MinInt64, MaxInt64, MaxInt32 in *. lia. }
  destruct (Z.gtb_spec (rd dp (i + s)) (rd dp i + 1)) as [Hgt|Hle'].
  2:{ exists (dp, parent). split; [done|]. split; [|done].
      constructor; simpl; try done.
      intros s' [Hs'|Hs']%elem_of_app Hb; [by apply Heq|].
      apply list_elem_of_singleton in Hs' as ->. lia. }
  rewrite (set_Done dp) by lia. simpl.
  rewrite (set_Done parent) by lia. simpl.
  eexists. split; [done|]. simpl.
  destruct dp as [n1 m1], parent as [n2 m2]; simpl in *.
  assert (∀ j, rd (Slice n1 (<[i + s := rd (Slice n1 m1) i + 1]> m1)) j
               <= rd (Slice n1 m1) j ∨ j = i + s) as Hmono.
  { intros j. destruct (decide (i + s = j)) as [<-|Hne]; [by right|].
    left. by rewrite rd_insert_ne. }
  split; [|rewrite rd_insert_ne; [done|lia]].
  constructor; simpl; try done.
  - intros j Hj. destruct (decide (i + s = j)) as [<-|Hne].
    + rewrite rd_insert_eq. unfold MaxInt32 in *. lia.
    + rewrite rd_insert_ne by done. by apply Hr.
  - rewrite rd_insert_ne by lia. done.
  - intros j Hj. destruct (decide (i + s = j)) as [<-|Hne].
    + rewrite !rd_insert_eq. intros _.
      replace (i + s - s) with i by lia.
      rewrite rd_insert_ne by lia. split; [done|]. lia.
    + rewrite !(rd_insert_ne _ _ (i + s) j) by done. intros Hj'.
      destruct (Hsound j Hj Hj') as (Hp1 & Hp2 & Hp3).
      split; [done|]. split; [done|].
      rewrite rd_insert_ne by lia. done.
  - intros j s' Hj Hs' Hb.
    rewrite (rd_insert_ne _ _ (i + s) j) by lia. intros Hj'.
    pose proof (Hlt j s' Hj Hs' Hb Hj') as Hold.
    destruct (decide (i + s = j + s')) as [E|Hne].
    + rewrite <- E in Hold |- *. rewrite rd_insert_eq. lia.
    + rewrite rd_insert_ne by done. done.
  - intros s' Hs' Hb. rewrite (rd_insert_ne _ _ (i + s) i) by lia. intros _.
    destruct (decide (i + s = i + s')) as [E|Hne].
    + rewrite <- E, rd_insert_eq. lia.
    + rewrite rd_insert_ne by done.
      apply elem_of_app in Hs' as [Hs'|Hs']; [by apply Heq|].
      apply list_elem_of_singleton in Hs' as ->. done.
Qed.

Lemma dp_step_inv i st :
  0 <= i <= U → dp_inv sizes U i [] st →
  ∃ st', dp_step sizes U st i = Done st' ∧ dp_inv sizes U (i + 1) [] st'.
Proof.
  intros Hi Hinv. unfold dp_step.
  rewrite get_Done by (rewrite (inv_len_dp Hinv); lia). simpl.
  assert (∀ st' seen, dp_inv sizes U i seen st' →
            (rd st'.1 i < MaxInt32 → seen = sizes) → dp_inv sizes U (i + 1) [] st') as Hnext.
  { intros st' seen [Hl1 Hl2 Hr H0 Hsound Hlt Heq] Hall.
    constructor; try done.
    - intros j Hj Hj'. destruct (Hsound j Hj Hj') as (? & ? & ?).
      split; [done|]. split; [lia|done].
    - intros j s Hj Hs Hb Hj'.
      destruct (decide (j = i)) as [->|Hne].
      + apply Heq; try done. by rewrite (Hall Hj').
      + apply Hlt; try done. lia.
    - intros s Hs. by apply elem_of_nil in Hs. }
  destruct (Z.eqb_spec (rd st.1 i) MaxInt32) as [E|Hne].
  { exists st. split; [done|]. apply (Hnext st []); [done|lia]. }
  pose proof (inv_range Hinv i Hi) as Hri.
  destruct (for_each_inv
              (λ seen st', dp_inv sizes U i seen st' ∧ rd st'.1 i = rd st.1 i)
              (relax U i) sizes st) as (st' & E' & Hinv' & Hsame).
  - done.
  - intros pre x y [suf Hx] [Hy Hyi].
    destruct (relax_inv i pre x y) as (y' & Ey & Hy' & Hyi'); try done.
    + rewrite Hx. apply elem_of_app. right. apply list_elem_of_here.
    + lia.
    + exists y'. split; [done|]. split; [done|]. congruence.
  - exists st'. split; [done|]. by apply (Hnext st' sizes).
Qed.

End relaxation.

(** ** Pack multisets

    The map returned by Calculate read as a multiset of packs. *)


(** Folding a commutative step over a map after one entry was replaced,
    and with one entry taken out. *)
Lemma map_fold_replace {B} (f : Z → Z → B → B) (b : B) (m : gmap Z Z) s v :
  (∀ j1 j2 z1 z2 y, f j1 z1 (f j2 z2 y) = f j2 z2 (f j1 z1 y)) →
  map_fold f b (<[s := v]> m) = f s v (map_fold f b (delete s m)).
Proof.
  intros f_comm. rewrite <- insert_delete_eq.
  apply map_fold_insert_L; [intros; apply f_comm|apply lookup_delete_eq].
Qed.

Lemma map_fold_split {B} (f : Z → Z → B → B) (b : B) (m : gmap Z Z) s c :
  (∀ j1 j2 z1 z2 y, f j1 z1 (f j2 z2 y) = f j2 z2 (f j1 z1 y)) →
  m !! s = Some c → map_fold f b m = f s c (map_fold f b (delete s m)).
Proof. intros f_comm H. apply map_fold_delete_L; [intros; apply f_comm|done]. Qed.

Lemma items_of_bump (m : gmap Z Z) s :
  items_of (<[s := default 0 (m !! s) + 1]> m) = items_of m + s.
Proof.
  unfold items_of.
  rewrite map_fold_replace by (intros; lia).
  destruct (m !! s) as [c|] eqn:E; simpl.
  - rewrite (map_fold_split _ _ m s c) by (done || intros; lia). lia.
  - rewrite delete_id by done. lia.
Qed.

Lemma packs_of_bump (m : gmap Z Z) s :
  packs_of (<[s := default 0 (m !! s) + 1]> m) = packs_of m + 1.
Proof.
  unfold packs_of.
  rewrite map_fold_replace by (intros; lia).
  destruct (m !! s) as [c|] eqn:E; simpl.
  - rewrite (map_fold_split _ _ m s c) by (done || intros; lia). lia.
  - rewrite delete_id by done. lia.
Qed.

Lemma items_of_tally l m : items_of (tally l m) = items_of m + sum_list_Z l.
Proof.
  revert m. induction l as [|s l IH]; intros m; simpl; [lia|].
  unfold tally in *. simpl. rewrite IH, items_of_bump. lia.
Qed.

Lemma packs_of_tally l m : packs_of (tally l m) = packs_of m + Z.of_nat (length l).
Proof.
  revert m. induction l as [|s l IH]; intros m; [simpl; lia|].
  unfold tally in *. simpl foldl. rewrite IH, packs_of_bump. simpl length. lia.
Qed.

Lemma count_packs_exact (M : gmap Z Z) :
  (∀ s c, M !! s = Some c → 0 <= c) → packs_of M <= MaxInt64 →
  count_packs M = packs_of M.
Proof.
  unfold count_packs, packs_of. rewrite !map_fold_foldr.
  intros Hpos.
  assert (Forall (λ sc, 0 <= sc.2) (map_to_list M)) as Hall.
  { apply Forall_forall. intros [s c] Hsc. apply (Hpos s c).
    by apply elem_of_map_to_list. }
  clear Hpos. induction Hall as [|[s c] l Hc Hall IH]; simpl; [done|].
  intros Hb.
  assert (0 <= foldr (uncurry (λ (_ c0 acc : Z), acc + c0)) 0 l) as Hnn.
  { clear -Hall. induction Hall as [|[s' c'] l' Hc' _ IH']; simpl in *; lia. }
  simpl in Hc. rewrite IH by lia. apply add64_id.
  unfold in_int64, MinInt64, MaxInt64 in *. lia.
Qed.

Lemma tally_lookup l m s c :
  tally l m !! s = Some c →
  (m !! s = Some c ∧ s ∉ l) ∨ (1 <= c - default 0 (m !! s) ∧ s ∈ l).
Proof.
  revert m c. induction l as [|x l IH]; intros m c; simpl.
  - intros H. left. split; [done|]. apply not_elem_of_nil.
  - unfold tally in *. simpl. intros H.
    destruct (IH _ _ H) as [[H1 H2]|[H1 H2]].
    + destruct (decide (x = s)) as [->|Hne].
      * rewrite lookup_insert_eq in H1. right.
        injection H1 as <-. split; [lia|]. apply list_elem_of_here.
      * rewrite lookup_insert_ne in H1 by done. left. split; [done|].
        by apply not_elem_of_cons.
    + right. split; [|by apply list_elem_of_further].
      destruct (decide (x = s)) as [->|Hne].
      * rewrite lookup_insert_eq in H1. simpl in H1. lia.
      * rewrite lookup_insert_ne in H1 by done. done.
Qed.

(** ** After the relaxation: what the two tables hold *)

Lemma sum_list_Z_nonneg sizes l :
  Forall (λ s, 1 <= s) sizes → packing sizes l →
  Z.of_nat (length l) <= sum_list_Z l.
Proof.
  intros Hpos Hl. induction Hl as [|s l Hs _ IH]; simpl; [lia|].
  pose proof (proj1 (Forall_forall _ _) Hpos s Hs). simpl in *. lia.
Qed.

Section tables.

Variable sizes : list Z.
Variable U : Z.
Hypothesis sizes_pos : Forall (λ s, 1 <= s) sizes.
Hypothesis U_nonneg : 0 <= U.
Hypothesis U_fits : ∀ s, s ∈ sizes → U + s <= MaxInt64.
Hypothesis U_alloc : 8 * (U + 1) <= maxAlloc.

(** Filling [dp] with the sentinel. *)
Lemma fill_Done n :
  0 <= n →
  ∃ dp, for_range (Z.to_nat n) 0 fill (Slice n ∅) = Done dp ∧
        slen dp = n ∧ ∀ j, 0 <= j < n → rd dp j = MaxInt32.
Proof.
  intros Hn.
  destruct (for_range_inv
              (λ k dp, slen dp = n ∧ ∀ j, 0 <= j < k → rd dp j = MaxInt32)
              fill (Z.to_nat n) 0 (Slice n ∅)) as (dp & E & Hlen & Hall).
  - split; [done|]. intros; lia.
  - intros k [n' m] Hk [Hlen Hall]. simpl in Hlen. subst n'.
    unfold fill. rewrite set_Done by (simpl; lia). simpl.
    eexists. split; [done|]. split; [done|].
    intros j Hj. destruct (decide (k = j)) as [->|Hne].
    + apply rd_insert_eq.
    + rewrite rd_insert_ne by done. apply Hall. lia.
  - exists dp. split; [done|]. split; [done|].
    intros j Hj. apply Hall. lia.
Qed.


Lemma U_succ_fits : sizes ≠ [] → add64 U 1 = U + 1.
Proof.
  intros Hne. destruct sizes as [|s ?] eqn:E; [done|].
  pose proof (U_fits s (list_elem_of_here _ _)).
  pose proof (proj1 (Forall_forall _ _) sizes_pos s (list_elem_of_here _ _)).
  simpl in *. apply add64_id. unfold in_int64, MinInt64, MaxInt64 in *. lia.
Qed.

Lemma tables_Done :
  sizes ≠ [] → ∃ st, tables sizes U = Done st ∧ dp_inv sizes U (U + 1) [] st.
Proof.
  intros Hne. unfold tables. rewrite (U_succ_fits Hne).
  unfold make. destruct (Z.ltb_spec (U + 1) 0) as [?|_]; [lia|].
  destruct (Z.gtb_spec (8 * (U + 1)) maxAlloc) as [?|_]; [lia|]. simpl.
  destruct (fill_Done (U + 1)) as ([n m] & E & Hlen & Hall); [lia|].
  simpl in Hlen. subst n. rewrite E. simpl.
  rewrite set_Done by (simpl; lia). simpl.
  destruct (for_range_inv (λ k st, dp_inv sizes U k [] st)
              (dp_step sizes U) (Z.to_nat (U + 1)) 0
              (Slice (U + 1) (<[0 := 0]> m), Slice (U + 1) ∅))
    as (st & E' & Hinv).
  - constructor; simpl; try done.
    + intros j Hj. destruct (decide (0 = j)) as [<-|Hne0].
      * rewrite rd_insert_eq. unfold MaxInt32. lia.
      * rewrite rd_insert_ne by done. rewrite Hall by lia. unfold MaxInt32. lia.
    + apply rd_insert_eq.
    + intros j Hj. rewrite rd_insert_ne by lia. rewrite Hall by lia. lia.
    + intros; lia.
    + intros s Hs. by apply elem_of_nil in Hs.
  - intros k st Hk Hst. apply dp_step_inv; try done. lia.
  - exists st. split; [done|].
    by replace (0 + Z.of_nat (Z.to_nat (U + 1))) with (U + 1) in Hinv by lia.
Qed.

Variable st : slice * slice.
Hypothesis st_inv : dp_inv sizes U (U + 1) [] st.

(** Completeness: [dp] is at most the length of any combination that
    is shorter than the sentinel. *)
Lemma dp_le_length l :
  packing sizes l → sum_list_Z l <= U → Z.of_nat (length l) < MaxInt32 →
  rd st.1 (sum_list_Z l) <= Z.of_nat (length l).
Proof.
  intros Hl. induction Hl as [|s l Hs Hl IH]; simpl; intros Hb Hlen.
  - rewrite (inv_zero st_inv). lia.
  - pose proof (size_pos sizes sizes_pos s Hs).
    pose proof (sum_list_Z_nonneg sizes l sizes_pos Hl).
    fold (sum_list_Z l) in *.
    assert (rd st.1 (sum_list_Z l) <= Z.of_nat (length l)) as IH' by (apply IH; lia).
    pose proof (inv_complete_lt st_inv (sum_list_Z l) s) as Hc.
    replace (s + sum_list_Z l) with (sum_list_Z l + s) by lia.
    lapply Hc; [clear Hc; intros Hc|lia].
    specialize (Hc Hs). lapply Hc; [clear Hc; intros Hc|lia].
    lapply Hc; [lia|lia].
Qed.

(** Soundness, and the reconstruction: from a reachable cell the
    back-pointers lead to a combination of exactly [dp] packs, which
    the backtracking loop tallies. *)
Lemma backtrack_Done (k : nat) : ∀ j,
  0 <= j <= U → rd st.1 j = Z.of_nat k → Z.of_nat k < MaxInt32 →
  ∃ l, packing sizes l ∧ sum_list_Z l = j ∧ length l = k ∧
       ∀ packs fuel,
         (k ≤ fuel)%nat →
         (∀ s, 0 <= default 0 (packs !! s) ∧
               default 0 (packs !! s) + Z.of_nat k <= MaxInt32) →
         backtrack fuel st.2 j packs = Done (tally l packs).
Proof.
  destruct st_inv as [Hl1 Hl2 Hr H0 Hsound _ _].
  induction k as [|k IH]; intros j Hj Hdp Hk.
  - destruct (decide (j = 0)) as [->|Hne].
    + exists []. repeat split; try done; [constructor|].
      intros packs fuel _ _. by destruct fuel.
    + destruct (Hsound j) as (Hs & Hp & Heq); [lia|lia|].
      pose proof (size_pos sizes sizes_pos _ Hs) as Hs1.
      pose proof (Hr (j - rd st.2 j)). lia.
  - destruct (decide (j = 0)) as [->|Hne]; [lia|].
    destruct (Hsound j) as (Hs & Hp & Heq); [lia|lia|].
    pose proof (size_pos sizes sizes_pos _ Hs) as Hs1.
    pose proof (U_fits _ Hs) as Hfit.
    destruct (IH (j - rd st.2 j)) as (l & Hl & Hsum & Hlen & E); try lia.
    exists (rd st.2 j :: l). split; [by constructor|].
    split; [simpl; fold (sum_list_Z l); lia|]. split; [simpl; lia|].
    intros packs fuel Hfuel Hpacks.
    destruct fuel as [|fuel]; [lia|].
    simpl. destruct (Z.leb_spec j 0) as [?|_]; [lia|].
    rewrite get_Done by lia. simpl.
    rewrite sub64_id by (unfold in_int64, MinInt64, MaxInt64 in *; lia).
    rewrite add64_id.
    2:{ pose proof (Hpacks (rd st.2 j)).
        unfold in_int64, MinInt64, MaxInt64, MaxInt32 in *. lia. }
    apply E; [lia|].
    intros s. destruct (decide (rd st.2 j = s)) as [<-|Hne'].
    + rewrite lookup_insert_eq. simpl. pose proof (Hpacks (rd st.2 j)). lia.
    + rewrite lookup_insert_ne by done. pose proof (Hpacks s). lia.
Qed.

End tables.

(** ** Calculate, from the tables to the result *)

Lemma scan_spec n : ∀ i dp,
  0 <= i → i + Z.of_nat n <= slen dp →
  ∃ r, scan n i dp = Done r ∧
       ((r = -1 ∧ ∀ j, i <= j < i + Z.of_nat n → rd dp j = MaxInt32) ∨
        (i <= r < i + Z.of_nat n ∧ rd dp r ≠ MaxInt32 ∧
         ∀ j, i <= j < r → rd dp j = MaxInt32)).
Proof.
  induction n as [|n IH]; intros i dp Hi Hlen.
  - exists (-1). split; [done|]. left. split; [done|]. intros; lia.
  - simpl scan. rewrite get_Done by lia. simpl.
    destruct (Z.eqb_spec (rd dp i) MaxInt32) as [E|Hne].
    + destruct (IH (i + 1) dp) as (r & Er & Hr); [lia|lia|].
      exists r. split; [done|].
      destruct Hr as [[-> Hall]|(Hr1 & Hr2 & Hall)].
      * left. split; [done|]. intros j Hj.
        destruct (decide (j = i)) as [->|?]; [done|]. apply Hall. lia.
      * right. split; [lia|]. split; [done|]. intros j Hj.
        destruct (decide (j = i)) as [->|?]; [done|]. apply Hall. lia.
    + exists i. split; [done|]. right. split; [lia|]. split; [done|].
      intros; lia.
Qed.


Lemma Calculate_on_tables fuel sizes amount largest :
  0 < amount → last sizes = Some largest →
  Calculate_on fuel sizes amount =
    run_bind (tables sizes (add64 amount largest))
             (finish fuel amount (add64 amount largest)).
Proof.
  intros Ha Hlast. unfold Calculate_on, tables, finish.
  destruct (Z.leb_spec amount 0) as [?|_]; [lia|]. rewrite Hlast.
  destruct (make _) as [dp0| |]; simpl; try done.
  destruct (for_range _ 0 fill dp0) as [dp1| |]; simpl; try done.
  destruct (set dp1 0 0) as [dp2| |]; simpl; try done.
  destruct (for_range _ 0 _ _) as [[dp3 parent]| |]; simpl; done.
Qed.

(** Packs of at least [smallest] items each. *)
Lemma sum_list_Z_smallest sizes smallest l :
  (∀ s, s ∈ sizes → smallest <= s) → packing sizes l →
  Z.of_nat (length l) * smallest <= sum_list_Z l.
Proof.
  intros Hmin Hl. induction Hl as [|s l Hs _ IH]; simpl; [lia|].
  pose proof (Hmin s Hs). fold (sum_list_Z l). lia.
Qed.

(** From any combination reaching the amount, one that is no larger,
    stays within one pack above the amount, has at most [amount] packs,
    and all but one of its packs stay below the amount. *)
Lemma shorten sizes amount largest smallest l :
  Forall (λ s, 1 <= s) sizes → (∀ s, s ∈ sizes → s <= largest) →
  (∀ s, s ∈ sizes → smallest <= s) →
  1 <= amount → packing sizes l → amount <= sum_list_Z l →
  ∃ l', packing sizes l' ∧ amount <= sum_list_Z l' <= sum_list_Z l ∧
        sum_list_Z l' < amount + largest ∧ Z.of_nat (length l') <= amount ∧
        (Z.of_nat (length l') - 1) * smallest < amount.
Proof.
  intros Hpos Hmax Hmin Ha Hl. induction Hl as [|s l Hs Hl IH]; simpl; intros Hsum.
  - lia.
  - fold (sum_list_Z l) in *.
    pose proof (proj1 (Forall_forall _ _) Hpos s Hs) as Hs1. simpl in Hs1.
    destruct (decide (amount <= sum_list_Z l)) as [Hge|Hlt].
    + destruct (IH Hge) as (l' & H1 & H2 & H3 & H4 & H5).
      exists l'. split; [done|]. split; [lia|]. done.
    + exists (s :: l). split; [by constructor|]. simpl. fold (sum_list_Z l).
      pose proof (Hmax s Hs). pose proof (sum_list_Z_nonneg sizes l Hpos Hl).
      pose proof (sum_list_Z_smallest sizes smallest l Hmin Hl).
      split; [lia|]. split; [lia|]. split; [lia|].
      replace (Z.pos (Pos.of_succ_nat (length l)) - 1) with (Z.of_nat (length l)) by lia.
      lia.
Qed.

Lemma sum_list_Z_replicate n s : sum_list_Z (replicate n s) = Z.of_nat n * s.
Proof. induction n as [|n IH]; [done|]. simpl replicate. simpl sum_list_Z. fold (sum_list_Z (replicate n s)). lia. Qed.

Section solved.

Variable sizes : list Z.
Variables amount largest : Z.
Hypothesis sizes_pos : Forall (λ s, 1 <= s) sizes.
Hypothesis sizes_last : last sizes = Some largest.
Hypothesis sizes_max : ∀ s, s ∈ sizes → s <= largest.
Hypothesis amount_pos : 1 <= amount.
Hypothesis no_overflow : amount + 2 * largest <= MaxInt64.
Hypothesis tables_alloc : 8 * (amount + largest + 1) <= maxAlloc.

Local Abbreviation U := (amount + largest).

Lemma largest_in : largest ∈ sizes.
Proof.
  destruct (proj1 (last_Some _ _) sizes_last) as [l' E]. rewrite E.
  apply elem_of_app. right. apply list_elem_of_here.
Qed.

Lemma maxTarget_eq : add64 amount largest = U.
Proof.
  pose proof (size_pos sizes sizes_pos _ largest_in).
  apply add64_id. unfold in_int64, MinInt64, MaxInt64 in *. lia.
Qed.

Lemma solved_tables :
  ∃ st, dp_inv sizes U (U + 1) [] st ∧
        ∀ fuel, Calculate_on fuel sizes amount = finish fuel amount U st.
Proof.
  pose proof (size_pos sizes sizes_pos _ largest_in) as Hl1.
  destruct (tables_Done sizes U) as (st & E & Hinv); try done.
  - lia.
  - intros s Hs. pose proof (sizes_max s Hs). lia.
  - intros E. pose proof largest_in as Hin. rewrite E in Hin.
    by apply elem_of_nil in Hin.
  - exists st. split; [done|]. intros fuel.
    rewrite (Calculate_on_tables fuel sizes amount largest) by (done || lia).
    rewrite maxTarget_eq, E. done.
Qed.

(** Calculate succeeds when the packs it needs stay below the sentinel:
    the amount is at most [MaxInt32 - 1] times the smallest size.  Its
    result is lexicographically least. *)
Lemma Calculate_on_least smallest :
  (∀ s, s ∈ sizes → smallest <= s) → 1 <= smallest →
  amount <= smallest * (MaxInt32 - 1) →
  ∃ l, packing sizes l ∧ amount <= sum_list_Z l ∧
       Z.of_nat (length l) <= amount ∧
       (∀ fuel, (Z.to_nat amount ≤ fuel)%nat →
          Calculate_on fuel sizes amount = Done (inl (tally l ∅, sum_list_Z l))) ∧
       (∀ l', packing sizes l' → amount <= sum_list_Z l' →
          sum_list_Z l <= sum_list_Z l') ∧
       (∀ l', packing sizes l' → sum_list_Z l' = sum_list_Z l →
          (length l ≤ length l')%nat).
Proof.
  intros Hmin Hmin1 Hsmall.
  pose proof (size_pos sizes sizes_pos _ largest_in) as Hl1.
  destruct solved_tables as (st & Hinv & Hcalc).
  assert (0 <= U) as HU by lia.
  assert (∀ s, s ∈ sizes → U + s <= MaxInt64) as Hfit.
  { intros s Hs. pose proof (sizes_max s Hs). lia. }
  (* every combination reaching the amount bounds a reachable cell *)
  assert (∀ l', packing sizes l' → amount <= sum_list_Z l' →
            ∃ t, amount <= t <= sum_list_Z l' ∧ t <= U ∧
                 rd st.1 t <= amount ∧ rd st.1 t < MaxInt32) as Hreach.
  { intros l' Hl' Hsum.
    destruct (shorten sizes amount largest smallest l')
      as (l2 & H1 & H2 & H3 & H4 & H5); try done.
    exists (sum_list_Z l2). split; [lia|]. split; [lia|].
    assert (Z.of_nat (length l2) < MaxInt32) as Hlt by nia.
    pose proof (dp_le_length sizes U sizes_pos st Hinv l2 H1). lia. }
  destruct (scan_spec (Z.to_nat (U - amount + 1)) amount st.1) as (r & Er & Hr).
  { lia. } { rewrite (inv_len_dp Hinv). lia. }
  destruct (Hreach (replicate (Z.to_nat amount) largest))
    as (t0 & Ht0 & Ht0U & Hdp0 & Hlt0).
  { apply Forall_replicate, largest_in. }
  { rewrite sum_list_Z_replicate. nia. }
  destruct Hr as [[-> Hall]|(Hr1 & Hr2 & Hall)].
  { rewrite (Hall t0) in Hlt0 by lia. lia. }
  pose proof (inv_range Hinv r) as Hrr.
  assert (0 <= r <= U) as HrU by lia. specialize (Hrr HrU).
  destruct (backtrack_Done sizes U sizes_pos Hfit st Hinv
              (Z.to_nat (rd st.1 r)) r)
    as (l & Hl & Hsum & Hlen & Hback); try lia.
  assert (Z.of_nat (length l) <= amount) as Hshort.
  { destruct (Hreach l Hl) as (t & Ht & HtU & Hdp & Hlt); [lia|].
    destruct (decide (t = r)) as [->|Hne]; [lia|].
    rewrite (Hall t) in Hlt by lia. lia. }
  exists l. split; [done|]. split; [lia|]. split; [done|].
  split; [|split].
  - intros fuel Hfuel. rewrite Hcalc. unfold finish. rewrite Er. simpl.
    destruct (Z.eqb_spec r (-1)) as [?|_]; [lia|].
    rewrite Hback; [by rewrite Hsum|lia|].
    intros s. rewrite lookup_empty. simpl. lia.
  - intros l' Hl' Hsum'.
    destruct (Hreach l' Hl' Hsum') as (t & Ht & HtU & Hdp & Hlt).
    destruct (decide (r <= t)) as [?|Hnle]; [lia|].
    rewrite (Hall t) in Hlt by lia. lia.
  - intros l' Hl' Hsum'.
    destruct (decide (Z.of_nat (length l') < MaxInt32)) as [Hs|Hs]; [|lia].
    pose proof (dp_le_length sizes U sizes_pos st Hinv l' Hl') as Hle.
    rewrite Hsum', Hsum in Hle. lia.
Qed.

End solved.

(** ** Combinations as coefficient maps and as lists of packs *)

Lemma sum_list_Z_app a b : sum_list_Z (a ++ b) = sum_list_Z a + sum_list_Z b.
Proof.
  induction a as [|x a IH]; simpl; [done|].
  fold (sum_list_Z (a ++ b)) (sum_list_Z a). lia.
Qed.

Lemma packs_list_spec sizes (n : gmap Z Z) :
  combination sizes n →
  packing sizes (packs_list n) ∧
  sum_list_Z (packs_list n) = items_of n ∧
  Z.of_nat (length (packs_list n)) = packs_of n.
Proof.
  unfold combination, packs_list, items_of, packs_of.
  induction n as [|s c n Hs Hfirst IH] using map_first_key_ind; intros Hn.
  - rewrite !map_fold_empty. repeat split. constructor.
  - rewrite !map_fold_insert_first_key by done.
    destruct (Hn s c) as [Hin Hc]; [apply lookup_insert_eq|].
    destruct IH as (IH1 & IH2 & IH3).
    { intros s' c' Hs'. apply (Hn s' c'). rewrite lookup_insert_ne; [done|].
      intros ->. congruence. }
    split; [|split].
    + apply Forall_app. split; [by apply Forall_replicate|done].
    + rewrite sum_list_Z_app, sum_list_Z_replicate, IH2, Z2Nat.id by done. lia.
    + rewrite length_app, length_replicate, Nat2Z.inj_add, IH3. lia.
Qed.

(** ** NewCalculator and the heap *)

Lemma sort_Ints_perm S : sort_Ints S ≡ₚ S.
Proof. apply merge_sort_Permutation. Qed.

Lemma sort_Ints_largest S largest :
  last (sort_Ints S) = Some largest → ∀ s, s ∈ sort_Ints S → s <= largest.
Proof.
  intros Hlast s Hs.
  pose proof (StronglySorted_merge_sort Z.le S) as Hsorted.
  fold (sort_Ints S) in Hsorted.
  apply last_Some in Hlast as [l' E]. rewrite E in Hs, Hsorted.
  apply elem_of_app in Hs as [Hs|Hs].
  - eapply (StronglySorted_app_1_elem_of Z.le); [done..|apply list_elem_of_here].
  - apply list_elem_of_singleton in Hs as ->. lia.
Qed.

(** The sorted slice begins with the smallest size. *)
Lemma sort_Ints_head S :
  S ≠ [] → ∃ m rest, sort_Ints S = m :: rest ∧ m ∈ S ∧ ∀ s, s ∈ S → m <= s.
Proof.
  intros Hne. pose proof (sort_Ints_perm S) as HP.
  pose proof (StronglySorted_merge_sort Z.le S) as Hsorted.
  fold (sort_Ints S) in Hsorted.
  destruct (sort_Ints S) as [|m rest].
  { symmetry in HP. by apply Permutation_nil_r in HP. }
  exists m, rest. split; [done|]. split.
  - rewrite <- HP. apply list_elem_of_here.
  - intros s Hs. rewrite <- HP in Hs. apply elem_of_cons in Hs as [->|Hs]; [lia|].
    apply StronglySorted_inv in Hsorted as [_ Hall].
    by apply (proj1 (Forall_forall _ _) Hall).
Qed.

Lemma copy_fresh src : copy (replicate (length src) 0) src = src.
Proof.
  unfold copy. rewrite length_replicate, firstn_all.
  rewrite drop_ge by (by rewrite length_replicate). apply app_nil_r.
Qed.

Lemma NewCalculator_Done (h : heap) p S :
  h !! p = Some S →
  ∃ q, h !! q = None ∧
       NewCalculator p h = Done (<[q := sort_Ints S]> h, {| packSizes := q |}).
Proof.
  intros Hp. unfold NewCalculator, alloc. rewrite Hp.
  exists (fresh (dom h)). split.
  - apply not_elem_of_dom, is_fresh.
  - by rewrite !alter_insert_eq, copy_fresh.
Qed.

(** More fuel does not change a result. *)
Lemma backtrack_mono fuel fuel' parent : ∀ current packs r,
  backtrack fuel parent current packs = Done r → (fuel ≤ fuel')%nat →
  backtrack fuel' parent current packs = Done r.
Proof.
  revert fuel'. induction fuel as [|fuel IH]; intros fuel' current packs r.
  - simpl. destruct (current <=? 0) eqn:E; [|done].
    intros H _. destruct fuel'; simpl; by rewrite E.
  - simpl. destruct (current <=? 0) eqn:E.
    + intros H _. destruct fuel'; simpl; by rewrite E.
    + intros H Hle. destruct fuel' as [|fuel']; [lia|]. simpl. rewrite E.
      destruct (get parent current) as [pu| |]; simpl in *; try done.
      apply IH; [done|lia].
Qed.

Lemma Calculate_on_mono fuel fuel' sizes amount r :
  Calculate_on fuel sizes amount = Done r → (fuel ≤ fuel')%nat →
  Calculate_on fuel' sizes amount = Done r.
Proof.
  unfold Calculate_on. intros H Hle.
  destruct (amount <=? 0); [done|]. destruct (last sizes) as [largest|]; [|done].
  destruct (make _) as [dp0| |]; simpl in *; try done.
  destruct (for_range _ 0 fill dp0) as [dp1| |]; simpl in *; try done.
  destruct (set dp1 0 0) as [dp2| |]; simpl in *; try done.
  destruct (for_range _ 0 _ _) as [[dp3 parent]| |]; simpl in *; try done.
  destruct (scan _ _ _) as [best| |]; simpl in *; try done.
  destruct (best =? -1); [done|].
  destruct (backtrack fuel parent best ∅) as [packs| |] eqn:E; simpl in *; try done.
  by rewrite (backtrack_mono fuel fuel' parent best ∅ packs E Hle).
Qed.

Lemma CalculateWithDetails_mono fuel fuel' c amount h r :
  CalculateWithDetails fuel c amount h = Done r → (fuel ≤ fuel')%nat →
  CalculateWithDetails fuel' c amount h = Done r.
Proof.
  unfold CalculateWithDetails, Calculate. intros H Hle.
  destruct (h !! packSizes c) as [sizes|]; [|done].
  destruct (Calculate_on fuel sizes amount) as [x| |] eqn:E; simpl in *; try done.
  by rewrite (Calculate_on_mono fuel fuel' sizes amount x E Hle).
Qed.

(** Calculate only reads the heap. *)
Lemma Calculate_heap fuel c amount h h' r :
  Calculate fuel c amount h = Done (h', r) → h' = h.
Proof.
  unfold Calculate. destruct (h !! packSizes c); [|done].
  destruct (Calculate_on _ _ _); simpl; congruence.
Qed.

Lemma CalculateWithDetails_heap fuel c amount h h' r :
  CalculateWithDetails fuel c amount h = Done (h', r) → h' = h.
Proof.
  unfold CalculateWithDetails.
  destruct (Calculate fuel c amount h) as [[h1 r1]| |] eqn:E; simpl; try done.
  apply Calculate_heap in E as ->. destruct r1 as [[packs total]|err]; congruence.
Qed.

(** The multiset tallied from a combination. *)
Lemma tally_counts sizes l s n :
  packing sizes l → tally l ∅ !! s = Some n → 1 <= n ∧ s ∈ sizes.
Proof.
  intros Hl H. apply tally_lookup in H as [[H _]|[H1 H2]].
  - by rewrite lookup_empty in H.
  - rewrite lookup_empty in H1. simpl in H1. split; [lia|].
    by apply (proj1 (Forall_forall _ _) Hl).
Qed.

Lemma tally_combination sizes l : packing sizes l → combination sizes (tally l ∅).
Proof.
  intros Hl s c Hs. destruct (tally_counts sizes l s c Hl Hs). split; [done|lia].
Qed.

Lemma tally_nonneg l s n : tally l ∅ !! s = Some n → 0 <= n.
Proof.
  intros H. apply tally_lookup in H as [[H _]|[H1 H2]].
  - by rewrite lookup_empty in H.
  - rewrite lookup_empty in H1. simpl in H1. lia.
Qed.

Lemma items_of_tally_empty l : items_of (tally l ∅) = sum_list_Z l.
Proof. rewrite items_of_tally. unfold items_of. by rewrite map_fold_empty. Qed.

Lemma packs_of_tally_empty l : packs_of (tally l ∅) = Z.of_nat (length l).
Proof. rewrite packs_of_tally. unfold packs_of. by rewrite map_fold_empty. Qed.

(** The solver on a caller's slice: the general statement behind the
    theorems below. *)
Lemma solver_least (h : heap) p S amount :
  h !! p = Some S → S ≠ [] → Forall (λ s, 1 <= s) S →
  1 <= amount →
  Forall (λ s, amount <= s * (MaxInt32 - 1)) S →
  Forall (λ s, 8 * (amount + s + 1) <= maxAlloc) S →
  ∃ h' c l,
    NewCalculator p h = Done (h', c) ∧
    packing S l ∧ amount <= sum_list_Z l ∧ Z.of_nat (length l) <= amount ∧
    (∀ fuel, (Z.to_nat amount ≤ fuel)%nat →
       Calculate fuel c amount h' = Done (h', inl (tally l ∅, sum_list_Z l)) ∧
       CalculateWithDetails fuel c amount h' =
         Done (h', inl (tally l ∅, sum_list_Z l, Z.of_nat (length l)))) ∧
    (∀ l', packing S l' → amount <= sum_list_Z l' → sum_list_Z l <= sum_list_Z l') ∧
    (∀ l', packing S l' → sum_list_Z l' = sum_list_Z l → (length l ≤ length l')%nat).
Proof.
  intros Hp Hne Hpos Ha Hsent Halloc.
  destruct (NewCalculator_Done h p S Hp) as (q & Hq & EN).
  pose proof (sort_Ints_perm S) as Hperm.
  assert (∀ l, packing S l ↔ packing (sort_Ints S) l) as Hpack.
  { intros l. unfold packing. apply Forall_iff. intros s. by rewrite Hperm. }
  destruct (last (sort_Ints S)) as [largest|] eqn:Hlast.
  2:{ apply last_None in Hlast. rewrite Hlast in Hperm.
      symmetry in Hperm. by apply Permutation_nil_r in Hperm. }
  assert (largest ∈ S) as Hlin.
  { rewrite <- Hperm. apply last_Some in Hlast as [l' ->].
    apply elem_of_app. right. apply list_elem_of_here. }
  destruct (sort_Ints_head S Hne) as (smallest & rest & _ & Hsin & Hmin).
  pose proof (proj1 (Forall_forall _ _) Hpos smallest Hsin) as Hs1.
  pose proof (proj1 (Forall_forall _ _) Hsent smallest Hsin) as Hs2.
  pose proof (proj1 (Forall_forall _ _) Hpos largest Hlin) as Hl1.
  pose proof (proj1 (Forall_forall _ _) Halloc largest Hlin) as Hl2.
  simpl in Hs1, Hs2, Hl1, Hl2.
  assert (amount + 2 * largest <= MaxInt64) as Hfit
    by (unfold maxAlloc, MaxInt64 in *; lia).
  destruct (Calculate_on_least (sort_Ints S) amount largest) with (smallest := smallest)
    as (l & Hl & Hsum & Hlen & Hcalc & Hopt1 & Hopt2); try done.
  { by rewrite Hperm. }
  { by apply sort_Ints_largest. }
  { intros s Hs. apply Hmin. by rewrite <- Hperm. }
  exists (<[q := sort_Ints S]> h), {| packSizes := q |}, l.
  split; [done|]. split; [by apply Hpack|]. split; [done|]. split; [done|].
  split; [|split].
  - intros fuel Hfuel.
    assert (Calculate fuel {| packSizes := q |} amount (<[q:=sort_Ints S]> h) =
            Done (<[q:=sort_Ints S]> h, inl (tally l ∅, sum_list_Z l))) as EC.
    { unfold Calculate. simpl. rewrite lookup_insert_eq.
      by rewrite (Hcalc fuel Hfuel). }
    split; [done|]. unfold CalculateWithDetails. rewrite EC. simpl.
    rewrite count_packs_exact.
    + by rewrite packs_of_tally_empty.
    + intros s n. apply tally_nonneg.
    + rewrite packs_of_tally_empty. unfold maxAlloc, MaxInt64 in *. lia.
  - intros l' Hl'. apply Hopt1. by apply Hpack.
  - intros l' Hl'. apply Hopt2. by apply Hpack.
Qed.

(** ** The sentinel collides with a real pack count *)

Lemma packing_ones l : packing [1] l → sum_list_Z l = Z.of_nat (length l).
Proof.
  intros Hl. induction Hl as [|s l Hs _ IH]; [done|].
  apply list_elem_of_singleton in Hs as ->.
  simpl. fold (sum_list_Z l). lia.
Qed.

Lemma Calculate_on_ones fuel amount :
  MaxInt32 <= amount → 8 * (amount + 2) <= maxAlloc →
  Calculate_on fuel [1] amount = Done (inr ErrNoCombination).
Proof.
  intros Hbig Halloc.
  assert (amount + 2 <= MaxInt64) as Hfit by (unfold maxAlloc, MaxInt64 in *; lia).
  assert (Forall (λ s, 1 <= s) [1]) as Hpos by (by repeat constructor).
  assert (∀ s, s ∈ [1] → s <= 1) as Hmax.
  { intros s Hs. apply list_elem_of_singleton in Hs. lia. }
  destruct (solved_tables [1] amount 1 Hpos eq_refl Hmax) as (st & Hinv & ->).
  { unfold MaxInt32 in *. lia. } { lia. } { lia. }
  unfold finish.
  destruct (scan_spec (Z.to_nat (amount + 1 - amount + 1)) amount st.1) as (r & -> & Hr).
  { unfold MaxInt32 in *. lia. }
  { rewrite (inv_len_dp Hinv). lia. }
  destruct Hr as [[-> _]|(Hr1 & Hr2 & _)]; [done|].
  exfalso.
  assert (0 <= r <= amount + 1) as HrU by (unfold MaxInt32 in *; lia).
  pose proof (inv_range Hinv r HrU) as Hrr.
  assert (rd st.1 r < MaxInt32) as Hlt by lia.
  assert (∀ s, s ∈ [1] → amount + 1 + s <= MaxInt64) as HfitU.
  { intros s Hs. apply list_elem_of_singleton in Hs as ->. lia. }
  destruct (backtrack_Done [1] (amount + 1) Hpos HfitU st Hinv
              (Z.to_nat (rd st.1 r)) r)
    as (l & Hl & Hsum & Hlen & _); [lia..|].
  apply packing_ones in Hl. lia.
Qed.

(** * The claims *)

(** An amount below the sentinel needs fewer packs than the sentinel
    whatever the sizes. *)
Lemma below_sentinel S amount :
  Forall (λ s, 1 <= s) S → amount < MaxInt32 →
  Forall (λ s, amount <= s * (MaxInt32 - 1)) S.
Proof.
  intros Hpos Ha. eapply Forall_impl; [exact Hpos|].
  simpl. unfold MaxInt32 in *. intros s Hs. lia.
Qed.

(** C1 (amended).  For every amount [1 <= A <= 10000000] and every
    non-empty slice of positive pack sizes for which the two tables of
    [A + s + 1] cells are within what [make] allocates
    ([8 (A + s + 1) <= maxAlloc], that is sizes up to about 2^45),
    Calculate and CalculateWithDetails succeed and return a multiset [M]
    over S with every count at least 1, a total [T] and a pack count [P]
    such that [T = Σ s · M[s]], [P = Σ M[s]] and [T >= A]. *)
Theorem Calculate_meets_amount (h : heap) p S amount fuel :
  h !! p = Some S → S ≠ [] → Forall (λ s, 1 <= s) S →
  1 <= amount <= 10000000 →
  Forall (λ s, 8 * (amount + s + 1) <= maxAlloc) S →
  amount <= Z.of_nat fuel →
  ∃ h' c M T P,
    NewCalculator p h = Done (h', c) ∧
    Calculate fuel c amount h' = Done (h', inl (M, T)) ∧
    CalculateWithDetails fuel c amount h' = Done (h', inl (M, T, P)) ∧
    (∀ s n, M !! s = Some n → 1 <= n ∧ s ∈ S) ∧
    T = items_of M ∧ P = packs_of M ∧ amount <= T.
Proof.
  intros Hp Hne Hpos Ha Hfit Hfuel.
  destruct (solver_least h p S amount)
    as (h' & c & l & EN & Hl & Hsum & Hlen & Hcalc & _); try done; [lia| |].
  { apply below_sentinel; [done|]. unfold MaxInt32. lia. }
  destruct (Hcalc fuel ltac:(lia)) as [E1 E2].
  exists h', c, (tally l ∅), (sum_list_Z l), (Z.of_nat (length l)).
  split; [done|]. split; [done|]. split; [done|]. split.
  { intros s n Hs. by apply (tally_counts S l s n Hl). }
  by rewrite items_of_tally_empty, packs_of_tally_empty.
Qed.

Lemma Calculate_meets_amount_witness :
  ∃ h' c M T P,
    NewCalculator 1%positive {[1%positive := [500; 250]]} = Done (h', c) ∧
    Calculate 251 c 251 h' = Done (h', inl (M, T)) ∧
    CalculateWithDetails 251 c 251 h' = Done (h', inl (M, T, P)) ∧
    (∀ s n, M !! s = Some n → 1 <= n ∧ s ∈ [500; 250]) ∧
    T = items_of M ∧ P = packs_of M ∧ 251 <= T.
Proof.
  apply (Calculate_meets_amount {[1%positive := [500; 250]]} 1%positive [500; 250]).
  - reflexivity.
  - discriminate.
  - repeat constructor; lia.
  - lia.
  - unfold maxAlloc. repeat constructor; lia.
  - lia.
Defined.

(** C1 as stated fails for large positive pack sizes.  With a size near
    the top of the [int] range [amount + largest] wraps around and [make]
    panics on the negative length; with the size 2^45 nothing wraps, but
    the table of 2^45 + 2 cells is more than [make] allocates, and it
    panics all the same. *)
Lemma Calculate_huge_pack_panics :
  (∃ h' c,
     NewCalculator 1%positive {[1%positive := [9223372036854775807]]} = Done (h', c) ∧
     Calculate 1 c 1 h' = Panic) ∧
  (∃ h' c,
     NewCalculator 1%positive {[1%positive := [35184372088832]]} = Done (h', c) ∧
     Calculate 1 c 1 h' = Panic).
Proof. split; eexists _, _; split; reflexivity. Qed.

(** C2 (amended).  For every amount [A >= 1] and every non-empty slice
    of positive pack sizes such that the packs needed stay below the
    sentinel ([A <= s · 2147483646] for each size, as for every
    [A < 2147483647]) and the tables are within what [make] allocates,
    the pair (T, P) returned by the solver is lexicographically minimal:
    the returned multiset is a combination over S with total T and P
    packs, no non-negative integer combination over S has a total in
    [A, T-1], and no combination summing exactly to T uses fewer than P
    packs. *)
Theorem Calculate_lexicographically_least (h : heap) p S amount fuel :
  h !! p = Some S → S ≠ [] → Forall (λ s, 1 <= s) S →
  1 <= amount →
  Forall (λ s, amount <= s * (MaxInt32 - 1)) S →
  Forall (λ s, 8 * (amount + s + 1) <= maxAlloc) S →
  amount <= Z.of_nat fuel →
  ∃ h' c M T P,
    NewCalculator p h = Done (h', c) ∧
    CalculateWithDetails fuel c amount h' = Done (h', inl (M, T, P)) ∧
    combination S M ∧ items_of M = T ∧ packs_of M = P ∧ amount <= T ∧
    (∀ n, combination S n → ¬ (amount <= items_of n <= T - 1)) ∧
    (∀ n, combination S n → items_of n = T → P <= packs_of n).
Proof.
  intros Hp Hne Hpos Ha Hsent Hfit Hfuel.
  destruct (solver_least h p S amount)
    as (h' & c & l & EN & Hl & Hsum & Hlen & Hcalc & Hopt1 & Hopt2); try done.
  destruct (Hcalc fuel ltac:(lia)) as [_ E2].
  exists h', c, (tally l ∅), (sum_list_Z l), (Z.of_nat (length l)).
  split; [done|]. split; [done|]. split; [by apply tally_combination|].
  split; [apply items_of_tally_empty|]. split; [apply packs_of_tally_empty|].
  split; [done|]. split.
  - intros n Hn [H1 H2].
    destruct (packs_list_spec S n Hn) as (Hpk & Hs & _).
    pose proof (Hopt1 (packs_list n) Hpk). lia.
  - intros n Hn Hsum'.
    destruct (packs_list_spec S n Hn) as (Hpk & Hs & Hlen').
    pose proof (Hopt2 (packs_list n) Hpk). lia.
Qed.

Lemma Calculate_lexicographically_least_witness :
  ∃ h' c M T P,
    NewCalculator 1%positive {[1%positive := [500; 250]]} = Done (h', c) ∧
    CalculateWithDetails 501 c 501 h' = Done (h', inl (M, T, P)) ∧
    combination [500; 250] M ∧ items_of M = T ∧ packs_of M = P ∧ 501 <= T ∧
    (∀ n, combination [500; 250] n → ¬ (501 <= items_of n <= T - 1)) ∧
    (∀ n, combination [500; 250] n → items_of n = T → P <= packs_of n).
Proof.
  apply (Calculate_lexicographically_least {[1%positive := [500; 250]]} 1%positive).
  - reflexivity.
  - discriminate.
  - repeat constructor; lia.
  - lia.
  - unfold MaxInt32. repeat constructor; lia.
  - unfold maxAlloc. repeat constructor; lia.
  - lia.
Defined.

(** Packs of one item or of [big] items that stay below [big] are all
    of one item. *)
Lemma packing_one_or_big big l :
  1 <= big → packing [1; big] l → sum_list_Z l < big →
  sum_list_Z l = Z.of_nat (length l).
Proof.
  intros Hbig Hl. induction Hl as [|s l Hs Hl IH]; [done|].
  assert (Forall (λ s, 1 <= s) [1; big]) as Hpos by (repeat constructor; lia).
  pose proof (sum_list_Z_nonneg [1; big] l Hpos Hl) as Hnn.
  simpl sum_list_Z. fold (sum_list_Z l). simpl length. intros Hsum.
  apply elem_of_cons in Hs as [->|Hs].
  - rewrite IH by lia. lia.
  - apply list_elem_of_singleton in Hs as ->. lia.
Qed.

(** The amount 2147483647 over the sizes 1 and 2147483648: the cell
    of the amount holds the sentinel although 2147483647 packs of one item
    reach it, and the scan goes on to the next cell. *)
Lemma Calculate_on_sentinel_skips fuel :
  (1 ≤ fuel)%nat →
  Calculate_on fuel [1; 2147483648] 2147483647 =
    Done (inl ({[2147483648 := 1]}, 2147483648)).
Proof.
  intros Hfuel.
  assert (Forall (λ s, 1 <= s) [1; 2147483648]) as Hpos by (repeat constructor; lia).
  assert (∀ s, s ∈ [1; 2147483648] → s <= 2147483648) as Hmax.
  { intros s Hs. rewrite !elem_of_cons, elem_of_nil in Hs. lia. }
  destruct (solved_tables [1; 2147483648] 2147483647 2147483648 Hpos eq_refl Hmax)
    as (st & Hinv & ->).
  { lia. } { unfold MaxInt64. lia. } { unfold maxAlloc. lia. }
  set (U := 2147483647 + 2147483648) in *.
  assert (∀ s, s ∈ [1; 2147483648] → U + s <= MaxInt64) as HfitU.
  { intros s Hs. specialize (Hmax s Hs). unfold U, MaxInt64. lia. }
  (* the cell of the amount holds the sentinel *)
  assert (rd st.1 2147483647 = MaxInt32) as Hamount.
  { pose proof (inv_range Hinv 2147483647 ltac:(unfold U; lia)) as Hr.
    destruct (decide (rd st.1 2147483647 = MaxInt32)) as [?|Hne]; [done|].
    exfalso.
    destruct (backtrack_Done [1; 2147483648] U Hpos HfitU st Hinv
                (Z.to_nat (rd st.1 2147483647)) 2147483647)
      as (l & Hl & Hsum & Hlen & _); [unfold U; lia|lia|lia|].
    pose proof (packing_one_or_big 2147483648 l ltac:(lia) Hl ltac:(lia)) as E.
    unfold MaxInt32 in *. lia. }
  (* the next cell is reached by one pack *)
  assert (rd st.1 2147483648 = 1) as Hnext.
  { pose proof (inv_range Hinv 2147483648 ltac:(unfold U; lia)) as Hr.
    pose proof (dp_le_length [1; 2147483648] U Hpos st Hinv [2147483648]) as Hle.
    simpl in Hle. lapply Hle; [clear Hle; intros Hle|].
    2:{ repeat constructor. }
    specialize (Hle ltac:(unfold U; lia) ltac:(unfold MaxInt32; lia)).
    rewrite Z.add_0_r in Hle.
    destruct (decide (rd st.1 2147483648 = 0)) as [E0|?]; [|lia].
    exfalso.
    destruct (backtrack_Done [1; 2147483648] U Hpos HfitU st Hinv 0%nat 2147483648)
      as (l & _ & Hsum & Hlen & _); [unfold U; lia|done|unfold MaxInt32; lia|].
    destruct l; [simpl in Hsum; lia|done]. }
  unfold finish.
  destruct (scan_spec (Z.to_nat (U - 2147483647 + 1)) 2147483647 st.1) as (r & -> & Hr).
  { lia. } { rewrite (inv_len_dp Hinv). unfold U. lia. }
  assert (r = 2147483648) as ->.
  { destruct Hr as [[-> Hall]|(Hr1 & Hr2 & Hall)].
    - specialize (Hall 2147483648 ltac:(unfold U; lia)).
      unfold MaxInt32 in *. lia.
    - destruct (decide (r = 2147483647)) as [->|?]; [done|].
      destruct (decide (r <= 2147483648)) as [?|?]; [lia|].
      specialize (Hall 2147483648 ltac:(lia)). unfold MaxInt32 in *. lia. }
  cbn [run_bind]. change (2147483648 =? -1) with false. cbv iota.
  destruct (backtrack_Done [1; 2147483648] U Hpos HfitU st Hinv 1%nat 2147483648)
    as (l & Hl & Hsum & Hlen & Hback); [unfold U; lia|done|unfold MaxInt32; lia|].
  rewrite (Hback ∅ fuel Hfuel).
  2:{ intros s. rewrite lookup_empty. simpl. unfold MaxInt32. lia. }
  destruct l as [|x [|y l]]; try done.
  simpl in Hsum. assert (x = 2147483648) as -> by lia.
  unfold tally. simpl. by rewrite lookup_empty.
Qed.

(** C2 as stated fails: for the amount 2147483647 over the pack sizes 1
    and 2147483648 the solver returns the total 2147483648 in one pack,
    although 2147483647 packs of one item make the amount exactly.  That
    count is the number [math.MaxInt32], which marks a cell unreachable,
    so the cell of the amount is passed over. *)
Lemma Calculate_sentinel_total_not_least :
  ∃ h' c,
    NewCalculator 1%positive {[1%positive := [1; 2147483648]]} = Done (h', c) ∧
    CalculateWithDetails 1 c 2147483647 h' =
      Done (h', inl ({[2147483648 := 1]}, 2147483648, 1)) ∧
    combination [1; 2147483648] {[1 := 2147483647]} ∧
    2147483647 <= items_of {[1 := 2147483647]} <= 2147483648 - 1.
Proof.
  assert (({[1%positive := [1; 2147483648]]} : heap) !! 1%positive =
          Some [1; 2147483648]) as Hp by reflexivity.
  destruct (NewCalculator_Done _ _ _ Hp) as (q & _ & E).
  eexists _, _. split; [exact E|]. split; [|split].
  - unfold CalculateWithDetails, Calculate. cbn [packSizes].
    rewrite lookup_insert_eq. change (sort_Ints [1; 2147483648]) with [1; 2147483648].
    rewrite Calculate_on_sentinel_skips by lia. reflexivity.
  - intros s c Hs. apply lookup_singleton_Some in Hs as [<- <-].
    split; [apply list_elem_of_here|lia].
  - unfold items_of. rewrite map_fold_singleton. lia.
Qed.

(** C3 (amended).  Calculate returns the amount error when [A <= 0],
    whatever S; the no-pack-sizes error when S is empty and [A >= 1]; and
    for every [A >= 1] with S non-empty, all sizes at least 1, the packs
    needed below the sentinel ([A <= s · 2147483646] for each size, as
    for every [A < 2147483647]) and the tables within what [make]
    allocates, it returns a result and no error, so that the
    no-combination branch is not taken. *)
Theorem Calculate_fails_exactly_on_invalid (h : heap) p S :
  h !! p = Some S →
  ∃ h' c,
    NewCalculator p h = Done (h', c) ∧
    (∀ fuel amount, amount <= 0 →
       Calculate fuel c amount h' = Done (h', inr ErrAmount)) ∧
    (∀ fuel amount, 1 <= amount → S = [] →
       Calculate fuel c amount h' = Done (h', inr ErrNoPackSizes)) ∧
    (∀ fuel amount, 1 <= amount → S ≠ [] →
       Forall (λ s, 1 <= s) S →
       Forall (λ s, amount <= s * (MaxInt32 - 1)) S →
       Forall (λ s, 8 * (amount + s + 1) <= maxAlloc) S →
       amount <= Z.of_nat fuel →
       ∃ M T, Calculate fuel c amount h' = Done (h', inl (M, T))).
Proof.
  intros Hp. destruct (NewCalculator_Done h p S Hp) as (q & Hq & EN).
  eexists _, _. split; [exact EN|]. split; [|split].
  - intros fuel amount Ha. unfold Calculate, Calculate_on. cbn [packSizes].
    rewrite lookup_insert_eq.
    destruct (Z.leb_spec amount 0) as [_|?]; [done|lia].
  - intros fuel amount Ha ->. unfold Calculate, Calculate_on. cbn [packSizes].
    rewrite lookup_insert_eq.
    destruct (Z.leb_spec amount 0) as [?|_]; [lia|]. done.
  - intros fuel amount Ha Hne Hpos Hsent Hfit Hfuel.
    destruct (solver_least h p S amount)
      as (h' & c & l & EN' & _ & _ & _ & Hcalc & _); try done.
    rewrite EN in EN'. injection EN' as <- <-.
    destruct (Hcalc fuel ltac:(lia)) as [E1 _]. eauto.
Qed.

Lemma Calculate_fails_exactly_on_invalid_witness :
  (∃ h' c,
     NewCalculator 1%positive {[1%positive := []]} = Done (h', c) ∧
     Calculate 0 c (-100) h' = Done (h', inr ErrAmount) ∧
     Calculate 0 c 100 h' = Done (h', inr ErrNoPackSizes)) ∧
  (∃ h' c,
     NewCalculator 1%positive {[1%positive := [500; 250]]} = Done (h', c) ∧
     Calculate 251 c 0 h' = Done (h', inr ErrAmount) ∧
     ∃ M T, Calculate 251 c 251 h' = Done (h', inl (M, T))).
Proof.
  split.
  - destruct (Calculate_fails_exactly_on_invalid {[1%positive := []]} 1%positive [])
      as (h' & c & EN & H1 & H2 & _); [reflexivity|].
    exists h', c. split; [exact EN|]. split.
    + apply H1. lia.
    + apply H2; [lia|reflexivity].
  - destruct (Calculate_fails_exactly_on_invalid
                {[1%positive := [500; 250]]} 1%positive [500; 250])
      as (h' & c & EN & H1 & _ & H3); [reflexivity|].
    exists h', c. split; [exact EN|]. split.
    + apply H1. lia.
    + apply H3.
      * lia.
      * discriminate.
      * repeat constructor; lia.
      * unfold MaxInt32. repeat constructor; lia.
      * unfold maxAlloc. repeat constructor; lia.
      * lia.
Defined.

(** C3 as stated fails twice.  With S empty and the amount 0 both error
    clauses apply, and Calculate, which looks at the amount first,
    returns the amount error and not the no-pack-sizes one.  And the
    amount 2147483647 with the single pack size 1 is valid input, yet
    Calculate takes the no-combination branch. *)
Lemma Calculate_errors_not_as_stated :
  (∃ h' c,
     NewCalculator 1%positive {[1%positive := []]} = Done (h', c) ∧
     Calculate 0 c 0 h' = Done (h', inr ErrAmount)) ∧
  (∃ h' c,
     NewCalculator 1%positive {[1%positive := [1]]} = Done (h', c) ∧
     Calculate 0 c 2147483647 h' = Done (h', inr ErrNoCombination)).
Proof.
  split.
  - eexists _, _. split; reflexivity.
  - assert (({[1%positive := [1]]} : heap) !! 1%positive = Some [1]) as Hp
      by reflexivity.
    destruct (NewCalculator_Done _ _ _ Hp) as (q & _ & E).
    eexists _, _. split; [exact E|].
    unfold Calculate. cbn [packSizes].
    rewrite lookup_insert_eq. change (sort_Ints [1]) with [1].
    rewrite Calculate_on_ones; [done|by unfold MaxInt32|by unfold maxAlloc].
Qed.

(** C10.  NewCalculator and Calculate never change the caller's slice:
    NewCalculator sorts a copy held at a fresh location, every slice of
    the heap, the caller's included, is element for element as before,
    and it stays so through any number of calculations. *)
Theorem NewCalculator_keeps_caller_slice (h : heap) p S :
  h !! p = Some S →
  ∃ h' c,
    NewCalculator p h = Done (h', c) ∧
    h' !! p = Some S ∧
    (∀ q xs, h !! q = Some xs → h' !! q = Some xs) ∧
    h !! packSizes c = None ∧
    h' !! packSizes c = Some (sort_Ints S) ∧
    (∀ fuel amount h1 r, Calculate fuel c amount h' = Done (h1, r) → h1 = h') ∧
    (∀ fuel amounts h1, Calculate_all fuel c amounts h' = Done h1 → h1 !! p = Some S).
Proof.
  intros Hp. destruct (NewCalculator_Done h p S Hp) as (q & Hq & EN).
  assert (∀ r xs, h !! r = Some xs → <[q := sort_Ints S]> h !! r = Some xs) as Hkeep.
  { intros r xs Hr. rewrite lookup_insert_ne; [done|]. intros ->. congruence. }
  eexists _, _. split; [exact EN|]. cbn [packSizes].
  split; [by apply Hkeep|]. split; [done|]. split; [done|].
  split; [apply lookup_insert_eq|]. split.
  - intros fuel amount h1 r. apply Calculate_heap.
  - intros fuel amounts. unfold Calculate_all.
    generalize (<[q := sort_Ints S]> h) (Hkeep p S Hp).
    induction amounts as [|a amounts IH]; intros h0 Hh0 h1; simpl.
    + by intros [= <-].
    + destruct (Calculate fuel _ a h0) as [[h2 r]| |] eqn:E; simpl; try done.
      apply Calculate_heap in E as ->. by apply IH.
Qed.

Lemma NewCalculator_keeps_caller_slice_witness :
  ∃ h' c,
    NewCalculator 1%positive {[1%positive := [53; 23; 31]]} = Done (h', c) ∧
    h' !! 1%positive = Some [53; 23; 31] ∧
    (∀ q xs, ({[1%positive := [53; 23; 31]]} : heap) !! q = Some xs → h' !! q = Some xs) ∧
    ({[1%positive := [53; 23; 31]]} : heap) !! packSizes c = None ∧
    h' !! packSizes c = Some (sort_Ints [53; 23; 31]) ∧
    (∀ fuel amount h1 r, Calculate fuel c amount h' = Done (h1, r) → h1 = h') ∧
    (∀ fuel amounts h1, Calculate_all fuel c amounts h' = Done h1 →
       h1 !! 1%positive = Some [53; 23; 31]).
Proof.
  apply (NewCalculator_keeps_caller_slice {[1%positive := [53; 23; 31]]} 1%positive).
  reflexivity.
Defined.


(** ** The edge case of the requirements *)

Lemma count_of_nonneg s l : 0 <= count_of s l.
Proof. induction l as [|x l IH]; simpl; [lia|]. case_decide; lia. Qed.

Lemma tally_lookup_count l : ∀ (m : gmap Z Z) s,
  tally l m !! s =
    if decide (count_of s l = 0) then m !! s
    else Some (default 0 (m !! s) + count_of s l).
Proof.
  induction l as [|x l IH]; intros m s; [done|].
  change (tally (x :: l) m) with (tally l (<[x := default 0 (m !! x) + 1]> m)).
  rewrite IH. simpl count_of. pose proof (count_of_nonneg s l).
  destruct (decide (x = s)) as [->|Hne].
  - rewrite lookup_insert_eq. simpl.
    repeat case_decide; try lia; try done; f_equal; lia.
  - rewrite lookup_insert_ne by done.
    repeat case_decide; try lia; done.
Qed.

Lemma packing_three x y z l :
  x ≠ y → x ≠ z → y ≠ z → packing [x; y; z] l →
  sum_list_Z l = x * count_of x l + y * count_of y l + z * count_of z l ∧
  Z.of_nat (length l) = count_of x l + count_of y l + count_of z l ∧
  ∀ s, s ∉ [x; y; z] → count_of s l = 0.
Proof.
  intros Hxy Hxz Hyz Hl. induction Hl as [|s l Hs _ (IH1 & IH2 & IH3)].
  - simpl. split; [lia|]. split; [lia|]. done.
  - simpl sum_list_Z. fold (sum_list_Z l). simpl length. simpl count_of.
    split; [|split].
    + set_unfold in Hs. repeat case_decide; nia.
    + set_unfold in Hs. repeat case_decide; lia.
    + intros s' Hs'. rewrite (IH3 s' Hs'). case_decide; [|done].
      subst. done.
Qed.

Lemma edge_case_unique (a b c : Z) :
  0 <= a → 0 <= b → 0 <= c →
  23 * a + 31 * b + 53 * c = 500000 → a + b + c <= 9438 →
  a = 2 ∧ b = 7 ∧ c = 9429.
Proof.
  intros Ha Hb Hc Hsum Hn.
  assert (53 * (a + b + c) - 500000 = 30 * a + 22 * b) as E by lia.
  assert (a + b + c = 9434 ∨ a + b + c = 9435 ∨ a + b + c = 9436 ∨
          a + b + c = 9437 ∨ a + b + c = 9438) as Hcases by lia.
  destruct Hcases as [H|[H|[H|[H|H]]]]; rewrite H in E; lia.
Qed.

(** C8.  For the amount 500000 and the pack sizes 23, 31 and 53 the
    solver returns the total 500000, 9438 packs and the multiset
    {23: 2, 31: 7, 53: 9429}. *)
Theorem Calculate_edge_case (fuel : nat) :
  500000 <= Z.of_nat fuel →
  ∃ h' c,
    NewCalculator 1%positive {[1%positive := [23; 31; 53]]} = Done (h', c) ∧
    CalculateWithDetails fuel c 500000 h' =
      Done (h', inl ({[23 := 2; 31 := 7; 53 := 9429]}, 500000, 9438)).
Proof.
  intros Hfuel.
  destruct (solver_least {[1%positive := [23; 31; 53]]} 1%positive [23; 31; 53] 500000)
    as (h' & c & l & EN & Hl & Hsum & Hlen & Hcalc & Hopt1 & Hopt2).
  { reflexivity. } { discriminate. }
  { repeat constructor; lia. } { lia. }
  { unfold MaxInt32. repeat constructor; lia. }
  { unfold maxAlloc. repeat constructor; lia. }
  exists h', c. split; [done|].
  destruct (Hcalc fuel ltac:(lia)) as [_ ->].
  (* two packs of 23, seven of 31 and 9429 of 53 make exactly 500000 *)
  set (l0 := replicate 2 23 ++ replicate 7 31 ++ replicate (Z.to_nat 9429) 53).
  assert (packing [23; 31; 53] l0) as Hl0.
  { unfold l0, packing. rewrite !Forall_app.
    repeat split; apply Forall_replicate;
      repeat (apply list_elem_of_here || apply list_elem_of_further). }
  assert (sum_list_Z l0 = 500000 ∧ Z.of_nat (length l0) = 9438) as [Hsum0 Hlen0].
  { unfold l0. split.
    - rewrite !sum_list_Z_app, !sum_list_Z_replicate. lia.
    - rewrite !length_app, !length_replicate. lia. }
  pose proof (Hopt1 l0 Hl0) as H1. rewrite Hsum0 in H1.
  assert (sum_list_Z l = 500000) as HT by lia.
  pose proof (Hopt2 l0 Hl0) as H2. rewrite Hsum0, HT in H2. specialize (H2 eq_refl).
  destruct (packing_three 23 31 53 l) as (Hs & Hn & Hz); [done..|].
  destruct (edge_case_unique (count_of 23 l) (count_of 31 l) (count_of 53 l))
    as (Ha & Hb & Hc); [apply count_of_nonneg..|lia|lia|].
  rewrite HT. replace (Z.of_nat (length l)) with 9438 by lia.
  replace (tally l ∅) with ({[23 := 2; 31 := 7; 53 := 9429]} : gmap Z Z); [done|].
  apply map_eq. intros s. rewrite tally_lookup_count, lookup_empty.
  destruct (decide (s = 23)) as [->|N1]; [rewrite Ha; done|].
  destruct (decide (s = 31)) as [->|N2]; [rewrite Hb; done|].
  destruct (decide (s = 53)) as [->|N3]; [rewrite Hc; done|].
  rewrite Hz.
  2:{ rewrite !not_elem_of_cons. repeat split; [done..|apply not_elem_of_nil]. }
  simpl.
  by rewrite !lookup_insert_ne, lookup_singleton_ne by done.
Qed.

Lemma Calculate_edge_case_witness :
  ∃ h' c,
    NewCalculator 1%positive {[1%positive := [23; 31; 53]]} = Done (h', c) ∧
    CalculateWithDetails (Z.to_nat 500000) c 500000 h' =
      Done (h', inl ({[23 := 2; 31 := 7; 53 := 9429]}, 500000, 9438)).
Proof. apply (Calculate_edge_case (Z.to_nat 500000)). lia. Defined.

(** ** The recency chain *)

Import cache.

Lemma filter_other k (l : list string) : k ∉ l → filter (λ x, x ≠ k) l = l.
Proof.
  induction l as [|x l IH]; [done|]. intros [Hne Hk]%not_elem_of_cons.
  rewrite filter_cons, decide_True by done. by rewrite IH.
Qed.

Lemma removeNode_filter k l : NoDup l → removeNode k l = filter (λ x, x ≠ k) l.
Proof.
  induction 1 as [|x l Hx Hl IH]; [done|]. simpl.
  rewrite filter_cons. destruct (decide (x = k)) as [->|Hne].
  - rewrite decide_False by (intros ?; done).
    symmetry. by apply filter_other.
  - rewrite decide_True by done. by rewrite IH.
Qed.

Lemma moveToFront_touch k l :
  NoDup l → k ∈ l → moveToFront k l = k :: filter (λ x, x ≠ k) l.
Proof.
  intros Hl Hk. unfold moveToFront, addToFront.
  destruct l as [|x l]; [by apply elem_of_nil in Hk|].
  destruct (decide (x = k)) as [->|Hne].
  - rewrite filter_cons, decide_False by (intros ?; done).
    f_equal. symmetry. apply filter_other.
    by apply NoDup_cons in Hl as [Hx _].
  - by rewrite removeNode_filter.
Qed.

Lemma take_filter_touched k n (R : list string) :
  NoDup R → k ∈ take (S n) R →
  filter (λ x, x ≠ k) (take (S n) R) = take n (filter (λ x, x ≠ k) R).
Proof.
  revert n. induction R as [|x R IH]; intros n HR Hk; [by apply elem_of_nil in Hk|].
  apply NoDup_cons in HR as [Hx HR]. simpl in *.
  rewrite !filter_cons. destruct (decide (x = k)) as [->|Hne].
  - rewrite !decide_False by (intros ?; done).
    rewrite (filter_other k R) by done.
    apply filter_other. intros Hy. apply Hx. eapply subseteq_take, Hy.
  - rewrite !decide_True by done.
    apply elem_of_cons in Hk as [->|Hk]; [done|].
    destruct n as [|n]; [by apply elem_of_nil in Hk|].
    simpl. f_equal. by apply IH.
Qed.

Lemma take_filter_untouched k n (R : list string) :
  k ∉ take n R → take n (filter (λ x, x ≠ k) R) = take n R.
Proof.
  revert n. induction R as [|x R IH]; intros n Hk; [done|].
  destruct n as [|n]; [done|]. simpl in Hk.
  apply not_elem_of_cons in Hk as [Hne Hk].
  rewrite filter_cons, decide_True by done. simpl. f_equal. by apply IH.
Qed.

Lemma removelast_take n (R : list string) :
  (S n ≤ length R)%nat → removelast (take (S n) R) = take n R.
Proof.
  revert n. induction R as [|x R IH]; intros n Hn; simpl in *; [lia|].
  destruct n as [|n]; [by destruct R|].
  destruct R as [|y R]; simpl in *; [lia|].
  f_equal. apply (IH n). lia.
Qed.


Lemma touch_NoDup k (R : list string) :
  NoDup R → NoDup (k :: filter (λ x, x ≠ k) R).
Proof.
  intros HR. apply NoDup_cons. split.
  - rewrite list_elem_of_filter. intros [Hk _]. done.
  - by apply NoDup_filter.
Qed.

Lemma length_filter_other key (l : list string) :
  NoDup l → key ∈ l → S (length (filter (λ x, x ≠ key) l)) = length l.
Proof.
  induction 1 as [|x l Hx Hl IH]; intros Hk; [by apply elem_of_nil in Hk|].
  rewrite filter_cons. destruct (decide (x = key)) as [->|Hne].
  - rewrite decide_False by (intros ?; done). by rewrite filter_other.
  - rewrite decide_True by done. simpl. f_equal. apply IH.
    by apply elem_of_cons in Hk as [->|Hk].
Qed.

(** A hit or an update of a present key: the node moves to the front. *)
Lemma lru_inv_promote n c R key its hs ms :
  (1 ≤ n)%nat → lru_inv n c R → key ∈ chain c →
  (∀ k, is_Some (its !! k) ↔ is_Some (items c !! k)) →
  size its = size (items c) →
  lru_inv n {| items := its; chain := moveToFront key (chain c);
               maxSize := maxSize c; hits := hs; misses := ms |}
          (key :: filter (λ x, x ≠ key) R).
Proof.
  intros Hn [Hnd Hch Hit Hsz Hmax] Hkey Hdom Hsize.
  assert (NoDup (chain c)) as Hndc.
  { rewrite Hch. eapply sublist_NoDup; [done|apply sublist_take]. }
  destruct n as [|n]; [lia|].
  assert (moveToFront key (chain c) = take (S n) (key :: filter (λ x, x ≠ key) R)) as E.
  { rewrite moveToFront_touch by done. simpl. f_equal.
    rewrite Hch. apply take_filter_touched; [done|]. by rewrite <- Hch. }
  constructor; simpl.
  - by apply touch_NoDup.
  - done.
  - intros k. rewrite Hdom, Hit, moveToFront_touch by done.
    rewrite elem_of_cons, list_elem_of_filter.
    destruct (decide (k = key)) as [->|Hne]; intuition congruence.
  - rewrite Hsize, Hsz, moveToFront_touch by done. simpl.
    symmetry. by apply length_filter_other.
  - done.
Qed.

Lemma Get_lru_inv n c R key now :
  (1 ≤ n)%nat → lru_inv n c R →
  lru_inv n (Get key now c).1
    (match (Get key now c).2 with
     | Some _ => key :: filter (λ x, x ≠ key) R
     | None => R
     end).
Proof.
  intros Hn Hinv. unfold Get.
  destruct (items c !! key) as [item|] eqn:E.
  - destruct (now >? expiration item); simpl.
    + by destruct Hinv.
    + apply lru_inv_promote; try done.
      apply (lru_items _ _ _ Hinv). by rewrite E.
  - simpl. by destruct Hinv.
Qed.

Lemma Set_lru_inv n c R key packs total ttl now :
  (1 ≤ n)%nat → lru_inv n c R →
  lru_inv n (Set_ key packs total ttl now c) (key :: filter (λ x, x ≠ key) R).
Proof.
  intros Hn Hinv. unfold Set_.
  destruct (items c !! key) as [item|] eqn:E.
  - apply lru_inv_promote; try done.
    + apply (lru_items _ _ _ Hinv). by rewrite E.
    + intros k. destruct (decide (key = k)) as [<-|Hne].
      * rewrite lookup_insert_eq, E. split; eauto.
      * by rewrite lookup_insert_ne.
    + rewrite map_size_insert_Some; [done|by rewrite E].
  - destruct Hinv as [Hnd Hch Hit Hsz Hmax].
    assert (key ∉ chain c) as Hkey.
    { rewrite <- Hit, E. by intros [? ?]. }
    assert (NoDup (chain c)) as Hndc.
    { rewrite Hch. eapply sublist_NoDup; [done|apply sublist_take]. }
    destruct n as [|n]; [lia|].
    pose proof (length_take R (S n)) as Hlt.
    destruct (Z.geb_spec (Z.of_nat (size (items c))) (maxSize c)) as [Hfull|Hroom].
    + (* at capacity: the tail goes *)
      assert (length (chain c) = S n ∧ (S n ≤ length R)%nat) as [Hlen HlenR].
      { rewrite Hch in Hsz |- *. lia. }
      unfold evictLRU.
      destruct (last (chain c)) as [kl|] eqn:El.
      2:{ apply last_None in El. rewrite El in Hlen. done. }
      apply last_Some in El as [l' El].
      assert (l' = take n R) as Hl'.
      { rewrite <- (removelast_take n R HlenR), <- Hch, El.
        symmetry. apply removelast_last. }
      assert (removelast (chain c) = l') as Hrl.
      { rewrite El. apply removelast_last. }
      rewrite El in Hkey, Hndc, Hlen.
      apply NoDup_app in Hndc as (Hndl & Hkl & _).
      apply not_elem_of_app in Hkey as [Hkey1 Hkey2].
      constructor; simpl.
      * by apply touch_NoDup.
      * unfold addToFront. rewrite Hrl, Hl'. f_equal. symmetry.
        apply take_filter_untouched. by rewrite <- Hl'.
      * intros k. unfold addToFront. rewrite Hrl, elem_of_cons.
        destruct (decide (key = k)) as [<-|Hne].
        { rewrite lookup_insert_eq. split; eauto. }
        rewrite lookup_insert_ne by done.
        destruct (decide (kl = k)) as [<-|Hne'].
        { rewrite lookup_delete_eq. split.
          - by intros [? ?].
          - intros [?|Hin]; [done|]. exfalso. apply (Hkl kl Hin), list_elem_of_here. }
        rewrite lookup_delete_ne by done. rewrite Hit, El, elem_of_app.
        rewrite list_elem_of_singleton. intuition congruence.
      * unfold addToFront. rewrite Hrl.
        rewrite map_size_insert_None.
        2:{ rewrite lookup_delete_ne; [done|]. intros ->.
            apply Hkey2, list_elem_of_here. }
        rewrite map_size_delete_Some.
        2:{ apply Hit. rewrite El. apply elem_of_app. right. apply list_elem_of_here. }
        rewrite El, length_app in Hsz. simpl in Hsz. lia.
      * done.
    + (* room left *)
      assert (length R ≤ n)%nat as HlenR.
      { rewrite Hch in Hsz. lia. }
      assert (chain c = R) as HchR.
      { rewrite Hch. apply take_ge. lia. }
      constructor; simpl.
      * by apply touch_NoDup.
      * unfold addToFront. rewrite HchR. f_equal.
        rewrite filter_other by (by rewrite <- HchR).
        symmetry. apply take_ge. lia.
      * intros k. unfold addToFront. rewrite elem_of_cons.
        destruct (decide (key = k)) as [<-|Hne].
        { rewrite lookup_insert_eq. split; eauto. }
        rewrite lookup_insert_ne by done. rewrite Hit. intuition congruence.
      * unfold addToFront. rewrite map_size_insert_None by done. simpl. lia.
      * done.
Qed.

Lemma recency_run c ops :
  (foldl recency_step (c, []) ops).1 = run_ops c ops.
Proof.
  unfold run_ops. generalize (@nil string).
  revert c. induction ops as [|o ops IH]; intros c R; [done|].
  simpl. apply IH.
Qed.

Lemma run_ops_lru_inv n C ops :
  (1 ≤ n)%nat → C = Z.of_nat n →
  lru_inv n (run_ops (NewMemoryCache C) ops) (recency (NewMemoryCache C) ops).
Proof.
  intros Hn ->. unfold recency. rewrite <- recency_run.
  induction ops as [|o ops IH] using rev_ind.
  - simpl. constructor; simpl; try done.
    + constructor.
    + by rewrite take_nil.
    + intros k. rewrite lookup_empty. split; [by intros [? ?]|].
      intros H. by apply elem_of_nil in H.
  - rewrite foldl_snoc.
    destruct (foldl recency_step _ ops) as [c R]. simpl in *.
    destruct o as [key now|key packs total ttl now|]; simpl.
    + pose proof (Get_lru_inv n c R key now Hn IH) as H.
      by destruct ((Get key now c).2).
    + by apply Set_lru_inv.
    + constructor; simpl; try done.
      * constructor.
      * by rewrite take_nil.
      * intros k. rewrite lookup_empty. split; [by intros [? ?]|].
        intros H. by apply elem_of_nil in H.
      * by destruct IH.
Qed.

Lemma recency_snoc c ops o :
  recency c (ops ++ [o]) =
    match o with
    | OpClear => []
    | _ => match touched (run_ops c ops) o with
           | Some key => key :: filter (λ k, k ≠ key) (recency c ops)
           | None => recency c ops
           end
    end.
Proof.
  unfold recency. rewrite foldl_snoc. unfold recency_step at 1.
  cbn [snd]. by rewrite recency_run.
Qed.

Lemma recency_set_each c entry keys :
  NoDup keys → recency c (set_each entry keys) = reverse keys.
Proof.
  induction keys as [|key keys IH] using rev_ind; intros Hnd; [done|].
  apply NoDup_app in Hnd as (Hnd & Hne & _).
  unfold set_each in *. rewrite fmap_app. simpl.
  rewrite recency_snoc. destruct (entry key) as [[[packs total] ttl] now]. simpl.
  rewrite IH by done. rewrite reverse_snoc. f_equal.
  apply filter_other. rewrite elem_of_reverse. intros Hk.
  apply (Hne key Hk), list_elem_of_here.
Qed.

(** C5 (amended).  On a MemoryCache of capacity [C >= 1], after every
    sequence of Get and Set operations the cache holds at most C entries,
    and the keys present are exactly the C most recently touched ones
    (touched by a Get that hits or by a Set), chained from the latest to
    the earliest; every key touched earlier is gone.  In particular after
    N Set operations with distinct keys the last C of them are present
    and all earlier ones absent. *)
Theorem MemoryCache_capacity_bound (C : Z) :
  1 <= C →
  (∀ ops,
     let c := run_ops (NewMemoryCache C) ops in
     let R := recency (NewMemoryCache C) ops in
     Z.of_nat (size (items c)) <= C ∧
     chain c = take (Z.to_nat C) R ∧
     ∀ key, is_Some (items c !! key) ↔ key ∈ take (Z.to_nat C) R) ∧
  (∀ entry keys, NoDup keys →
     let c := run_ops (NewMemoryCache C) (set_each entry keys) in
     Z.of_nat (size (items c)) <= C ∧
     ∀ key, is_Some (items c !! key) ↔ key ∈ take (Z.to_nat C) (reverse keys)).
Proof.
  intros HC.
  assert (∀ ops,
     let c := run_ops (NewMemoryCache C) ops in
     let R := recency (NewMemoryCache C) ops in
     Z.of_nat (size (items c)) <= C ∧
     chain c = take (Z.to_nat C) R ∧
     ∀ key, is_Some (items c !! key) ↔ key ∈ take (Z.to_nat C) R) as Hgen.
  { intros ops c R.
    destruct (run_ops_lru_inv (Z.to_nat C) C ops) as [Hnd Hch Hit Hsz Hmax]; [lia..|].
    fold c in Hch, Hit, Hsz. fold R in Hch.
    split; [|split].
    - rewrite Hsz, Hch, length_take. lia.
    - done.
    - intros key. by rewrite Hit, Hch. }
  split; [done|].
  intros entry keys Hnd c. destruct (Hgen (set_each entry keys)) as (H1 & _ & H3).
  rewrite recency_set_each in H3 by done. done.
Qed.

Lemma MemoryCache_capacity_bound_witness :
  (∀ ops,
     let c := run_ops (NewMemoryCache 2) ops in
     let R := recency (NewMemoryCache 2) ops in
     Z.of_nat (size (items c)) <= 2 ∧
     chain c = take (Z.to_nat 2) R ∧
     ∀ key, is_Some (items c !! key) ↔ key ∈ take (Z.to_nat 2) R) ∧
  (∀ entry keys, NoDup keys →
     let c := run_ops (NewMemoryCache 2) (set_each entry keys) in
     Z.of_nat (size (items c)) <= 2 ∧
     ∀ key, is_Some (items c !! key) ↔ key ∈ take (Z.to_nat 2) (reverse keys)).
Proof. apply (MemoryCache_capacity_bound 2). lia. Defined.

(** C5 as stated fails for the capacity 0: evictLRU finds no tail to
    drop, the entry is added all the same and the cache holds one entry. *)
Lemma MemoryCache_capacity_zero_holds_one :
  Z.of_nat (size (items (run_ops (NewMemoryCache 0) [OpSet "calc:1:250" ∅ 250 0 0]))) = 1.
Proof. reflexivity. Qed.

(** ** The counters *)

Lemma gets_since_clear_snoc ops o :
  gets_since_clear (ops ++ [o]) =
    match o with
    | OpGet _ _ => gets_since_clear ops + 1
    | OpSet _ _ _ _ _ => gets_since_clear ops
    | OpClear => 0
    end.
Proof. unfold gets_since_clear. by rewrite foldl_snoc. Qed.

Lemma gets_since_clear_bound ops :
  0 <= gets_since_clear ops <= Z.of_nat (length ops).
Proof.
  induction ops as [|o ops IH] using rev_ind; [done|].
  rewrite gets_since_clear_snoc, length_app. simpl. destruct o; lia.
Qed.

Lemma run_op_counters c o :
  0 <= hits c → 0 <= misses c → hits c + misses c < MaxInt64 →
  match o with
  | OpGet _ _ =>
      (hits (run_op c o) = hits c + 1 ∧ misses (run_op c o) = misses c) ∨
      (hits (run_op c o) = hits c ∧ misses (run_op c o) = misses c + 1)
  | OpSet _ _ _ _ _ =>
      hits (run_op c o) = hits c ∧ misses (run_op c o) = misses c
  | OpClear => hits (run_op c o) = 0 ∧ misses (run_op c o) = 0
  end.
Proof.
  intros Hh Hm Hb.
  assert (add64 (hits c) 1 = hits c + 1) as Eh.
  { apply add64_id. unfold in_int64, MinInt64, MaxInt64 in *. lia. }
  assert (add64 (misses c) 1 = misses c + 1) as Em.
  { apply add64_id. unfold in_int64, MinInt64, MaxInt64 in *. lia. }
  destruct o as [key now|key packs total ttl now|]; simpl.
  - unfold Get. destruct (items c !! key) as [item|].
    + destruct (now >? expiration item); simpl; [right|left]; done.
    + simpl. by right.
  - unfold Set_. destruct (items c !! key); [done|].
    destruct (_ >=? _); [|done]. unfold evictLRU. by destruct (last _).
  - done.
Qed.

Lemma run_ops_counters C ops :
  Z.of_nat (length ops) <= MaxInt64 →
  let c := run_ops (NewMemoryCache C) ops in
  0 <= hits c ∧ 0 <= misses c ∧ hits c + misses c = gets_since_clear ops.
Proof.
  induction ops as [|o ops IH] using rev_ind; intros Hlen; [done|].
  rewrite length_app in Hlen. simpl in Hlen.
  destruct IH as (Hh & Hm & Hsum); [lia|].
  unfold run_ops in *. rewrite foldl_snoc, gets_since_clear_snoc. cbv zeta.
  pose proof (gets_since_clear_bound ops).
  pose proof (run_op_counters (foldl run_op (NewMemoryCache C) ops) o Hh Hm) as Hstep.
  lapply Hstep; [clear Hstep; intros Hstep|lia].
  destruct o; lia.
Qed.

(** C6 (amended).  Across every sequence of cache operations of fewer
    than 2^63 steps, each Get adds one to exactly one of the two counters,
    a Set leaves both as they are (so the counters do not decrease across
    Get and Set), Clear sets both to zero, and hits + misses is the number
    of Get operations completed since the last Clear. *)
Theorem counters_track_gets (C : Z) (ops : list cache_op) :
  Z.of_nat (length ops) < MaxInt64 →
  let c := run_ops (NewMemoryCache C) ops in
  0 <= hits c ∧ 0 <= misses c ∧
  hits c + misses c = gets_since_clear ops ∧
  ∀ o, match o with
       | OpGet _ _ =>
           (hits (run_op c o) = hits c + 1 ∧ misses (run_op c o) = misses c) ∨
           (hits (run_op c o) = hits c ∧ misses (run_op c o) = misses c + 1)
       | OpSet _ _ _ _ _ =>
           hits (run_op c o) = hits c ∧ misses (run_op c o) = misses c
       | OpClear => hits (run_op c o) = 0 ∧ misses (run_op c o) = 0
       end.
Proof.
  intros Hlen c.
  destruct (run_ops_counters C ops) as (Hh & Hm & Hsum); [lia|].
  fold c in Hh, Hm, Hsum.
  split; [done|]. split; [done|]. split; [done|].
  intros o. apply run_op_counters; try done.
  pose proof (gets_since_clear_bound ops). lia.
Qed.

Lemma counters_track_gets_witness :
  let ops := [OpSet "a" ∅ 250 handlers.Hour 0; OpGet "a" 1; OpGet "b" 2] in
  let c := run_ops (NewMemoryCache 2) ops in
  0 <= hits c ∧ 0 <= misses c ∧
  hits c + misses c = gets_since_clear ops ∧
  ∀ o, match o with
       | OpGet _ _ =>
           (hits (run_op c o) = hits c + 1 ∧ misses (run_op c o) = misses c) ∨
           (hits (run_op c o) = hits c ∧ misses (run_op c o) = misses c + 1)
       | OpSet _ _ _ _ _ =>
           hits (run_op c o) = hits c ∧ misses (run_op c o) = misses c
       | OpClear => hits (run_op c o) = 0 ∧ misses (run_op c o) = 0
       end.
Proof.
  apply (counters_track_gets 2 [OpSet "a" ∅ 250 handlers.Hour 0; OpGet "a" 1; OpGet "b" 2]).
  unfold MaxInt64. simpl. lia.
Defined.

(** C6 as stated fails: Clear takes the counters back to zero, so the
    miss counter decreases and hits + misses falls behind the number of
    completed Get operations. *)
Lemma Clear_resets_counters :
  misses (run_ops (NewMemoryCache 2) [OpGet "a" 0]) = 1 ∧
  misses (run_ops (NewMemoryCache 2) [OpGet "a" 0; OpClear]) = 0 ∧
  hits (run_ops (NewMemoryCache 2) [OpGet "a" 0; OpClear]) = 0.
Proof. repeat split; reflexivity. Qed.

(** ** Cache keys *)

Import strconv.

Lemma append_cons x (a b : string) : String x a +:+ b = String x (a +:+ b).
Proof. done. Qed.

Lemma append_nil_l (a : string) : EmptyString +:+ a = a.
Proof. done. Qed.

Lemma append_assoc (a b c : string) : (a +:+ b) +:+ c = a +:+ (b +:+ c).
Proof.
  induction a as [|x a IH]; [done|]. rewrite !append_cons. by f_equal.
Qed.

Lemma append_nil_r (a : string) : a +:+ EmptyString = a.
Proof. induction a as [|x a IH]; [done|]. rewrite append_cons. by f_equal. Qed.

Lemma has_char_append c (a b : string) :
  has_char c (a +:+ b) ↔ has_char c a ∨ has_char c b.
Proof.
  induction a as [|x a IH].
  - rewrite append_nil_l. simpl. tauto.
  - rewrite append_cons. simpl. rewrite IH. tauto.
Qed.

(** Two texts cut at the first occurrence of a separator. *)
Lemma append_sep_inj sep (a a' r r' : string) :
  ¬ has_char sep a → ¬ has_char sep a' →
  a +:+ String sep r = a' +:+ String sep r' → a = a' ∧ r = r'.
Proof.
  revert a'. induction a as [|x a IH]; intros [|x' a'] Ha Ha';
    rewrite ?append_cons, ?append_nil_l; simpl in *.
  - by intros [= ->].
  - intros [= <- _]. tauto.
  - intros [= -> _]. tauto.
  - intros [= -> H]. destruct (IH a') as [-> ->]; tauto || done.
Qed.

Lemma pretty_N_char_digit d c :
  c = pretty_N_char d → c ≠ ":"%char ∧ c ≠ ","%char ∧ c ≠ "-"%char.
Proof. intros ->. unfold pretty_N_char. repeat case_match; done. Qed.

Lemma pretty_N_go_chars x : ∀ s c,
  has_char c (pretty_N_go x s) → has_char c s ∨ ∃ d, c = pretty_N_char d.
Proof.
  induction (N.lt_wf_0 x) as [x _ IH]. intros s c.
  assert (x = 0 ∨ 0 < x)%N as [->|Hx] by lia.
  - rewrite pretty_N_go_0. by left.
  - rewrite pretty_N_go_step by done. intros H.
    apply IH in H; [|by apply N.div_lt].
    destruct H as [[<-|H]|H]; eauto.
Qed.

Lemma pretty_N_go_length x : ∀ s,
  (String.length s ≤ String.length (pretty_N_go x s))%nat ∧
  ((0 < x)%N → (String.length s < String.length (pretty_N_go x s))%nat).
Proof.
  induction (N.lt_wf_0 x) as [x _ IH]. intros s.
  assert (x = 0 ∨ 0 < x)%N as [->|Hx] by lia.
  - rewrite pretty_N_go_0. split; lia.
  - rewrite pretty_N_go_step by done.
    destruct (IH (x `div` 10)%N) with (s := String (pretty_N_char (x `mod` 10)) s)
      as [H _]; [by apply N.div_lt|].
    simpl in H. split; lia.
Qed.

Lemma Itoa_chars i c :
  has_char c (Itoa i) → c ≠ ":"%char ∧ c ≠ ","%char.
Proof.
  assert (∀ p, has_char c (pretty (N.pos p)) → c ≠ ":"%char ∧ c ≠ ","%char) as Hp.
  { intros p. unfold pretty, pretty_N. rewrite decide_False by done.
    intros [[]|[d Hd]]%pretty_N_go_chars.
    by destruct (pretty_N_char_digit d c Hd) as (? & ? & ?). }
  destruct i as [|p|p].
  - simpl. intros [<-|[]]. done.
  - exact (Hp p).
  - change (Itoa (Z.neg p)) with (String "-" (pretty (N.pos p))).
    cbn [has_char]. intros [<-|H]; [done|exact (Hp p H)].
Qed.

Lemma Itoa_nonempty i : Itoa i ≠ EmptyString.
Proof.
  assert (∀ p, pretty (N.pos p) ≠ EmptyString) as Hp.
  { intros p. unfold pretty, pretty_N. rewrite decide_False by done.
    destruct (pretty_N_go_length (N.pos p) EmptyString) as [_ H].
    intros E. rewrite E in H. simpl in H. lia. }
  destruct i as [|p|p]; [done|exact (Hp p)|done].
Qed.

Lemma Itoa_inj i j : Itoa i = Itoa j → i = j.
Proof. apply pretty_Z_inj. Qed.

Lemma joined_cons size rest :
  joined (size :: rest) =
    Itoa size +:+ match rest with [] => EmptyString | _ => "," +:+ joined rest end.
Proof. destruct rest; simpl; by rewrite ?append_nil_r. Qed.

(** The loop appends the joined sizes to the text built so far, after a
    comma when it is not at the first size. *)
Lemma write_sizes_joined packSizes : ∀ i b,
  write_sizes i b packSizes =
    b +:+ match packSizes with
          | [] => EmptyString
          | _ => if (0 <? i)%nat then "," +:+ joined packSizes else joined packSizes
          end.
Proof.
  induction packSizes as [|size rest IH]; intros i b.
  - by rewrite append_nil_r.
  - cbn [write_sizes]. rewrite IH.
    destruct i as [|i], rest as [|size' rest']; cbn [Nat.ltb Nat.leb];
      rewrite ?joined_cons, ?append_nil_r, ?append_assoc; done.
Qed.

Lemma GenerateCacheKey_joined amount packSizes :
  GenerateCacheKey amount packSizes =
    "calc:" +:+ Itoa amount +:+ ":" +:+ joined packSizes.
Proof.
  unfold GenerateCacheKey. rewrite write_sizes_joined. cbn [Nat.ltb Nat.leb].
  destruct packSizes; simpl; by rewrite ?append_nil_r, ?append_assoc.
Qed.


Lemma joined_inj S1 : ∀ S2, joined S1 = joined S2 → S1 = S2.
Proof.
  induction S1 as [|s1 r1 IH]; intros [|s2 r2].
  - done.
  - rewrite joined_cons. simpl. intros E. symmetry in E.
    destruct (Itoa s2) eqn:E2; [by apply Itoa_nonempty in E2|].
    by rewrite append_cons in E.
  - rewrite joined_cons. simpl. intros E.
    destruct (Itoa s1) eqn:E1; [by apply Itoa_nonempty in E1|].
    by rewrite append_cons in E.
  - rewrite !joined_cons. intros E.
    assert (¬ has_char "," (Itoa s1)) as H1.
    { intros H. by destruct (Itoa_chars _ _ H). }
    assert (¬ has_char "," (Itoa s2)) as H2.
    { intros H. by destruct (Itoa_chars _ _ H). }
    destruct r1 as [|x1 r1'], r2 as [|x2 r2'].
    + rewrite !append_nil_r in E. by apply Itoa_inj in E as ->.
    + exfalso. apply H1. rewrite append_nil_r in E. rewrite E.
      apply has_char_append. right. simpl. by left.
    + exfalso. apply H2. rewrite append_nil_r in E. rewrite <- E.
      apply has_char_append. right. simpl. by left.
    + rewrite !(append_cons _ EmptyString _), !append_nil_l in E.
      apply append_sep_inj in E as [E1 E2]; [|done..].
      apply Itoa_inj in E1 as ->. by rewrite (IH _ E2).
Qed.

Lemma GenerateCacheKey_inj amount1 S1 amount2 S2 :
  GenerateCacheKey amount1 S1 = GenerateCacheKey amount2 S2 →
  amount1 = amount2 ∧ S1 = S2.
Proof.
  rewrite !GenerateCacheKey_joined. intros E.
  rewrite !append_cons, !append_nil_l in E. injection E as E.
  apply append_sep_inj in E as [E1 E2].
  - split; [by apply Itoa_inj|by apply joined_inj].
  - intros H. by destruct (Itoa_chars _ _ H).
  - intros H. by destruct (Itoa_chars _ _ H).
Qed.

(** C4 (amended).  GenerateCacheKey writes the pack sizes in the order
    given.  For every amount and every two lists of pack sizes that are
    permutations of each other and both in ascending order (as the store
    hands them out), it produces the same key; and for every two inputs
    that differ in the amount or in the pack sizes as a set, it produces
    different keys: equal keys come from equal amounts and equal lists. *)
Theorem GenerateCacheKey_canonical_on_sorted :
  (∀ amount S1 S2,
     S1 ≡ₚ S2 → Sorted Z.le S1 → Sorted Z.le S2 →
     GenerateCacheKey amount S1 = GenerateCacheKey amount S2) ∧
  (∀ amount1 S1 amount2 S2,
     amount1 ≠ amount2 ∨ list_to_set S1 ≠@{gset Z} list_to_set S2 →
     GenerateCacheKey amount1 S1 ≠ GenerateCacheKey amount2 S2) ∧
  (∀ amount1 S1 amount2 S2,
     GenerateCacheKey amount1 S1 = GenerateCacheKey amount2 S2 →
     amount1 = amount2 ∧ S1 = S2).
Proof.
  split; [|split].
  - intros amount S1 S2 Hperm Hs1 Hs2.
    by rewrite (Sorted_unique Z.le S1 S2 Hs1 Hs2 Hperm).
  - intros amount1 S1 amount2 S2 Hdiff E.
    apply GenerateCacheKey_inj in E as [-> ->]. by destruct Hdiff.
  - apply GenerateCacheKey_inj.
Qed.

(** C4 as stated fails: the sizes 250, 500 and 500, 250 are permutations
    of each other and yield different keys. *)
Lemma GenerateCacheKey_keeps_order :
  [250; 500] ≡ₚ [500; 250] ∧
  GenerateCacheKey 1 [250; 500] = "calc:1:250,500" ∧
  GenerateCacheKey 1 [500; 250] = "calc:1:500,250" ∧
  GenerateCacheKey 1 [250; 500] ≠ GenerateCacheKey 1 [500; 250].
Proof.
  split; [apply Permutation_swap|].
  split; [reflexivity|]. split; [reflexivity|].
  intros E. by apply GenerateCacheKey_inj in E as [_ [=]].
Qed.

(** C4 at concrete inputs: the sizes as the store returns them give one
    key, and another amount gives another key. *)
Lemma GenerateCacheKey_canonical_on_sorted_witness :
  GenerateCacheKey 251 (sort_Ints [500; 250]) = GenerateCacheKey 251 [250; 500] ∧
  GenerateCacheKey 251 [250; 500] ≠ GenerateCacheKey 501 [250; 500].
Proof.
  destruct GenerateCacheKey_canonical_on_sorted as (Hsame & Hdiff & _).
  split.
  - apply Hsame.
    + reflexivity.
    + apply Sorted_merge_sort. apply _.
    + repeat constructor; lia.
  - apply Hdiff. left. lia.
Defined.

(** ** The handlers *)

Import handlers.

Lemma Cache_Get_cleared key now c :
  (Cache_Get key now (Cache_Clear c)).2 = None ∧
  Hits (Cache_Stats (Cache_Get key now (Cache_Clear c)).1) = 0.
Proof. destruct c as [m|]; [|done]. unfold Cache_Clear, Cache_Get, Get. simpl. done. Qed.

Lemma Cache_Set_Hits key packs total ttl now c :
  Hits (Cache_Stats (Cache_Set key packs total ttl now c)) = Hits (Cache_Stats c).
Proof.
  destruct c as [m|]; [|done]. simpl. unfold Set_.
  destruct (items m !! key); [done|].
  destruct (_ >=? _); [|done]. unfold evictLRU. by destruct (last _).
Qed.

Lemma Cache_Clear_Hits c : Hits (Cache_Stats (Cache_Clear c)) = 0.
Proof. by destruct c. Qed.

Lemma AddPackSize_created {DB} method size (h h' : Handler DB) resp :
  AddPackSize method size h = (h', resp) → status resp = 201 →
  cache h' = Cache_Clear (cache h).
Proof.
  unfold AddPackSize, respondJSON.
  destruct (negb _); [by intros [= <- <-]|].
  destruct size as [size|]; [|by intros [= <- <-]].
  destruct (size <? 1); [by intros [= <- <-]|].
  destruct (repository.PackSizeExists _ _ _) as [[|]|]; try by intros [= <- <-].
  destruct (repository.AddPackSize _ _ _); by intros [= <- <-].
Qed.

Lemma DeletePackSize_ok {DB} method parts (h h' : Handler DB) resp :
  DeletePackSize method parts h = (h', resp) → status resp = 200 →
  cache h' = Cache_Clear (cache h).
Proof.
  unfold DeletePackSize, respondJSON.
  destruct (negb _); [by intros [= <- <-]|].
  destruct (_ <? _)%nat; [by intros [= <- <-]|].
  destruct (Atoi _); [|by intros [= <- <-]].
  destruct (repository.DeletePackSize _ _ _); by intros [= <- <-].
Qed.

Global Instance Done_inj {A} : Inj (=) (=) (@Done A).
Proof. by intros x y [= ->]. Qed.

Lemma CalculatePacks_after_clear {DB} fuel method amount now later
    (h h' : Handler DB) resp :
  Hits (Cache_Stats (cache h)) = 0 →
  (∀ key, (Cache_Get key now (cache h)).2 = None ∧
          Hits (Cache_Stats (Cache_Get key now (cache h)).1) = 0) →
  CalculatePacks fuel method amount now later h = Done (h', resp) →
  Hits (Cache_Stats (cache h')) = 0.
Proof.
  intros H0 Hmiss. unfold CalculatePacks, respondJSON.
  destruct (negb _); [by intros [= <- <-]%(inj Done)|].
  destruct amount as [amount|]; [|by intros [= <- <-]%(inj Done)].
  destruct (amount <? 1); [by intros [= <- <-]%(inj Done)|].
  destruct (amount >? maxAmount); [by intros [= <- <-]%(inj Done)|].
  destruct (repository.GetPackSizesAsSlice _ _) as [packSizes|]; [|by intros [= <- <-]%(inj Done)].
  destruct (length packSizes =? 0)%nat; [by intros [= <- <-]%(inj Done)|].
  destruct (Hmiss (GenerateCacheKey amount packSizes)) as [Hnone Hhits].
  destruct (Cache_Get _ now (cache h)) as [cache' found].
  cbn [fst snd] in Hnone, Hhits. subst found. cbv beta iota.
  destruct (alloc ∅ packSizes) as [heap0 slice].
  destruct (NewCalculator slice heap0) as [[heap1 calc]| |];
    cbn [run_bind]; try done.
  destruct (CalculateWithDetails fuel calc amount heap1) as [[heap2 r]| |];
    cbn [run_bind]; try done.
  destruct r as [[[packs totalItems] totalPacks]|err].
  - intros [= <- <-]%(inj Done). cbn [cache]. by rewrite Cache_Set_Hits.
  - by intros [= <- <-]%(inj Done).
Qed.

(** C7.  Every successful add (201) or delete (200) of a pack size
    leaves the handler with the cache cleared when it returns its
    response, so that for every amount the lookup of the next calculate
    request finds nothing: the next request records no hit. *)
Theorem mutation_clears_cache {DB} (h h' : Handler DB) (resp : Response) :
  (∃ method size, AddPackSize method size h = (h', resp) ∧ status resp = 201) ∨
  (∃ method parts, DeletePackSize method parts h = (h', resp) ∧ status resp = 200) →
  cache h' = Cache_Clear (cache h) ∧
  (∀ amount packSizes now,
     (Cache_Get (GenerateCacheKey amount packSizes) now (cache h')).2 = None) ∧
  (∀ fuel method amount now later h'' resp',
     CalculatePacks fuel method amount now later h' = Done (h'', resp') →
     Hits (Cache_Stats (cache h'')) = 0).
Proof.
  intros Hmut.
  assert (cache h' = Cache_Clear (cache h)) as E.
  { destruct Hmut as [(method & size & Hadd & Hst)|(method & parts & Hdel & Hst)].
    - by eapply AddPackSize_created.
    - by eapply DeletePackSize_ok. }
  split; [done|]. split.
  - intros amount packSizes now. rewrite E. apply Cache_Get_cleared.
  - intros fuel method amount now later h'' resp'.
    apply CalculatePacks_after_clear.
    + rewrite E. apply Cache_Clear_Hits.
    + intros key. rewrite E. apply Cache_Get_cleared.
Qed.

Lemma mutation_clears_cache_witness :
  let out := AddPackSize "POST" (Some 1000) sample_handler in
  cache out.1 = Cache_Clear (cache sample_handler) ∧
  (∀ amount packSizes now,
     (Cache_Get (GenerateCacheKey amount packSizes) now (cache out.1)).2 = None) ∧
  (∀ fuel method amount now later h'' resp',
     CalculatePacks fuel method amount now later out.1 = Done (h'', resp') →
     Hits (Cache_Stats (cache h'')) = 0).
Proof.
  apply (mutation_clears_cache sample_handler _
           (AddPackSize "POST" (Some 1000) sample_handler).2).
  left. exists "POST", (Some 1000). split; reflexivity.
Defined.

(** ** The order history *)

(** C9 fails on the code: GetOrders passes on any positive limit as it
    is.  For [limit=5000] it asks the repository for 5000 records, above
    the maximum of 1000. *)
Theorem GetOrders_limit_not_capped {DB} (h : Handler DB) :
  orders_limit "5000" = 5000 ∧
  GetOrders "GET" "5000" h =
    match repository.GetAllOrders (repo h) 5000 (db h) with
    | None => (h, respondJSON 500 (ErrorBody "Failed to get orders"))
    | Some orders => (h, respondJSON 200 (OrdersBody orders))
    end.
Proof. split; reflexivity. Qed.

(** What the code does: the limit is the parameter when it parses as a
    positive [int], and 100 otherwise. *)
Lemma orders_limit_default limitStr :
  orders_limit limitStr =
    match Atoi limitStr with
    | Some l => if l >? 0 then l else 100
    | None => 100
    end.
Proof.
  unfold orders_limit. destruct (String.eqb_spec limitStr EmptyString) as [->|Hne]; done.
Qed.

(** ** The basic cases of the test suite, by evaluation *)

Example Calculate_basic_251 :
  ∃ h' c,
    NewCalculator 1%positive {[1%positive := [250; 500; 1000; 2000; 5000]]} = Done (h', c) ∧
    CalculateWithDetails 1 c 251 h' = Done (h', inl ({[500 := 1]}, 500, 1)).
Proof. eexists _, _. split; [reflexivity|]. vm_compute. reflexivity. Qed.

Example Calculate_basic_501 :
  ∃ h' c,
    NewCalculator 1%positive {[1%positive := [250; 500; 1000; 2000; 5000]]} = Done (h', c) ∧
    CalculateWithDetails 2 c 501 h' =
      Done (h', inl ({[250 := 1; 500 := 1]}, 750, 2)).
Proof. eexists _, _. split; [reflexivity|]. vm_compute. reflexivity. Qed.

Example Calculate_basic_12001 :
  ∃ h' c,
    NewCalculator 1%positive {[1%positive := [250; 500; 1000; 2000; 5000]]} = Done (h', c) ∧
    CalculateWithDetails 4 c 12001 h' =
      Done (h', inl ({[250 := 1; 2000 := 1; 5000 := 2]}, 12250, 4)).
Proof. eexists _, _. split; [reflexivity|]. vm_compute. reflexivity. Qed.

(** * Further properties of the code *)

(** ** The solver on a fresh slice *)

Lemma solve_sorted fuel S amount :
  solve fuel S amount =
    r ←ᵣ Calculate_on fuel (sort_Ints S) amount;
    Done match r with
         | inl (packs, totalItems) => inl (packs, totalItems, count_packs packs)
         | inr err => inr err
         end.
Proof.
  unfold solve, alloc.
  destruct (NewCalculator_Done (<[fresh (dom (∅ : heap)) := S]> ∅)
              (fresh (dom (∅ : heap))) S) as (q & Hq & ->).
  { apply lookup_insert_eq. }
  cbn [run_bind]. unfold CalculateWithDetails, Calculate. cbn [packSizes].
  rewrite lookup_insert_eq.
  destruct (Calculate_on fuel (sort_Ints S) amount) as [[[packs total]|err]| |];
    reflexivity.
Qed.

Lemma sort_Ints_Permutation S1 S2 : S1 ≡ₚ S2 → sort_Ints S1 = sort_Ints S2.
Proof.
  intros HP. unfold sort_Ints.
  apply (Sorted_unique Z.le).
  - apply Sorted_merge_sort, _.
  - apply Sorted_merge_sort, _.
  - by rewrite !merge_sort_Permutation.
Qed.

Lemma solve_least fuel S amount :
  S ≠ [] → Forall (λ s, 1 <= s) S →
  1 <= amount < MaxInt32 →
  Forall (λ s, 8 * (amount + s + 1) <= maxAlloc) S →
  amount <= Z.of_nat fuel →
  ∃ l,
    solve fuel S amount =
      Done (inl (tally l ∅, sum_list_Z l, Z.of_nat (length l))) ∧
    packing S l ∧ amount <= sum_list_Z l ∧ Z.of_nat (length l) <= amount ∧
    (∀ l', packing S l' → amount <= sum_list_Z l' → sum_list_Z l <= sum_list_Z l') ∧
    (∀ l', packing S l' → sum_list_Z l' = sum_list_Z l → (length l ≤ length l')%nat).
Proof.
  intros Hne Hpos Ha Hfit Hfuel.
  destruct (solver_least (<[fresh (dom (∅ : heap)) := S]> ∅)
              (fresh (dom (∅ : heap))) S amount)
    as (h' & c & l & EN & Hl & Hsum & Hlen & Hcalc & Hopt1 & Hopt2);
    [apply lookup_insert_eq|done|done|lia|apply below_sentinel; [done|lia]|done|].
  destruct (Hcalc fuel ltac:(lia)) as [_ E2].
  exists l. split; [|done].
  unfold solve, alloc. rewrite EN. cbn [run_bind]. by rewrite E2.
Qed.

(** X1.  The order of the caller's pack sizes is immaterial. *)
Theorem solve_Permutation fuel S1 S2 amount :
  S1 ≡ₚ S2 → solve fuel S1 amount = solve fuel S2 amount.
Proof.
  intros HP. by rewrite !solve_sorted, (sort_Ints_Permutation S1 S2 HP).
Qed.

Lemma solve_Permutation_witness :
  solve 501 [500; 250; 1000] 501 = solve 501 [250; 1000; 500] 501.
Proof.
  apply solve_Permutation.
  apply perm_trans with [250; 500; 1000]; [apply perm_swap|].
  apply perm_skip, perm_swap.
Defined.

Lemma tally_one s : tally [s] ∅ = {[s := 1]}.
Proof. unfold tally. simpl. by rewrite lookup_empty. Qed.

(** A single pack is returned when it is the least total. *)
Lemma solve_single fuel S amount s :
  S ≠ [] → Forall (λ s, 1 <= s) S →
  1 <= amount < MaxInt32 →
  Forall (λ s, 8 * (amount + s + 1) <= maxAlloc) S →
  amount <= Z.of_nat fuel →
  s ∈ S → amount <= s →
  (∀ l', packing S l' → amount <= sum_list_Z l' → s <= sum_list_Z l') →
  solve fuel S amount = Done (inl ({[s := 1]}, s, 1)).
Proof.
  intros Hne Hpos Ha Hfit Hfuel Hs Has Hleast.
  destruct (solve_least fuel S amount)
    as (l & -> & Hl & Hsum & Hlen & Hopt1 & Hopt2); try done.
  assert (packing S [s]) as Hps by (by constructor).
  pose proof (Hopt1 [s] Hps) as H1. simpl in H1.
  pose proof (Hleast l Hl Hsum) as H2.
  assert (sum_list_Z l = s) as Hsl by lia.
  pose proof (Hopt2 [s] Hps) as H3. simpl in H3.
  specialize (H3 ltac:(lia)).
  destruct l as [|x [|y l]]; cbn [length] in H3; [simpl in Hsl; lia| |lia].
  assert (x = s) as -> by (simpl in Hsl; lia).
  rewrite tally_one. simpl. by rewrite Z.add_0_r.
Qed.

(** X2.  An amount that is itself a pack size is served by that one
    pack, for positive sizes, an amount below the sentinel and tables
    within what [make] allocates. *)
Theorem solve_exact_match fuel S amount :
  amount ∈ S → Forall (λ s, 1 <= s) S →
  amount < MaxInt32 →
  Forall (λ s, 8 * (amount + s + 1) <= maxAlloc) S →
  amount <= Z.of_nat fuel →
  solve fuel S amount = Done (inl ({[amount := 1]}, amount, 1)).
Proof.
  intros Hin Hpos Ha Hfit Hfuel.
  pose proof (proj1 (Forall_forall _ _) Hpos amount Hin) as H1. simpl in H1.
  apply solve_single; try done; try lia.
  intros ->. by apply elem_of_nil in Hin.
Qed.

Lemma solve_exact_match_witness :
  solve 250 [250; 500; 1000; 2000; 5000] 250 = Done (inl ({[250 := 1]}, 250, 1)).
Proof.
  apply solve_exact_match.
  - apply list_elem_of_here.
  - repeat constructor; lia.
  - unfold MaxInt32. lia.
  - unfold maxAlloc. repeat constructor; lia.
  - lia.
Defined.

(** X3.  An amount of at most the smallest pack size is served by one
    pack of the smallest size, for positive sizes, an amount below the
    sentinel and tables within what [make] allocates. *)
Theorem solve_smallest_pack fuel S amount m :
  m ∈ S → (∀ s, s ∈ S → m <= s) → 1 <= amount <= m → 1 <= m →
  amount < MaxInt32 →
  Forall (λ s, 8 * (amount + s + 1) <= maxAlloc) S →
  amount <= Z.of_nat fuel →
  solve fuel S amount = Done (inl ({[m := 1]}, m, 1)).
Proof.
  intros Hin Hmin Ha Hm Ha32 Hfit Hfuel.
  assert (Forall (λ s, 1 <= s) S) as Hpos.
  { apply Forall_forall. intros s Hs. specialize (Hmin s Hs). simpl. lia. }
  apply solve_single; try done; try lia.
  { intros ->. by apply elem_of_nil in Hin. }
  intros l' Hl' Hsum. destruct Hl' as [|x l' Hx Hl'].
  - simpl in Hsum. lia.
  - pose proof (sum_list_Z_nonneg S l' Hpos Hl').
    specialize (Hmin x Hx). simpl. fold (sum_list_Z l'). lia.
Qed.

Lemma solve_smallest_pack_witness :
  solve 1 [250; 500; 1000; 2000; 5000] 1 = Done (inl ({[250 := 1]}, 250, 1)).
Proof.
  apply solve_smallest_pack.
  - apply list_elem_of_here.
  - intros s Hs. rewrite !elem_of_cons, elem_of_nil in Hs. lia.
  - lia.
  - lia.
  - unfold MaxInt32. lia.
  - unfold maxAlloc. repeat constructor; lia.
  - lia.
Defined.

Lemma packing_single s l : packing [s] l → l = replicate (length l) s.
Proof.
  intros Hl. induction Hl as [|x l Hx _ IH]; [done|].
  apply list_elem_of_singleton in Hx as ->. simpl. by rewrite <- IH.
Qed.

Lemma count_of_replicate s t n :
  count_of t (replicate n s) = if decide (s = t) then Z.of_nat n else 0.
Proof.
  induction n as [|n IH]; simpl; [by case_decide|].
  rewrite IH. case_decide; lia.
Qed.

Lemma tally_replicate n s :
  (0 < n)%nat → tally (replicate n s) ∅ = {[s := Z.of_nat n]}.
Proof.
  intros Hn. apply map_eq. intros t.
  rewrite tally_lookup_count, count_of_replicate, lookup_empty.
  destruct (decide (s = t)) as [->|Hne].
  - rewrite lookup_singleton_eq. case_decide; [lia|]. simpl. f_equal.
  - rewrite lookup_singleton_ne by done. by case_decide.
Qed.

(** X4.  With one positive pack size the order is rounded up to whole
    packs, for an amount below the sentinel and tables within what [make]
    allocates. *)
Theorem solve_one_size fuel s amount :
  1 <= s → 1 <= amount < MaxInt32 → 8 * (amount + s + 1) <= maxAlloc →
  amount <= Z.of_nat fuel →
  solve fuel [s] amount =
    Done (inl ({[s := ceil_div amount s]}, ceil_div amount s * s, ceil_div amount s)).
Proof.
  intros Hs Ha Hfit Hfuel.
  destruct (solve_least fuel [s] amount)
    as (l & -> & Hl & Hsum & Hlen & Hopt1 & Hopt2); try done.
  { by repeat constructor. }
  { by repeat constructor. }
  pose proof (packing_single s l Hl) as El.
  set (k := ceil_div amount s).
  assert (amount <= k * s < amount + s) as Hk.
  { unfold k, ceil_div.
    pose proof (Z.div_mod (amount + s - 1) s ltac:(lia)).
    pose proof (Z.mod_pos_bound (amount + s - 1) s ltac:(lia)). nia. }
  assert (packing [s] (replicate (Z.to_nat k) s)) as Hpk.
  { apply Forall_replicate, list_elem_of_here. }
  pose proof (Hopt1 _ Hpk) as H1. rewrite sum_list_Z_replicate in H1.
  rewrite El, sum_list_Z_replicate in Hsum, H1.
  assert (0 <= k) by nia. rewrite Z2Nat.id in H1 by done.
  specialize (H1 ltac:(lia)).
  assert (Z.of_nat (length l) = k) as Ek by nia.
  rewrite El, sum_list_Z_replicate, length_replicate, Ek.
  rewrite tally_replicate by nia. by rewrite Ek.
Qed.

Lemma solve_one_size_witness :
  solve 350 [100] 350 = Done (inl ({[100 := 4]}, 400, 4)).
Proof.
  apply (solve_one_size 350 100 350).
  - lia.
  - unfold MaxInt32. lia.
  - unfold maxAlloc. lia.
  - lia.
Defined.

(** X5.  For positive sizes, an amount below the sentinel and tables
    within what [make] allocates, the surplus shipped is less than any
    one pack, and no more packs are shipped than items were ordered. *)
Theorem solve_surplus fuel S amount :
  S ≠ [] → Forall (λ s, 1 <= s) S →
  1 <= amount < MaxInt32 →
  Forall (λ s, 8 * (amount + s + 1) <= maxAlloc) S →
  amount <= Z.of_nat fuel →
  ∃ M T P,
    solve fuel S amount = Done (inl (M, T, P)) ∧
    amount <= T ∧ (∀ s, s ∈ S → T < amount + s) ∧ 1 <= P <= amount.
Proof.
  intros Hne Hpos Ha Hfit Hfuel.
  destruct (solve_least fuel S amount)
    as (l & -> & Hl & Hsum & Hlen & Hopt1 & Hopt2); try done.
  eexists _, _, _. split; [done|]. split; [done|]. split.
  - intros s Hs.
    pose proof (proj1 (Forall_forall _ _) Hpos s Hs) as H1. simpl in H1.
    set (k := ceil_div amount s).
    assert (amount <= k * s < amount + s) as Hk.
    { unfold k, ceil_div.
      pose proof (Z.div_mod (amount + s - 1) s ltac:(lia)).
      pose proof (Z.mod_pos_bound (amount + s - 1) s ltac:(lia)). nia. }
    assert (packing S (replicate (Z.to_nat k) s)) as Hpk.
    { by apply Forall_replicate. }
    pose proof (Hopt1 _ Hpk) as H2. rewrite sum_list_Z_replicate in H2.
    assert (0 <= k) by nia. rewrite Z2Nat.id in H2 by done. lia.
  - split; [|done]. destruct l; [simpl in Hsum; lia|]. simpl. lia.
Qed.

Lemma solve_surplus_witness :
  ∃ M T P,
    solve 251 [250; 500] 251 = Done (inl (M, T, P)) ∧
    251 <= T ∧ (∀ s, s ∈ [250; 500] → T < 251 + s) ∧ 1 <= P <= 251.
Proof.
  apply solve_surplus.
  - discriminate.
  - repeat constructor; lia.
  - unfold MaxInt32. lia.
  - unfold maxAlloc. repeat constructor; lia.
  - lia.
Defined.

(** X6.  A larger order never ships fewer items, for positive sizes,
    amounts below the sentinel and tables within what [make] allocates. *)
Theorem solve_monotone fuel S a1 a2 :
  S ≠ [] → Forall (λ s, 1 <= s) S →
  1 <= a1 <= a2 → a2 < MaxInt32 →
  Forall (λ s, 8 * (a2 + s + 1) <= maxAlloc) S →
  a2 <= Z.of_nat fuel →
  ∃ M1 T1 P1 M2 T2 P2,
    solve fuel S a1 = Done (inl (M1, T1, P1)) ∧
    solve fuel S a2 = Done (inl (M2, T2, P2)) ∧
    T1 <= T2.
Proof.
  intros Hne Hpos Ha Ha32 Hfit Hfuel.
  destruct (solve_least fuel S a2)
    as (l2 & -> & Hl2 & Hsum2 & _ & _ & _); try done; [lia|].
  destruct (solve_least fuel S a1)
    as (l1 & -> & Hl1 & Hsum1 & _ & Hopt1 & _); try done; try lia.
  { eapply Forall_impl; [exact Hfit|]. simpl. intros. lia. }
  eexists _, _, _, _, _, _. split; [done|]. split; [done|].
  apply Hopt1; [done|lia].
Qed.

Lemma solve_monotone_witness :
  ∃ M1 T1 P1 M2 T2 P2,
    solve 501 [250; 500] 251 = Done (inl (M1, T1, P1)) ∧
    solve 501 [250; 500] 501 = Done (inl (M2, T2, P2)) ∧
    T1 <= T2.
Proof.
  apply solve_monotone.
  - discriminate.
  - repeat constructor; lia.
  - lia.
  - unfold MaxInt32. lia.
  - unfold maxAlloc. repeat constructor; lia.
  - lia.
Defined.

(** X7.  The solver does not check the pack sizes: a negative one makes
    it index the table below zero. *)
Theorem solve_negative_size_panics fuel S amount neg big :
  neg ∈ S → neg < 0 → big ∈ S → 0 <= amount + big →
  1 <= amount →
  Forall (λ s, MinInt64 <= s ∧ amount + s < MaxInt64) S →
  solve fuel S amount = Panic.
Proof.
  intros Hneg Hn Hbig Hb Ha Hfit.
  rewrite solve_sorted.
  destruct (sort_Ints_head S) as (m & rest & E & Hm & Hmin).
  { intros ->. by apply elem_of_nil in Hneg. }
  pose proof (Hmin neg Hneg) as Hmn.
  destruct (last (sort_Ints S)) as [largest|] eqn:Hlast.
  2:{ rewrite E in Hlast. by apply last_None in Hlast. }
  pose proof (sort_Ints_largest S largest Hlast big) as Hlb.
  rewrite (sort_Ints_perm S) in Hlb. specialize (Hlb Hbig).
  assert (largest ∈ S) as Hlin.
  { rewrite <- (sort_Ints_perm S). apply last_Some in Hlast as [l' ->].
    apply elem_of_app. right. apply list_elem_of_here. }
  pose proof (proj1 (Forall_forall _ _) Hfit largest Hlin) as [Hl1 Hl2].
  pose proof (proj1 (Forall_forall _ _) Hfit m Hm) as [Hm1 Hm2].
  unfold Calculate_on. rewrite Hlast.
  destruct (Z.leb_spec amount 0) as [?|_]; [lia|].
  rewrite (add64_id amount largest) by (unfold in_int64, MinInt64, MaxInt64 in *; lia).
  set (U := amount + largest).
  rewrite (add64_id U 1) by (unfold in_int64, MinInt64, MaxInt64, U in *; lia).
  unfold make. destruct (Z.ltb_spec (U + 1) 0) as [?|_]; [unfold U in *; lia|].
  destruct (Z.gtb_spec (8 * (U + 1)) maxAlloc) as [?|_]; [reflexivity|].
  cbn [orb run_bind slen].
  destruct (fill_Done (U + 1)) as ([n cs] & -> & Hlen & _); [unfold U; lia|].
  simpl in Hlen. subst n. cbn [run_bind].
  rewrite set_Done by (simpl; unfold U; lia). cbn [run_bind slen cells].
  destruct (Z.to_nat (U + 1)) as [|k] eqn:Ek; [unfold U in *; lia|].
  cbn [for_range]. unfold dp_step at 1. cbn [fst].
  rewrite get_Done by (simpl; unfold U; lia). rewrite rd_insert_eq.
  cbn [run_bind]. change (0 =? MaxInt32) with false. cbv iota.
  rewrite E. cbn [for_each]. unfold relax at 1.
  rewrite (add64_id 0 m) by (unfold in_int64, MinInt64, MaxInt64 in *; lia).
  rewrite Z.add_0_l.
  destruct (Z.leb_spec m U) as [_|?]; [|unfold U in *; lia].
  unfold get at 1. destruct (Z.leb_spec 0 m) as [?|_]; [lia|]. reflexivity.
Qed.

Lemma solve_negative_size_panics_witness :
  solve 10 [5; -1] 10 = Panic.
Proof.
  apply (solve_negative_size_panics 10 [5; -1] 10 (-1) 5).
  - apply list_elem_of_further, list_elem_of_here.
  - lia.
  - apply list_elem_of_here.
  - lia.
  - lia.
  - unfold MinInt64, MaxInt64. repeat constructor; lia.
Defined.

(** X8.  With a pack of one item among the positive sizes nothing is
    shipped in excess: the total is the amount, for an amount below the
    sentinel and tables within what [make] allocates.  The amount 999
    over the sizes 1 and 1000 is served by 999 packs of one item, not by
    one pack of 1000 as the case "Many small packs vs one large" of the
    test suite expects. *)
Theorem solve_unit_pack fuel S amount :
  1 ∈ S → Forall (λ s, 1 <= s) S →
  1 <= amount < MaxInt32 →
  Forall (λ s, 8 * (amount + s + 1) <= maxAlloc) S →
  amount <= Z.of_nat fuel →
  ∃ M P, solve fuel S amount = Done (inl (M, amount, P)).
Proof.
  intros Hin Hpos Ha Hfit Hfuel.
  destruct (solve_least fuel S amount)
    as (l & -> & Hl & Hsum & Hlen & Hopt1 & Hopt2); try done.
  { intros ->. by apply elem_of_nil in Hin. }
  assert (packing S (replicate (Z.to_nat amount) 1)) as Hpk.
  { by apply Forall_replicate. }
  pose proof (Hopt1 _ Hpk) as H1. rewrite sum_list_Z_replicate in H1.
  rewrite Z2Nat.id in H1 by lia.
  assert (sum_list_Z l = amount) as -> by lia.
  by eexists _, _.
Qed.

Lemma solve_unit_pack_witness :
  ∃ M P, solve 999 [1; 1000] 999 = Done (inl (M, 999, P)).
Proof.
  apply solve_unit_pack.
  - apply list_elem_of_here.
  - repeat constructor; lia.
  - unfold MaxInt32. lia.
  - unfold maxAlloc. repeat constructor; lia.
  - lia.
Defined.

(** ** Round trips through the cache *)

Lemma Set_lookup key packs total ttl now c :
  items (Set_ key packs total ttl now c) !! key =
    Some {| cache.packs := packs; cache.total := total; expiration := now + ttl |}.
Proof.
  unfold Set_. destruct (items c !! key); simpl.
  - apply lookup_insert_eq.
  - apply lookup_insert_eq.
Qed.

(** X9.  What Set stores, Get returns until the entry expires: a lookup
    at an instant up to and including [now + ttl] hits and returns the
    stored packs and total, a later one misses. *)
Theorem Get_after_Set key packs total ttl now t c :
  (Get key t (Set_ key packs total ttl now c)).2 =
    if t >? now + ttl then None else Some (packs, total).
Proof.
  unfold Get. rewrite Set_lookup. simpl. by destruct (t >? now + ttl).
Qed.

(** X10.  A Set that finds its key in the cache, or the cache below its
    capacity, leaves what the other keys give as it was. *)
Theorem Set_keeps_other_entries key packs total ttl now c k t :
  k ≠ key →
  is_Some (items c !! key) ∨ Z.of_nat (size (items c)) < maxSize c →
  (Get k t (Set_ key packs total ttl now c)).2 = (Get k t c).2.
Proof.
  intros Hne Hroom.
  assert (items (Set_ key packs total ttl now c) !! k = items c !! k) as E.
  { unfold Set_. destruct (items c !! key) as [item|] eqn:Ek; simpl.
    - by rewrite lookup_insert_ne.
    - destruct Hroom as [[? [=]]|Hroom].
      destruct (Z.geb_spec (Z.of_nat (size (items c))) (maxSize c)) as [?|_]; [lia|].
      by rewrite lookup_insert_ne. }
  unfold Get. rewrite E. destruct (items c !! k) as [item|]; [|done].
  by destruct (t >? expiration item).
Qed.

Lemma Set_keeps_other_entries_witness :
  (Get "calc:251:250,500" 5
     (Set_ "calc:501:250,500" {[250 := 1; 500 := 1]} 750 10 0
        (Set_ "calc:251:250,500" {[500 := 1]} 500 10 0 (NewMemoryCache 2)))).2 =
  (Get "calc:251:250,500" 5
     (Set_ "calc:251:250,500" {[500 := 1]} 500 10 0 (NewMemoryCache 2))).2.
Proof.
  apply Set_keeps_other_entries.
  - done.
  - right. vm_compute. reflexivity.
Defined.

Lemma run_ops_snoc c ops o : run_ops c (ops ++ [o]) = run_op (run_ops c ops) o.
Proof. unfold run_ops. by rewrite foldl_snoc. Qed.

Lemma with_maxSize_Get key now c C :
  Get key now (with_maxSize c C) =
    (with_maxSize (Get key now c).1 C, (Get key now c).2).
Proof.
  unfold Get, with_maxSize. simpl.
  destruct (items c !! key) as [item|]; [|done].
  by destruct (now >? expiration item).
Qed.

(** A cache that holds at most one entry makes room for a new key in the
    same way under every capacity up to 1. *)
Lemma with_maxSize_Set key packs total ttl now c C :
  C <= 1 → maxSize c = 1 →
  size (items c) = length (chain c) → (length (chain c) ≤ 1)%nat →
  Set_ key packs total ttl now (with_maxSize c C) =
    with_maxSize (Set_ key packs total ttl now c) C.
Proof.
  intros HC Hmax Hsz Hlen. unfold Set_, with_maxSize. simpl.
  destruct (items c !! key) as [item|]; [done|].
  rewrite Hmax, Hsz.
  destruct (chain c) as [|k [|k' l]] eqn:Ech; simpl in Hlen; [| |lia].
  - assert (evictLRU c = c) as Ec by (unfold evictLRU; by rewrite Ech).
    assert (∀ c', chain c' = [] → evictLRU c' = c') as Ec'.
    { intros c' E. unfold evictLRU. by rewrite E. }
    destruct (Z.of_nat (length []) >=? C);
      destruct (Z.of_nat (length (@nil string)) >=? 1);
      rewrite ?Ec, ?Ec' by done; simpl; by rewrite ?Ech.
  - simpl length.
    destruct (Z.geb_spec (Z.of_nat 1) C) as [_|?]; [|lia].
    destruct (Z.geb_spec (Z.of_nat 1) 1) as [_|?]; [|lia].
    unfold evictLRU. simpl. by rewrite Ech.
Qed.

(** X11.  A cache made with a capacity of zero or less is a cache of
    capacity one. *)
Theorem MemoryCache_nonpositive_capacity (C : Z) ops :
  C <= 0 →
  run_ops (NewMemoryCache C) ops = with_maxSize (run_ops (NewMemoryCache 1) ops) C ∧
  ∀ key t, (Get key t (run_ops (NewMemoryCache C) ops)).2 =
           (Get key t (run_ops (NewMemoryCache 1) ops)).2.
Proof.
  intros HC.
  assert (run_ops (NewMemoryCache C) ops =
          with_maxSize (run_ops (NewMemoryCache 1) ops) C) as E;
    [|split; [done|intros key t; by rewrite E, with_maxSize_Get]].
  induction ops as [|o ops IH] using rev_ind; [done|].
  rewrite !run_ops_snoc, IH.
  destruct (run_ops_lru_inv 1 1 ops) as [Hnd Hch Hit Hsz Hmax]; [lia|done|].
  set (c := run_ops (NewMemoryCache 1) ops) in *.
  destruct o as [key now|key packs total ttl now|]; simpl.
  - by rewrite with_maxSize_Get.
  - apply with_maxSize_Set; [lia|done|done|].
    rewrite Hch, length_take. lia.
  - done.
Qed.

Lemma MemoryCache_nonpositive_capacity_witness :
  run_ops (NewMemoryCache (-5))
    [OpSet "calc:1:250" ∅ 250 10 0; OpSet "calc:2:250" ∅ 250 10 0; OpGet "calc:1:250" 5] =
  with_maxSize
    (run_ops (NewMemoryCache 1)
       [OpSet "calc:1:250" ∅ 250 10 0; OpSet "calc:2:250" ∅ 250 10 0; OpGet "calc:1:250" 5])
    (-5) ∧
  ∀ key t,
    (Get key t (run_ops (NewMemoryCache (-5))
       [OpSet "calc:1:250" ∅ 250 10 0; OpSet "calc:2:250" ∅ 250 10 0;
        OpGet "calc:1:250" 5])).2 =
    (Get key t (run_ops (NewMemoryCache 1)
       [OpSet "calc:1:250" ∅ 250 10 0; OpSet "calc:2:250" ∅ 250 10 0;
        OpGet "calc:1:250" 5])).2.
Proof. apply MemoryCache_nonpositive_capacity. lia. Defined.

(** ** Reading back what Itoa writes *)

Lemma digits_app s1 : ∀ acc s2,
  digits acc (s1 +:+ s2) = digits acc s1 ≫= λ v, digits v s2.
Proof.
  induction s1 as [|c s1 IH]; intros acc s2.
  - by rewrite append_nil_l.
  - rewrite append_cons. simpl. destruct (digit c) as [d|]; [apply IH|done].
Qed.

Lemma pretty_N_go_app x : ∀ s, pretty_N_go x s = pretty_N_go x EmptyString +:+ s.
Proof.
  induction (N.lt_wf_0 x) as [x _ IH]. intros s.
  assert (x = 0 ∨ 0 < x)%N as [->|Hx] by lia.
  - rewrite !pretty_N_go_0. by rewrite append_nil_l.
  - rewrite (pretty_N_go_step x s), (pretty_N_go_step x EmptyString) by done.
    assert (x `div` 10 < x)%N as Hlt by (by apply N.div_lt).
    rewrite (IH (x `div` 10)%N Hlt (String (pretty_N_char (x `mod` 10)) s)).
    rewrite (IH (x `div` 10)%N Hlt (String (pretty_N_char (x `mod` 10)) EmptyString)).
    by rewrite append_assoc, append_cons, append_nil_l.
Qed.

Lemma digit_pretty_N_char d : (d < 10)%N → digit (pretty_N_char d) = Some (Z.of_N d).
Proof.
  intros Hd.
  assert (d = 0 ∨ d = 1 ∨ d = 2 ∨ d = 3 ∨ d = 4 ∨ d = 5 ∨ d = 6 ∨ d = 7 ∨ d = 8 ∨ d = 9)%N
    as H by lia.
  repeat destruct H as [->|H]; try subst d; reflexivity.
Qed.

Lemma digits_pretty_N_go x : digits 0 (pretty_N_go x EmptyString) = Some (Z.of_N x).
Proof.
  induction (N.lt_wf_0 x) as [x _ IH].
  assert (x = 0 ∨ 0 < x)%N as [->|Hx] by lia.
  - by rewrite pretty_N_go_0.
  - rewrite pretty_N_go_step, pretty_N_go_app, digits_app by done.
    rewrite IH by (by apply N.div_lt). simpl.
    rewrite digit_pretty_N_char by (by apply N.mod_lt).
    simpl. f_equal.
    pose proof (N.div_mod x 10 ltac:(done)). lia.
Qed.

(** A text that begins with a digit has no sign for Atoi to take off. *)
Lemma Atoi_unsigned c s n :
  digit c = Some n →
  Atoi (String c s) =
    match digits 0 (String c s) with
    | Some n => if (MinInt64 <=? n) && (n <=? MaxInt64) then Some n else None
    | None => None
    end.
Proof.
  intros Hc. unfold Atoi.
  destruct c as [[] [] [] [] [] [] [] []]; try discriminate Hc; reflexivity.
Qed.

Lemma pretty_N_go_head x :
  (0 < x)%N → ∃ d s, (d < 10)%N ∧ pretty_N_go x EmptyString = String (pretty_N_char d) s.
Proof.
  induction (N.lt_wf_0 x) as [x _ IH]. intros Hx.
  rewrite pretty_N_go_step by done.
  destruct (N.eq_0_gt_0_cases (x `div` 10)) as [E|Hq].
  - rewrite E, pretty_N_go_0. eexists _, _. split; [|done]. by apply N.mod_lt.
  - rewrite pretty_N_go_app.
    destruct (IH (x `div` 10)%N) as (d & s & Hd & ->); [by apply N.div_lt|done|].
    rewrite append_cons. by eexists _, _.
Qed.

Lemma Atoi_Itoa i : in_int64 i → Atoi (Itoa i) = Some i.
Proof.
  intros [H1 H2].
  assert (∀ p, ∃ c s n, pretty (N.pos p) = String c s ∧ digit c = Some n ∧
                        digits 0 (String c s) = Some (Z.pos p)) as Hp.
  { intros p. unfold pretty, pretty_N. rewrite decide_False by done.
    destruct (pretty_N_go_head (N.pos p)) as (d & s & Hd & E); [done|].
    exists (pretty_N_char d), s, (Z.of_N d).
    split; [done|]. split; [by apply digit_pretty_N_char|].
    rewrite <- E. apply (digits_pretty_N_go (N.pos p)). }
  destruct i as [|p|p].
  - reflexivity.
  - destruct (Hp p) as (c & s & n & E & Hc & Hd).
    unfold Itoa. change (pretty (Z.pos p)) with (pretty (N.pos p)).
    rewrite E, (Atoi_unsigned c s n Hc), Hd.
    apply Z.leb_le in H1, H2. by rewrite H1, H2.
  - destruct (Hp p) as (c & s & n & E & Hc & Hd).
    change (Itoa (Z.neg p)) with (String "-" (pretty (N.pos p))).
    rewrite E. unfold Atoi. rewrite Hd.
    change (- Z.pos p) with (Z.neg p).
    apply Z.leb_le in H1, H2. by rewrite H1, H2.
Qed.

(** ** What the handlers do to the store and the cache *)

(** X12.  DELETE on a path that ends in the decimal text of [size] asks
    the repository to delete exactly [size]; what the repository says
    decides between 200, with the cache cleared, and 404. *)
Theorem DeletePackSize_by_path {DB} (h : Handler DB) (pre : list string) (size : Z) :
  (3 ≤ length pre)%nat → in_int64 size →
  DeletePackSize "DELETE" (pre ++ [Itoa size]) h =
    match repository.DeletePackSize (repo h) size (db h) with
    | inl err => (h, respondJSON 404 (ErrorBody err))
    | inr db' =>
        ({| repo := repo h; db := db'; cache := Cache_Clear (cache h) |},
         respondJSON 200 (MessageBody "Pack size deleted successfully"))
    end.
Proof.
  intros Hpre Hsize. unfold DeletePackSize.
  change (negb ("DELETE" =? "DELETE")%string) with false. cbv iota.
  rewrite length_app. cbn [length].
  destruct (Nat.ltb_spec (length pre + 1) 4) as [?|_]; [lia|].
  rewrite last_snoc. cbn [default from_option id]. by rewrite Atoi_Itoa.
Qed.

Lemma DeletePackSize_by_path_witness :
  DeletePackSize "DELETE" ([EmptyString; "api"; "packs"] ++ [Itoa 250]) sample_handler =
    match repository.DeletePackSize (repo sample_handler) 250 (db sample_handler) with
    | inl err => (sample_handler, respondJSON 404 (ErrorBody err))
    | inr db' =>
        ({| repo := repo sample_handler; db := db';
            cache := Cache_Clear (cache sample_handler) |},
         respondJSON 200 (MessageBody "Pack size deleted successfully"))
    end.
Proof.
  apply (DeletePackSize_by_path sample_handler [EmptyString; "api"; "packs"] 250).
  - simpl. lia.
  - unfold in_int64, MinInt64, MaxInt64. lia.
Defined.

Lemma Atoi_range s n : Atoi s = Some n → in_int64 n.
Proof.
  unfold Atoi.
  destruct (match s with
            | String "-"%char s' => (true, s')
            | String "+"%char s' => (false, s')
            | _ => (false, s)
            end) as [neg ds].
  destruct ds; [done|]. destruct (digits 0 _) as [v|]; [|done].
  destruct (_ && _) eqn:E; [|done]. intros [= <-].
  apply andb_true_iff in E as [H1 H2]. apply Z.leb_le in H1, H2. done.
Qed.

(** X13.  Whatever the [limit] parameter holds, GetOrders asks the
    repository for a positive number of orders that fits an [int]. *)
Theorem orders_limit_range (limitStr : string) :
  1 <= orders_limit limitStr <= MaxInt64.
Proof.
  rewrite orders_limit_default.
  destruct (Atoi limitStr) as [l|] eqn:E; [|unfold MaxInt64; lia].
  apply Atoi_range in E as [_ H].
  destruct (Z.gtb_spec l 0); unfold MaxInt64 in *; lia.
Qed.

(** X14.  A [limit] parameter written in decimal is the number of orders
    asked for when it is positive, and gives way to 100 otherwise. *)
Theorem GetOrders_limit {DB} (h : Handler DB) (n : Z) :
  in_int64 n →
  GetOrders "GET" (Itoa n) h =
    match repository.GetAllOrders (repo h) (if n >? 0 then n else 100) (db h) with
    | None => (h, respondJSON 500 (ErrorBody "Failed to get orders"))
    | Some orders => (h, respondJSON 200 (OrdersBody orders))
    end.
Proof.
  intros Hn. unfold GetOrders.
  change (negb ("GET" =? "GET")%string) with false. cbv iota zeta.
  by rewrite orders_limit_default, Atoi_Itoa.
Qed.

Lemma GetOrders_limit_witness :
  GetOrders "GET" (Itoa (-3)) sample_handler =
    match repository.GetAllOrders (repo sample_handler)
            (if -3 >? 0 then -3 else 100) (db sample_handler) with
    | None => (sample_handler, respondJSON 500 (ErrorBody "Failed to get orders"))
    | Some orders => (sample_handler, respondJSON 200 (OrdersBody orders))
    end.
Proof.
  apply (GetOrders_limit sample_handler (-3)).
  unfold in_int64, MinInt64, MaxInt64. lia.
Defined.

(** X15.  AddPackSize answers 201 only for a POST whose size is at least 1
    and not yet stored, after the repository has stored it; with every
    other answer the handler is left as it was. *)
Theorem AddPackSize_effect {DB} method size (h : Handler DB) :
  let out := AddPackSize method size h in
  (status out.2 = 201 ∧
   ∃ s db', method = "POST" ∧ size = Some s ∧ 1 <= s ∧
            repository.PackSizeExists (repo h) s (db h) = Some false ∧
            repository.AddPackSize (repo h) s (db h) = Some db' ∧
            out.1 = {| repo := repo h; db := db'; cache := Cache_Clear (cache h) |}) ∨
  (status out.2 ≠ 201 ∧ out.1 = h).
Proof.
  unfold AddPackSize, respondJSON.
  destruct (String.eqb_spec method "POST") as [->|Hm]; cbn [negb]; [|by right].
  destruct size as [s|]; [|by right].
  destruct (Z.ltb_spec s 1) as [?|Hs]; [by right|].
  destruct (repository.PackSizeExists _ _ _) as [[|]|] eqn:Hex; [by right| |by right].
  destruct (repository.AddPackSize _ _ _) as [db'|] eqn:Hadd; [|by right].
  left. split; [done|]. by exists s, db'.
Qed.

(** X16.  DeletePackSize answers 200 only for a DELETE on a path of at
    least four pieces whose last one reads as an [int] that the repository
    has deleted; with every other answer the handler is left as it was. *)
Theorem DeletePackSize_effect {DB} method parts (h : Handler DB) :
  let out := DeletePackSize method parts h in
  (status out.2 = 200 ∧
   ∃ s db', method = "DELETE" ∧ (4 ≤ length parts)%nat ∧
            Atoi (default EmptyString (last parts)) = Some s ∧
            repository.DeletePackSize (repo h) s (db h) = inr db' ∧
            out.1 = {| repo := repo h; db := db'; cache := Cache_Clear (cache h) |}) ∨
  (status out.2 ≠ 200 ∧ out.1 = h).
Proof.
  unfold DeletePackSize, respondJSON.
  destruct (String.eqb_spec method "DELETE") as [->|Hm]; cbn [negb]; [|by right].
  destruct (Nat.ltb_spec (length parts) 4) as [?|Hlen]; [by right|].
  destruct (Atoi _) as [s|] eqn:Hs; [|by right].
  destruct (repository.DeletePackSize _ _ _) as [err|db'] eqn:Hdel; [by right|].
  left. split; [done|]. by exists s, db'.
Qed.

(** ** CalculatePacks and the cache *)

Lemma Get_miss_lookup key now m key' t :
  (Get key now m).2 = None →
  (Get key' t (Get key now m).1).2 = (Get key' t m).2.
Proof.
  unfold Get. destruct (items m !! key) as [item|]; simpl.
  - destruct (now >? expiration item); [|done]. simpl. intros _.
    destruct (items m !! key') as [item'|]; [|done].
    by destruct (t >? expiration item').
  - intros _. destruct (items m !! key') as [item'|]; [|done].
    by destruct (t >? expiration item').
Qed.

Lemma Cache_Get_miss_lookup key now c key' t :
  (Cache_Get key now c).2 = None →
  (Cache_Get key' t (Cache_Get key now c).1).2 = (Cache_Get key' t c).2.
Proof.
  destruct c as [m|]; [|done]. unfold Cache_Get.
  pose proof (Get_miss_lookup key now m key' t) as H.
  destruct (Get key now m) as [m1 r1]. simpl in *.
  intros ->. specialize (H eq_refl).
  destruct (Get key' t m1), (Get key' t m). simpl in *. done.
Qed.

(** The solver run of a calculate request that misses the cache. *)
Lemma CalculatePacks_miss {DB} fuel amount now later (h : Handler DB) S c' :
  1 <= amount <= maxAmount →
  repository.GetPackSizesAsSlice (repo h) (db h) = Some S → S ≠ [] →
  Cache_Get (GenerateCacheKey amount S) now (cache h) = (c', None) →
  CalculatePacks fuel "POST" (Some amount) now later h =
    r ←ᵣ solve fuel S amount;
    Done match r with
         | inr err =>
             ({| repo := repo h; db := db h; cache := c' |},
              respondJSON 500 (ErrorBody (Error err)))
         | inl (packs, totalItems, totalPacks) =>
             let order := {| repository.Amount := amount;
                             repository.TotalItems := totalItems;
                             repository.TotalPacks := totalPacks;
                             repository.Packs := packs |} in
             ({| repo := repo h;
                 db := repository.SaveOrder (repo h) order (db h);
                 cache := Cache_Set (GenerateCacheKey amount S) packs totalItems
                            Hour later c' |},
              respondJSON 200 (ResultBody order))
         end.
Proof.
  intros Ha HS Hne Hmiss. unfold CalculatePacks.
  change (negb ("POST" =? "POST")%string) with false. cbv iota.
  destruct (Z.ltb_spec amount 1) as [?|_]; [lia|].
  destruct (Z.gtb_spec amount maxAmount) as [?|_]; [lia|].
  rewrite HS. destruct S as [|s0 S']; [done|]. cbn [length Nat.eqb].
  rewrite Hmiss. unfold solve.
  destruct (alloc ∅ (s0 :: S')) as [heap0 slice].
  destruct (NewCalculator slice heap0) as [[heap1 calc]| |]; [|done..].
  cbn [run_bind].
  destruct (CalculateWithDetails fuel calc amount heap1) as [[h1 r]| |]; [|done..].
  cbn [run_bind]. by destruct r as [[[packs totalItems] totalPacks]|err].
Qed.

(** X17.  The only thing CalculatePacks writes to the database is the
    order it answers with; and a request it does not answer with 200
    leaves the database and every cached entry as they were. *)
Theorem CalculatePacks_writes {DB} fuel method amount now later
    (h h' : Handler DB) resp :
  CalculatePacks fuel method amount now later h = Done (h', resp) →
  repo h' = repo h ∧
  (db h' = db h ∨
   ∃ order, resp = respondJSON 200 (ResultBody order) ∧
            db h' = repository.SaveOrder (repo h) order (db h)) ∧
  (status resp ≠ 200 →
   db h' = db h ∧
   ∀ key t, (Cache_Get key t (cache h')).2 = (Cache_Get key t (cache h)).2).
Proof.
  unfold CalculatePacks, respondJSON.
  destruct (negb _); [intros [= <- <-]%(inj Done); by auto|].
  destruct amount as [amount|]; [|intros [= <- <-]%(inj Done); by auto].
  destruct (amount <? 1); [intros [= <- <-]%(inj Done); by auto|].
  destruct (amount >? maxAmount); [intros [= <- <-]%(inj Done); by auto|].
  destruct (repository.GetPackSizesAsSlice _ _) as [packSizes|];
    [|intros [= <- <-]%(inj Done); by auto].
  destruct (_ =? _)%nat; [intros [= <- <-]%(inj Done); by auto|].
  destruct (Cache_Get _ now (cache h)) as [cache' [[cachedPacks cachedTotal]|]] eqn:EG.
  - intros [= <- <-]%(inj Done). cbn [repo db status]. split; [done|].
    split; [by left|]. done.
  - destruct (alloc ∅ packSizes) as [heap0 slice].
    destruct (NewCalculator slice heap0) as [[heap1 calc]| |]; [|done..].
    cbn [run_bind].
    destruct (CalculateWithDetails fuel calc amount heap1) as [[h1 r]| |]; [|done..].
    cbn [run_bind]. destruct r as [[[packs totalItems] totalPacks]|err].
    + intros [= <- <-]%(inj Done). cbn [repo db status]. split; [done|].
      split; [right; by eexists|]. done.
    + intros [= <- <-]%(inj Done). cbn [repo db status cache]. split; [done|].
      split; [by left|]. intros _. split; [done|]. intros key t.
      pose proof (Cache_Get_miss_lookup (GenerateCacheKey amount packSizes) now
                    (cache h) key t) as H.
      rewrite EG in H. by apply H.
Qed.

Lemma CalculatePacks_writes_witness :
  let h' := {| repo := repo sample_handler; db := db sample_handler;
               cache := (Cache_Get "calc:251:250,500" 5 (cache sample_handler)).1 |} in
  let resp := respondJSON 200
                (ResultBody {| repository.Amount := 251; repository.TotalItems := 500;
                               repository.TotalPacks := 1;
                               repository.Packs := {[500 := 1]} |}) in
  repo h' = repo sample_handler ∧
  (db h' = db sample_handler ∨
   ∃ order, resp = respondJSON 200 (ResultBody order) ∧
            db h' = repository.SaveOrder (repo sample_handler) order (db sample_handler)) ∧
  (status resp ≠ 200 →
   db h' = db sample_handler ∧
   ∀ key t, (Cache_Get key t (cache h')).2 = (Cache_Get key t (cache sample_handler)).2).
Proof.
  apply (CalculatePacks_writes 0 "POST" (Some 251) 5 5 sample_handler).
  vm_compute. reflexivity.
Defined.

(** X18.  Over a store of positive pack sizes whose tables are within
    what [make] allocates, a calculate request that misses the cache is
    answered by the solver, saves its order and stores its result; the
    same request again, up to one hour after the result was stored, gets
    the same answer from the cache, whatever fuel it is given, and saves
    no order. *)
Theorem CalculatePacks_repeat {DB} fuel amount now later (h : Handler DB) S m :
  1 <= amount <= maxAmount →
  repository.GetPackSizesAsSlice (repo h) (db h) = Some S →
  S ≠ [] → Forall (λ s, 1 <= s) S →
  Forall (λ s, 8 * (amount + s + 1) <= maxAlloc) S →
  amount <= Z.of_nat fuel →
  (∀ order, repository.GetPackSizesAsSlice (repo h)
              (repository.SaveOrder (repo h) order (db h)) = Some S) →
  cache h = InMemory m →
  (Get (GenerateCacheKey amount S) now m).2 = None →
  ∃ h1 order,
    CalculatePacks fuel "POST" (Some amount) now later h =
      Done (h1, respondJSON 200 (ResultBody order)) ∧
    solve fuel S amount =
      Done (inl (repository.Packs order, repository.TotalItems order,
                 repository.TotalPacks order)) ∧
    db h1 = repository.SaveOrder (repo h) order (db h) ∧
    ∀ fuel' now' later', now' <= later + Hour →
      ∃ h2, CalculatePacks fuel' "POST" (Some amount) now' later' h1 =
              Done (h2, respondJSON 200 (ResultBody order)) ∧
            db h2 = db h1.
Proof.
  intros Ha HS Hne Hpos Hfit Hfuel Hsave Hc Hmiss.
  destruct (solve_least fuel S amount) as (l & Esolve & _ & _ & Hlen & _); try done.
  { unfold maxAmount, MaxInt32 in *. lia. }
  set (key := GenerateCacheKey amount S) in *.
  destruct (Get key now m) as [m1 r1] eqn:EG. simpl in Hmiss. subst r1.
  rewrite (CalculatePacks_miss fuel amount now later h S (InMemory m1)); try done.
  2:{ rewrite Hc. unfold Cache_Get. fold key. by rewrite EG. }
  rewrite Esolve. cbn [run_bind]. cbv zeta.
  eexists _, _. split; [done|]. cbn [repository.Packs repository.TotalItems
                                    repository.TotalPacks db].
  split; [done|]. split; [done|].
  intros fuel' now' later' Hnow. unfold CalculatePacks.
  change (negb ("POST" =? "POST")%string) with false. cbv iota.
  destruct (Z.ltb_spec amount 1) as [?|_]; [lia|].
  destruct (Z.gtb_spec amount maxAmount) as [?|_]; [lia|].
  cbn [repo db cache]. rewrite Hsave.
  destruct S as [|s0 S']; [done|]. cbn [length Nat.eqb]. fold key.
  unfold Cache_Set, Cache_Get.
  destruct (Get key now' (Set_ key (tally l ∅) (sum_list_Z l) Hour later m1))
    as [m2 r2] eqn:EG2.
  assert (r2 = Some (tally l ∅, sum_list_Z l)) as ->.
  { change r2 with (m2, r2).2. rewrite <- EG2. unfold Get.
    rewrite Set_lookup. cbn [expiration packs total].
    destruct (Z.gtb_spec now' (later + Hour)) as [?|_]; [lia|]. done. }
  fold (count_packs (tally l ∅)).
  assert (count_packs (tally l ∅) = Z.of_nat (length l)) as ->.
  { rewrite count_packs_exact.
    - apply packs_of_tally_empty.
    - intros s c Hs. by apply tally_nonneg in Hs.
    - rewrite packs_of_tally_empty. unfold maxAmount, MaxInt64 in *. lia. }
  by eexists.
Qed.

Lemma CalculatePacks_repeat_witness :
  ∃ h1 order,
    CalculatePacks 501 "POST" (Some 501) 0 1 sample_handler =
      Done (h1, respondJSON 200 (ResultBody order)) ∧
    solve 501 [250; 500] 501 =
      Done (inl (repository.Packs order, repository.TotalItems order,
                 repository.TotalPacks order)) ∧
    db h1 = repository.SaveOrder (repo sample_handler) order (db sample_handler) ∧
    ∀ fuel' now' later', now' <= 1 + Hour →
      ∃ h2, CalculatePacks fuel' "POST" (Some 501) now' later' h1 =
              Done (h2, respondJSON 200 (ResultBody order)) ∧
            db h2 = db h1.
Proof.
  apply (CalculatePacks_repeat 501 501 0 1 sample_handler [250; 500]
           (Set_ "calc:251:250,500" {[500 := 1]} 500 Hour 0 (NewMemoryCache 1000))).
  - unfold maxAmount. lia.
  - reflexivity.
  - discriminate.
  - repeat constructor; lia.
  - unfold maxAlloc. repeat constructor; lia.
  - lia.
  - reflexivity.
  - reflexivity.
  - vm_compute. reflexivity.
Defined.

(** X19.  For an amount within the limits and a store that holds
    positive pack sizes whose tables are within what [make] allocates
    ([8 (A + s + 1) <= maxAlloc] for each size), CalculatePacks neither
    panics nor answers with an error: it answers 200 with a result for
    that amount, from the cache or from the solver. *)
Theorem CalculatePacks_answers {DB} fuel amount now later (h : Handler DB) S :
  1 <= amount <= maxAmount →
  repository.GetPackSizesAsSlice (repo h) (db h) = Some S →
  S ≠ [] → Forall (λ s, 1 <= s) S →
  Forall (λ s, 8 * (amount + s + 1) <= maxAlloc) S →
  amount <= Z.of_nat fuel →
  ∃ h' order,
    CalculatePacks fuel "POST" (Some amount) now later h =
      Done (h', respondJSON 200 (ResultBody order)) ∧
    repository.Amount order = amount.
Proof.
  intros Ha HS Hne Hpos Hfit Hfuel.
  destruct (Cache_Get (GenerateCacheKey amount S) now (cache h))
    as [c' [[cachedPacks cachedTotal]|]] eqn:EG.
  - unfold CalculatePacks.
    change (negb ("POST" =? "POST")%string) with false. cbv iota.
    destruct (Z.ltb_spec amount 1) as [?|_]; [lia|].
    destruct (Z.gtb_spec amount maxAmount) as [?|_]; [lia|].
    rewrite HS. destruct S as [|s0 S']; [done|]. cbn [length Nat.eqb].
    rewrite EG. by eexists _, _.
  - rewrite (CalculatePacks_miss fuel amount now later h S c') by done.
    destruct (solve_least fuel S amount) as (l & -> & _); try done.
    { unfold maxAmount, MaxInt32 in *. lia. }
    cbn [run_bind]. by eexists _, _.
Qed.

Lemma CalculatePacks_answers_witness :
  ∃ h' order,
    CalculatePacks 751 "POST" (Some 751) 0 1 sample_handler =
      Done (h', respondJSON 200 (ResultBody order)) ∧
    repository.Amount order = 751.
Proof.
  apply (CalculatePacks_answers 751 751 0 1 sample_handler [250; 500]).
  - unfold maxAmount. lia.
  - reflexivity.
  - discriminate.
  - repeat constructor; lia.
  - unfold maxAlloc. repeat constructor; lia.
  - lia.
Defined.

(** X20.  A handler made without a cache computes every valid calculate
    request afresh and saves an order for each, over a store of positive
    pack sizes whose tables are within what [make] allocates. *)
Theorem NewHandler_without_cache {DB} (r : repository.Repository DB) (d : DB)
    fuel amount now later S :
  1 <= amount <= maxAmount →
  repository.GetPackSizesAsSlice r d = Some S →
  S ≠ [] → Forall (λ s, 1 <= s) S →
  Forall (λ s, 8 * (amount + s + 1) <= maxAlloc) S →
  amount <= Z.of_nat fuel →
  ∃ order,
    CalculatePacks fuel "POST" (Some amount) now later (NewHandler r d None) =
      Done ({| repo := r; db := repository.SaveOrder r order d; cache := NoOpCache |},
            respondJSON 200 (ResultBody order)) ∧
    solve fuel S amount =
      Done (inl (repository.Packs order, repository.TotalItems order,
                 repository.TotalPacks order)).
Proof.
  intros Ha HS Hne Hpos Hfit Hfuel.
  rewrite (CalculatePacks_miss fuel amount now later (NewHandler r d None) S NoOpCache);
    try done.
  destruct (solve_least fuel S amount) as (l & -> & _); try done.
  { unfold maxAmount, MaxInt32 in *. lia. }
  cbn [run_bind]. by eexists.
Qed.

Lemma NewHandler_without_cache_witness :
  ∃ order,
    CalculatePacks 251 "POST" (Some 251) 0 1
      (NewHandler repository.memory_store ([250; 500], []) None) =
      Done ({| repo := repository.memory_store;
               db := repository.SaveOrder repository.memory_store order ([250; 500], []);
               cache := NoOpCache |},
            respondJSON 200 (ResultBody order)) ∧
    solve 251 [250; 500] 251 =
      Done (inl (repository.Packs order, repository.TotalItems order,
                 repository.TotalPacks order)).
Proof.
  apply (NewHandler_without_cache repository.memory_store ([250; 500], [])
           251 251 0 1 [250; 500]).
  - unfold maxAmount. lia.
  - reflexivity.
  - discriminate.
  - repeat constructor; lia.
  - unfold maxAlloc. repeat constructor; lia.
  - lia.
Defined.

(** ** internal/middleware *)

Import http middleware.

(** ** The rate limiter *)

Lemma Sub_le t u : Sub t u <= MaxInt64 ∧ MinInt64 <= Sub t u.
Proof.
  unfold Sub. destruct (Z.gtb_spec (t - u) MaxInt64); [unfold MinInt64, MaxInt64; lia|].
  destruct (Z.ltb_spec (t - u) MinInt64); unfold MinInt64, MaxInt64 in *; lia.
Qed.

Lemma Sub_nonneg t u : u <= t → 0 <= Sub t u <= t - u.
Proof.
  intros H. unfold Sub. destruct (Z.gtb_spec (t - u) MaxInt64); [unfold MaxInt64 in *; lia|].
  destruct (Z.ltb_spec (t - u) MinInt64); unfold MinInt64 in *; lia.
Qed.

(** The tokens to add, for a positive rate. *)
Lemma tokensToAdd_spec e r :
  0 < r → MinInt64 <= e <= MaxInt64 →
  wrap64 (e ÷ r) = e ÷ r ∧ e ÷ r <= MaxInt64 / r ∧ (e < r → e ÷ r <= 0) ∧
  (0 <= e → e ÷ r = e / r).
Proof.
  intros Hr He.
  assert (0 <= e → e ÷ r = e / r) as Hq.
  { intros. apply Z.quot_div_nonneg; lia. }
  assert (e ÷ r <= MaxInt64 / r) as Hle.
  { destruct (Z.le_gt_cases 0 e) as [H0|H0].
    - rewrite Hq by done. apply Z.div_le_mono; lia.
    - pose proof (Z.quot_opp_l e r ltac:(lia)) as Ho.
      assert (0 <= (- e) ÷ r) by (apply Z.quot_pos; lia).
      assert (0 <= MaxInt64 / r) by (apply Z.div_pos; unfold MaxInt64; lia). lia. }
  assert (MinInt64 <= e ÷ r) as Hge.
  { destruct (Z.le_gt_cases 0 e) as [H0|H0].
    - assert (0 <= e ÷ r) by (apply Z.quot_pos; lia). unfold MinInt64 in *. lia.
    - pose proof (Z.quot_opp_l e r ltac:(lia)) as Ho.
      assert ((- e) ÷ r <= - e).
      { rewrite Z.quot_div_nonneg by lia.
        apply Z.div_le_upper_bound; [lia|]. nia. }
      lia. }
  assert (MaxInt64 / r <= MaxInt64).
  { apply Z.div_le_upper_bound; [lia|]. unfold MaxInt64. nia. }
  split; [apply wrap64_id; unfold in_int64; lia|].
  split; [done|]. split; [|done].
  intros Hlt. destruct (Z.le_gt_cases 0 e) as [H0|H0].
  - rewrite Z.quot_small by lia. lia.
  - pose proof (Z.quot_opp_l e r ltac:(lia)) as Ho.
    assert (0 <= (- e) ÷ r) by (apply Z.quot_pos; lia). lia.
Qed.

(** Allow on a visitor that is there. *)
Lemma Allow_known ip created now rl v :
  visitors rl !! ip = Some v →
  0 < rate rl → 0 <= tokens v <= burst rl →
  burst rl + MaxInt64 / rate rl <= MaxInt64 →
  let e := Sub now (lastSeen v) in
  let filled :=
    if e ÷ rate rl >? 0
    then {| tokens := Z.min (tokens v + e ÷ rate rl) (burst rl); lastSeen := now |}
    else v in
  Allow ip created now rl =
    Done ({| visitors :=
               <[ip := {| tokens := if tokens filled >? 0 then tokens filled - 1
                                    else tokens filled;
                          lastSeen := lastSeen filled |}]> (visitors rl);
             rate := rate rl; burst := burst rl |},
          tokens filled >? 0).
Proof.
  intros Hv Hr Ht Hfit e filled. unfold Allow, getVisitor. rewrite Hv.
  fold e. destruct (Z.eqb_spec (rate rl) 0) as [?|_]; [lia|].
  destruct (tokensToAdd_spec e (rate rl) Hr) as (Ew & Hle & _).
  { pose proof (Sub_le now (lastSeen v)). unfold e. lia. }
  rewrite Ew. unfold filled.
  assert (0 <= MaxInt64 / rate rl) by (apply Z.div_pos; unfold MaxInt64; lia).
  destruct (Z.gtb_spec (e ÷ rate rl) 0) as [Hpos|Hnpos].
  - rewrite add64_id by (unfold in_int64, MinInt64, MaxInt64 in *; lia).
    cbn [tokens lastSeen].
    assert ((if tokens v + e ÷ rate rl >? burst rl then burst rl
             else tokens v + e ÷ rate rl) =
            Z.min (tokens v + e ÷ rate rl) (burst rl)) as ->.
    { destruct (Z.gtb_spec (tokens v + e ÷ rate rl) (burst rl)); lia. }
    destruct (Z.gtb_spec (Z.min (tokens v + e ÷ rate rl) (burst rl)) 0) as [H1|H1].
    + rewrite sub64_id by (unfold in_int64, MinInt64, MaxInt64 in *; lia). done.
    + done.
  - destruct (Z.gtb_spec (tokens v) 0) as [H1|H1].
    + rewrite sub64_id by (unfold in_int64, MinInt64, MaxInt64 in *; lia). done.
    + by destruct v.
Qed.

(** Allow on an address not seen before: the visitor is made with a full
    bucket first. *)
Lemma Allow_fresh ip created now rl :
  visitors rl !! ip = None →
  Allow ip created now rl =
    Allow ip created now
      {| visitors := <[ip := {| tokens := burst rl; lastSeen := created |}]> (visitors rl);
         rate := rate rl; burst := burst rl |}.
Proof.
  intros Hv. unfold Allow, getVisitor. rewrite Hv. cbn [visitors].
  by rewrite lookup_insert_eq.
Qed.

(** X21.  Allow keeps every bucket between empty and full, never fails for
    a positive rate, and touches no other address. *)
Theorem Allow_keeps_buckets ip created now rl :
  0 < rate rl → 0 <= burst rl → burst rl + MaxInt64 / rate rl <= MaxInt64 →
  buckets_ok rl →
  ∃ rl' ok,
    Allow ip created now rl = Done (rl', ok) ∧ buckets_ok rl' ∧
    rate rl' = rate rl ∧ burst rl' = burst rl ∧
    ∀ ip', ip' ≠ ip → visitors rl' !! ip' = visitors rl !! ip'.
Proof.
  intros Hr Hb Hfit Hok.
  assert (∀ rl0 v, visitors rl0 !! ip = Some v → 0 < rate rl0 →
            0 <= tokens v <= burst rl0 →
            burst rl0 + MaxInt64 / rate rl0 <= MaxInt64 → buckets_ok rl0 →
            ∃ rl' ok,
              Allow ip created now rl0 = Done (rl', ok) ∧ buckets_ok rl' ∧
              rate rl' = rate rl0 ∧ burst rl' = burst rl0 ∧
              ∀ ip', ip' ≠ ip → visitors rl' !! ip' = visitors rl0 !! ip') as Hknown.
  { intros rl0 v Hv Hr0 Ht Hfit0 Hok0.
    rewrite (Allow_known ip created now rl0 v Hv Hr0 Ht Hfit0).
    eexists _, _. split; [done|]. split; [|split; [done|split; [done|]]].
    - intros ip' v'. cbn [visitors burst].
      destruct (decide (ip' = ip)) as [->|Hne].
      + rewrite lookup_insert_eq. intros [= <-]. cbn [tokens].
        destruct (Z.gtb_spec (Sub now (lastSeen v) ÷ rate rl0) 0); cbn [tokens].
        * destruct (Z.gtb_spec (Z.min (tokens v + Sub now (lastSeen v) ÷ rate rl0)
                                  (burst rl0)) 0); lia.
        * destruct (Z.gtb_spec (tokens v) 0); lia.
      + rewrite lookup_insert_ne by done. apply Hok0.
    - intros ip' Hne. cbn [visitors]. by rewrite lookup_insert_ne. }
  destruct (visitors rl !! ip) as [v|] eqn:Hv.
  - apply (Hknown rl v); try done. by apply (Hok ip).
  - rewrite Allow_fresh by done.
    set (v0 := {| tokens := burst rl; lastSeen := created |}).
    set (rl0 := {| visitors := <[ip := v0]> (visitors rl);
                   rate := rate rl; burst := burst rl |}).
    assert (buckets_ok rl0) as Hok0.
    { intros ip' v'. unfold rl0. cbn [visitors burst].
      destruct (decide (ip' = ip)) as [->|Hne].
      - rewrite lookup_insert_eq. intros [= <-]. unfold v0. cbn [tokens]. lia.
      - rewrite lookup_insert_ne by done. apply Hok. }
    destruct (Hknown rl0 v0) as (rl' & ok & E & Hok' & Hr' & Hb' & Hframe);
      [apply lookup_insert_eq|done|unfold v0, rl0; cbn [tokens burst]; lia|done|done|].
    exists rl', ok. split; [done|]. split; [done|]. split; [done|]. split; [done|].
    intros ip' Hne. rewrite Hframe by done. unfold rl0. cbn [visitors].
    by rewrite lookup_insert_ne.
Qed.

Lemma Allow_keeps_buckets_witness :
  ∃ rl' ok,
    Allow "10.0.0.1:4242" 0 5 (NewRateLimiter 100000000 20) = Done (rl', ok) ∧
    buckets_ok rl' ∧
    rate rl' = 100000000 ∧ burst rl' = 20 ∧
    ∀ ip', ip' ≠ "10.0.0.1:4242" →
           visitors rl' !! ip' = visitors (NewRateLimiter 100000000 20) !! ip'.
Proof.
  apply (Allow_keeps_buckets "10.0.0.1:4242" 0 5 (NewRateLimiter 100000000 20)).
  - simpl. lia.
  - simpl. lia.
  - apply Z.leb_le. reflexivity.
  - intros ip v H. simpl in H. by rewrite lookup_empty in H.
Defined.

(** X22.  A visitor whose last refill lies a full [rate] back is
    allowed. *)
Theorem Allow_after_wait ip created now rl v :
  visitors rl !! ip = Some v →
  0 < rate rl → 1 <= burst rl → 0 <= tokens v <= burst rl →
  burst rl + MaxInt64 / rate rl <= MaxInt64 →
  rate rl <= Sub now (lastSeen v) →
  ∃ rl', Allow ip created now rl = Done (rl', true).
Proof.
  intros Hv Hr Hb Ht Hfit Hwait.
  rewrite (Allow_known ip created now rl v Hv Hr Ht Hfit).
  eexists. f_equal. f_equal.
  assert (1 <= Sub now (lastSeen v) ÷ rate rl) as Hq.
  { rewrite Z.quot_div_nonneg by lia. apply Z.div_le_lower_bound; lia. }
  destruct (Z.gtb_spec (Sub now (lastSeen v) ÷ rate rl) 0) as [_|?]; [|lia].
  cbn [tokens]. destruct (Z.gtb_spec (Z.min (tokens v + Sub now (lastSeen v) ÷ rate rl)
                                        (burst rl)) 0); [done|lia].
Qed.

Lemma Allow_after_wait_witness :
  ∃ rl',
    Allow "10.0.0.1:4242" 0 100000000
      {| visitors := {["10.0.0.1:4242" := {| tokens := 0; lastSeen := 0 |}]};
         rate := 100000000; burst := 20 |} = Done (rl', true).
Proof.
  apply (Allow_after_wait "10.0.0.1:4242" 0 100000000
           {| visitors := {["10.0.0.1:4242" := {| tokens := 0; lastSeen := 0 |}]};
              rate := 100000000; burst := 20 |} {| tokens := 0; lastSeen := 0 |}).
  - reflexivity.
  - simpl. lia.
  - simpl. lia.
  - simpl. lia.
  - apply Z.leb_le. reflexivity.
  - reflexivity.
Defined.

Lemma Sub_lt t u r : t - u < r → 0 < r → Sub t u < r.
Proof.
  intros H Hr. unfold Sub. destruct (Z.gtb_spec (t - u) MaxInt64); [lia|].
  destruct (Z.ltb_spec (t - u) MinInt64); unfold MinInt64 in *; lia.
Qed.

(** Calls before the next token is due: the bucket only drains. *)
Lemma Allow_each_drain ip times : ∀ rl v,
  visitors rl !! ip = Some v →
  0 < rate rl → 0 <= tokens v <= burst rl →
  burst rl + MaxInt64 / rate rl <= MaxInt64 →
  Forall (λ tn, tn.2 - lastSeen v < rate rl) times →
  ∃ rl',
    Allow_each ip times rl =
      Done (rl', (λ k, bool_decide (Z.of_nat k < tokens v)) <$> seq 0 (length times)).
Proof.
  induction times as [|[created now] times IH]; intros rl v Hv Hr Ht Hfit Hall.
  - by eexists.
  - apply Forall_cons in Hall as [Hnow Hall]. cbn [snd] in Hnow.
    cbn [Allow_each].
    rewrite (Allow_known ip created now rl v Hv Hr Ht Hfit).
    destruct (tokensToAdd_spec (Sub now (lastSeen v)) (rate rl) Hr) as (_ & _ & Hq & _).
    { pose proof (Sub_le now (lastSeen v)). lia. }
    specialize (Hq (Sub_lt _ _ _ Hnow Hr)).
    destruct (Z.gtb_spec (Sub now (lastSeen v) ÷ rate rl) 0) as [?|_]; [lia|].
    cbn [run_bind].
    set (v' := {| tokens := if tokens v >? 0 then tokens v - 1 else tokens v;
                  lastSeen := lastSeen v |}).
    set (rl1 := {| visitors := <[ip := v']> (visitors rl);
                   rate := rate rl; burst := burst rl |}).
    destruct (IH rl1 v') as (rl' & ->).
    + apply lookup_insert_eq.
    + done.
    + unfold v', rl1. cbn [tokens burst]. destruct (Z.gtb_spec (tokens v) 0); lia.
    + done.
    + done.
    + cbn [run_bind]. exists rl'. f_equal. f_equal.
      cbn [length seq fmap list_fmap]. f_equal.
      * destruct (Z.gtb_spec (tokens v) 0); [rewrite bool_decide_true|rewrite bool_decide_false];
          done || lia.
      * rewrite <- fmap_S_seq, <- list_fmap_compose.
        apply list_fmap_ext. intros _ k _. simpl.
        apply bool_decide_ext. unfold v'. cbn [tokens].
        destruct (Z.gtb_spec (tokens v) 0); lia.
Qed.

(** X23.  An address not seen before is allowed [burst] calls in a row and
    refused the ones after them, as long as no token falls due. *)
Theorem Allow_burst ip rl t0 now0 rest :
  visitors rl !! ip = None →
  0 < rate rl → 0 <= burst rl → burst rl + MaxInt64 / rate rl <= MaxInt64 →
  Forall (λ tn, tn.2 - t0 < rate rl) ((t0, now0) :: rest) →
  ∃ rl',
    Allow_each ip ((t0, now0) :: rest) rl =
      Done (rl', (λ k, bool_decide (Z.of_nat k < burst rl)) <$> seq 0 (S (length rest))).
Proof.
  intros Hv Hr Hb Hfit Hall.
  change (Allow_each ip ((t0, now0) :: rest) rl) with
    ('(rl', ok) ←ᵣ Allow ip t0 now0 rl;
     '(rl'', oks) ←ᵣ Allow_each ip rest rl';
     Done (rl'', ok :: oks)).
  rewrite Allow_fresh by done.
  set (v0 := {| tokens := burst rl; lastSeen := t0 |}).
  set (rl0 := {| visitors := <[ip := v0]> (visitors rl);
                 rate := rate rl; burst := burst rl |}).
  destruct (Allow_each_drain ip ((t0, now0) :: rest) rl0 v0) as (rl' & E);
    [apply lookup_insert_eq|done|unfold v0, rl0; cbn [tokens burst]; lia|done|done|].
  exists rl'. exact E.
Qed.

Lemma Allow_burst_witness :
  ∃ rl',
    Allow_each "10.0.0.1:4242" [(0, 1); (2, 3); (4, 5)] (NewRateLimiter 100 2) =
      Done (rl', (λ k, bool_decide (Z.of_nat k < 2)) <$> seq 0 3).
Proof.
  apply (Allow_burst "10.0.0.1:4242" (NewRateLimiter 100 2) 0 1 [(2, 3); (4, 5)]).
  - reflexivity.
  - simpl. lia.
  - simpl. lia.
  - apply Z.leb_le. reflexivity.
  - repeat constructor; simpl; lia.
Defined.

Lemma div_add_le a b r : 0 <= a → 0 <= b → 0 < r → a / r + b / r <= (a + b) / r.
Proof.
  intros Ha Hb Hr.
  apply Z.div_le_lower_bound; [lia|].
  pose proof (Z.mul_div_le a r Hr). pose proof (Z.mul_div_le b r Hr). lia.
Qed.

Lemma admitted_cons ok oks :
  admitted (ok :: oks) = (if ok then 1 else 0) + admitted oks.
Proof.
  unfold admitted. rewrite filter_cons. destruct ok.
  - rewrite decide_True by done. simpl length. lia.
  - rewrite decide_False by done. lia.
Qed.

(** Calls at instants that do not go back: what has been allowed and
    what is left in the bucket is covered by what was in the bucket and
    the tokens that fell due. *)
Lemma Allow_each_rate ip times : ∀ rl v,
  visitors rl !! ip = Some v →
  0 < rate rl → 0 <= tokens v <= burst rl →
  burst rl + MaxInt64 / rate rl <= MaxInt64 →
  Sorted Z.le (lastSeen v :: times.*2) →
  ∃ rl' oks v',
    Allow_each ip times rl = Done (rl', oks) ∧
    visitors rl' !! ip = Some v' ∧ 0 <= tokens v' ∧
    lastSeen v <= lastSeen v' <= default (lastSeen v) (last times.*2) ∧
    admitted oks + tokens v' <= tokens v + (lastSeen v' - lastSeen v) / rate rl.
Proof.
  induction times as [|[created now] times IH]; intros rl v Hv Hr Ht Hfit Hs.
  - exists rl, [], v. split; [done|]. split; [done|]. split; [lia|].
    simpl. split; [lia|]. rewrite Z.sub_diag, Z.div_0_l by lia.
    unfold admitted. simpl. lia.
  - cbn [fmap list_fmap snd] in Hs.
    apply Sorted_inv in Hs as [Hs Hhd]. apply HdRel_inv in Hhd.
    cbn [Allow_each].
    rewrite (Allow_known ip created now rl v Hv Hr Ht Hfit).
    cbn [run_bind].
    pose proof (Sub_nonneg now (lastSeen v) Hhd) as He.
    destruct (tokensToAdd_spec (Sub now (lastSeen v)) (rate rl) Hr) as (_ & _ & _ & Hq).
    { pose proof (Sub_le now (lastSeen v)). lia. }
    specialize (Hq ltac:(lia)).
    assert (0 <= Sub now (lastSeen v) / rate rl <= (now - lastSeen v) / rate rl) as Hdiv.
    { split; [apply Z.div_pos; lia|apply Z.div_le_mono; lia]. }
    set (filled := if Sub now (lastSeen v) ÷ rate rl >? 0
                   then {| tokens := Z.min (tokens v + Sub now (lastSeen v) ÷ rate rl)
                                       (burst rl);
                           lastSeen := now |}
                   else v).
    assert (0 <= tokens filled <= burst rl ∧
            lastSeen v <= lastSeen filled <= now ∧
            tokens filled <= tokens v + (lastSeen filled - lastSeen v) / rate rl ∧
            Sorted Z.le (lastSeen filled :: times.*2)) as (Hf1 & Hf2 & Hf3 & Hf4).
    { unfold filled. destruct (Z.gtb_spec (Sub now (lastSeen v) ÷ rate rl) 0).
      - cbn [tokens lastSeen]. split; [lia|]. split; [lia|]. split; [lia|done].
      - split; [done|]. split; [lia|]. split.
        + rewrite Z.sub_diag, Z.div_0_l by lia. lia.
        + destruct times as [|[c' n'] times]; [repeat constructor|].
          cbn [fmap list_fmap snd] in *. apply Sorted_inv in Hs as [Hs' Hhd'].
          apply HdRel_inv in Hhd'. constructor; [done|]. constructor. lia. }
    set (v1 := {| tokens := if tokens filled >? 0 then tokens filled - 1 else tokens filled;
                  lastSeen := lastSeen filled |}).
    set (rl1 := {| visitors := <[ip := v1]> (visitors rl);
                   rate := rate rl; burst := burst rl |}).
    destruct (IH rl1 v1) as (rl' & oks & v' & -> & Hv' & Ht' & Hl' & Hsum).
    + apply lookup_insert_eq.
    + done.
    + unfold v1, rl1. cbn [tokens burst]. destruct (Z.gtb_spec (tokens filled) 0); lia.
    + done.
    + done.
    + cbn [run_bind]. exists rl', ((tokens filled >? 0) :: oks), v'.
      split; [done|]. split; [done|]. split; [done|].
      unfold v1, rl1 in Hl', Hsum. cbn [tokens lastSeen rate] in Hl', Hsum.
      split.
      * split; [lia|]. cbn [fmap list_fmap snd].
        destruct (times.*2) as [|n' ns] eqn:En.
        { simpl in *. lia. }
        rewrite last_cons_cons. cbn [default] in *.
        destruct (last (n' :: ns)) eqn:El; [simpl in *; lia|].
        by apply last_None in El.
      * rewrite admitted_cons.
        pose proof (div_add_le (lastSeen filled - lastSeen v) (lastSeen v' - lastSeen filled)
                      (rate rl) ltac:(lia) ltac:(lia) Hr) as Hadd.
        replace (lastSeen filled - lastSeen v + (lastSeen v' - lastSeen filled))
          with (lastSeen v' - lastSeen v) in Hadd by lia.
        destruct (Z.gtb_spec (tokens filled) 0); lia.
Qed.

(** X24.  Over any stretch of calls from one address at instants that do
    not go back, no more calls are allowed than the bucket holds plus one
    per [rate] elapsed since the first. *)
Theorem Allow_rate_bound ip rl t0 now0 rest :
  visitors rl !! ip = None →
  0 < rate rl → 0 <= burst rl → burst rl + MaxInt64 / rate rl <= MaxInt64 →
  Sorted Z.le (t0 :: now0 :: rest.*2) →
  ∃ rl' oks,
    Allow_each ip ((t0, now0) :: rest) rl = Done (rl', oks) ∧
    admitted oks <= burst rl + (default now0 (last rest.*2) - t0) / rate rl.
Proof.
  intros Hv Hr Hb Hfit Hs.
  change (Allow_each ip ((t0, now0) :: rest) rl) with
    ('(rl', ok) ←ᵣ Allow ip t0 now0 rl;
     '(rl'', oks) ←ᵣ Allow_each ip rest rl';
     Done (rl'', ok :: oks)).
  rewrite Allow_fresh by done.
  set (v0 := {| tokens := burst rl; lastSeen := t0 |}).
  set (rl0 := {| visitors := <[ip := v0]> (visitors rl);
                 rate := rate rl; burst := burst rl |}).
  destruct (Allow_each_rate ip ((t0, now0) :: rest) rl0 v0)
    as (rl' & oks & v' & E & _ & Ht' & Hl' & Hsum);
    [apply lookup_insert_eq|done|unfold v0, rl0; cbn [tokens burst]; lia|done|done|].
  exists rl', oks. split; [exact E|].
  unfold v0, rl0 in Hl', Hsum. cbn [tokens lastSeen rate fmap list_fmap snd] in Hl', Hsum.
  assert (default t0 (last (now0 :: rest.*2)) = default now0 (last rest.*2)) as El.
  { destruct (rest.*2) as [|n' ns]; [done|]. rewrite last_cons_cons.
    destruct (last (n' :: ns)) eqn:E'; [done|]. by apply last_None in E'. }
  rewrite El in Hl'.
  assert ((lastSeen v' - t0) / rate rl <= (default now0 (last rest.*2) - t0) / rate rl).
  { apply Z.div_le_mono; lia. }
  lia.
Qed.

Lemma Allow_rate_bound_witness :
  ∃ rl' oks,
    Allow_each "10.0.0.1:4242" [(0, 1); (50, 60); (120, 130)] (NewRateLimiter 100 2) =
      Done (rl', oks) ∧
    admitted oks <= 2 + (default 1 (last [(50, 60); (120, 130)].*2) - 0) / 100.
Proof.
  apply (Allow_rate_bound "10.0.0.1:4242" (NewRateLimiter 100 2) 0 1
           [(50, 60); (120, 130)]).
  - reflexivity.
  - simpl. lia.
  - simpl. lia.
  - apply Z.leb_le. reflexivity.
  - simpl. repeat constructor; lia.
Defined.

(** What Allow answers for a visitor that is there. *)
Lemma Allow_known_answer ip created now rl v :
  visitors rl !! ip = Some v →
  0 < rate rl → 0 <= tokens v <= burst rl →
  burst rl + MaxInt64 / rate rl <= MaxInt64 →
  ∃ rl',
    Allow ip created now rl =
      Done (rl', if Sub now (lastSeen v) ÷ rate rl >? 0
                 then Z.min (tokens v + Sub now (lastSeen v) ÷ rate rl) (burst rl) >? 0
                 else tokens v >? 0).
Proof.
  intros Hv Hr Ht Hfit.
  rewrite (Allow_known ip created now rl v Hv Hr Ht Hfit).
  eexists. f_equal. f_equal. by destruct (_ ÷ _ >? 0).
Qed.

Lemma Sub_mono t t' u : t <= t' → Sub t u <= Sub t' u.
Proof.
  intros H. unfold Sub.
  destruct (Z.gtb_spec (t - u) MaxInt64), (Z.gtb_spec (t' - u) MaxInt64);
    destruct (Z.ltb_spec (t - u) MinInt64), (Z.ltb_spec (t' - u) MinInt64);
    unfold MinInt64, MaxInt64 in *; lia.
Qed.

(** X25.  When a bucket fills up within five minutes ([burst * rate] is
    at most five minutes), a round that drops the visitors not seen for
    five minutes does not change what the next call of Allow answers. *)
Theorem cleanupVisitors_transparent ip tick created now rl :
  0 < rate rl → 0 <= burst rl → burst rl + MaxInt64 / rate rl <= MaxInt64 →
  burst rl * rate rl <= 5 * Minute →
  buckets_ok rl →
  tick ip <= created → created <= now →
  ∃ rl1 rl2 ok,
    Allow ip created now rl = Done (rl1, ok) ∧
    Allow ip created now (cleanupVisitors tick rl) = Done (rl2, ok).
Proof.
  intros Hr Hb Hfit Hfull Hok Htick Hnow.
  destruct (visitors rl !! ip) as [v|] eqn:Hv.
  - pose proof (Hok ip v Hv) as Ht.
    destruct (Allow_known_answer ip created now rl v Hv Hr Ht Hfit) as (rl1 & E1).
    destruct (decide (Sub (tick ip) (lastSeen v) > 5 * Minute)) as [Hold|Hnew].
    + assert (visitors (cleanupVisitors tick rl) !! ip = None) as Hv'.
      { unfold cleanupVisitors. cbn [visitors]. apply map_lookup_filter_None.
        right. intros v' Hv2. rewrite Hv in Hv2. injection Hv2 as <-. simpl. tauto. }
      rewrite (Allow_fresh ip created now _ Hv').
      set (v0 := {| tokens := burst (cleanupVisitors tick rl); lastSeen := created |}).
      set (rl0 := {| visitors := <[ip := v0]> (visitors (cleanupVisitors tick rl));
                     rate := rate (cleanupVisitors tick rl);
                     burst := burst (cleanupVisitors tick rl) |}).
      destruct (Allow_known_answer ip created now rl0 v0) as (rl2 & E2);
        [apply lookup_insert_eq|done
        |unfold v0, rl0, cleanupVisitors; cbn [tokens burst]; lia|done|].
      exists rl1, rl2. eexists. split; [exact E1|]. rewrite E2. f_equal. f_equal.
      unfold v0, rl0. cbn [tokens lastSeen rate burst cleanupVisitors].
      pose proof (Sub_mono (tick ip) now (lastSeen v) ltac:(lia)) as Hm.
      pose proof (Sub_nonneg now created Hnow) as He.
      assert (burst rl <= Sub now (lastSeen v) ÷ rate rl) as Hq.
      { rewrite Z.quot_div_nonneg by (unfold Minute in *; lia).
        apply Z.div_le_lower_bound; lia. }
      assert (0 <= Sub now created ÷ rate rl) as Hq' by (apply Z.quot_pos; lia).
      destruct (Z.gtb_spec (Sub now created ÷ rate rl) 0);
        destruct (Z.gtb_spec (Sub now (lastSeen v) ÷ rate rl) 0);
        rewrite ?Z.min_r by lia; try done.
      all: assert (burst rl = 0) as Eb by lia.
      all: rewrite Eb in *.
      all: destruct (Z.gtb_spec (tokens v) 0); [lia|done].
    + assert (visitors (cleanupVisitors tick rl) !! ip = Some v) as Hv'.
      { unfold cleanupVisitors. cbn [visitors]. apply map_lookup_filter_Some.
        split; [done|]. simpl. done. }
      destruct (Allow_known_answer ip created now (cleanupVisitors tick rl) v Hv' Hr Ht Hfit)
        as (rl2 & E2).
      exists rl1, rl2. eexists. split; [exact E1|exact E2].
  - assert (visitors (cleanupVisitors tick rl) !! ip = None) as Hv'.
    { unfold cleanupVisitors. cbn [visitors]. apply map_lookup_filter_None. by left. }
    rewrite (Allow_fresh ip created now rl Hv), (Allow_fresh ip created now _ Hv').
    set (v0 := {| tokens := burst rl; lastSeen := created |}).
    destruct (Allow_known_answer ip created now
                {| visitors := <[ip := v0]> (visitors rl);
                   rate := rate rl; burst := burst rl |} v0) as (rl1 & E1);
      [apply lookup_insert_eq|done|unfold v0; cbn [tokens burst]; lia|done|].
    destruct (Allow_known_answer ip created now
                {| visitors := <[ip := v0]> (visitors (cleanupVisitors tick rl));
                   rate := rate rl; burst := burst rl |} v0) as (rl2 & E2);
      [apply lookup_insert_eq|done|unfold v0; cbn [tokens burst]; lia|done|].
    exists rl1, rl2. eexists. split; [exact E1|exact E2].
Qed.

Lemma cleanupVisitors_transparent_witness :
  let rl := {| visitors := {["10.0.0.1:4242" := {| tokens := 0; lastSeen := 0 |}]};
               rate := 100000000; burst := 20 |} in
  ∃ rl1 rl2 ok,
    Allow "10.0.0.1:4242" 400000000000 400000000001 rl = Done (rl1, ok) ∧
    Allow "10.0.0.1:4242" 400000000000 400000000001
      (cleanupVisitors (λ _, 300000000001) rl) = Done (rl2, ok).
Proof.
  apply (cleanupVisitors_transparent "10.0.0.1:4242" (λ _, 300000000001)
           400000000000 400000000001
           {| visitors := {["10.0.0.1:4242" := {| tokens := 0; lastSeen := 0 |}]};
              rate := 100000000; burst := 20 |}).
  - simpl. lia.
  - simpl. lia.
  - apply Z.leb_le. reflexivity.
  - apply Z.leb_le. reflexivity.
  - intros ip v H. simpl in H.
    apply lookup_singleton_Some in H as [_ <-]. simpl. lia.
  - lia.
  - lia.
Defined.

(** ** The middleware around the handlers *)

(** X26.  The limiter goes by the [X-Forwarded-For] header when there is
    one: a request that carries a value not seen before is let through,
    whatever its remote address has used up. *)
Theorem RateLimitMiddleware_fresh_forwarded {S : Type} created now
    (next : HandlerFunc S) r rl s :
  Header_Get r "X-Forwarded-For" ≠ EmptyString →
  visitors rl !! Header_Get r "X-Forwarded-For" = None →
  0 < rate rl → 1 <= burst rl → burst rl + MaxInt64 / rate rl <= MaxInt64 →
  ∃ rl',
    RateLimitMiddleware created now next r (rl, s) =
      ('(s', resp) ←ᵣ next r s; Done ((rl', s'), resp)).
Proof.
  intros Hfwd Hv Hr Hb Hfit. unfold RateLimitMiddleware.
  destruct (String.eqb_spec (Header_Get r "X-Forwarded-For") EmptyString) as [?|_];
    [done|]. cbn [negb].
  rewrite Allow_fresh by done.
  set (v0 := {| tokens := burst rl; lastSeen := created |}).
  set (rl0 := {| visitors := <[Header_Get r "X-Forwarded-For" := v0]> (visitors rl);
                 rate := rate rl; burst := burst rl |}).
  rewrite (Allow_known _ created now rl0 v0);
    [|apply lookup_insert_eq|done|unfold v0, rl0; cbn [tokens burst]; lia|done].
  cbn [run_bind].
  assert ((tokens (if Sub now (lastSeen v0) ÷ rate rl0 >? 0
                   then {| tokens := Z.min (tokens v0 + Sub now (lastSeen v0) ÷ rate rl0)
                                       (burst rl0);
                           lastSeen := now |}
                   else v0) >? 0) = true) as ->.
  { apply Z.gtb_lt. unfold v0, rl0. cbn [tokens burst rate lastSeen].
    destruct (Z.gtb_spec (Sub now created ÷ rate rl) 0); cbn [tokens]; lia. }
  cbn [negb]. by eexists.
Qed.

Lemma RateLimitMiddleware_fresh_forwarded_witness :
  ∃ rl',
    RateLimitMiddleware 7 8 (@serve_DeletePackSize (list Z * list repository.Order))
      {| Method := "DELETE"; RemoteAddr := "10.0.0.1:4242";
         Header := {["X-Forwarded-For" := "10.9.9.9"]}; Query := ∅;
         Path := [EmptyString; "api"; "packs"; "250"]; Body := None |}
      ({| visitors := {["10.0.0.1:4242" := {| tokens := 0; lastSeen := 7 |}]};
          rate := 100000000; burst := 20 |}, sample_handler) =
      ('(s', resp) ←ᵣ
         serve_DeletePackSize
           {| Method := "DELETE"; RemoteAddr := "10.0.0.1:4242";
              Header := {["X-Forwarded-For" := "10.9.9.9"]}; Query := ∅;
              Path := [EmptyString; "api"; "packs"; "250"]; Body := None |}
           sample_handler;
       Done ((rl', s'), resp)).
Proof.
  apply (RateLimitMiddleware_fresh_forwarded 7 8).
  - done.
  - reflexivity.
  - simpl. lia.
  - simpl. lia.
  - apply Z.leb_le. reflexivity.
Defined.

(** X27.  With an API key configured, a request that does not present it
    changes neither the pack sizes nor the cache: it is refused with 401,
    or, as a GET, let through to a handler that refuses the method. *)
Theorem AuthMiddleware_guards_mutations {DB} (a : APIKeyAuth) (r : Request)
    (h : Handler DB) :
  apiKey a ≠ EmptyString → presented_key r ≠ apiKey a →
  (∃ resp, AuthMiddleware a serve_AddPackSize r h = Done (h, resp) ∧
           (status resp = 401 ∨ status resp = 405)) ∧
  (∃ resp, AuthMiddleware a serve_DeletePackSize r h = Done (h, resp) ∧
           (status resp = 401 ∨ status resp = 405)).
Proof.
  intros Hkey Hbad. unfold AuthMiddleware. fold (presented_key r).
  destruct (String.eqb_spec (Method r) "GET") as [Hget|Hget].
  - unfold serve_AddPackSize, serve_DeletePackSize, AddPackSize, DeletePackSize.
    rewrite Hget. cbn [String.eqb Ascii.eqb Bool.eqb negb].
    split; eexists; (split; [done|by right]).
  - destruct (String.eqb_spec (apiKey a) EmptyString) as [?|_]; [done|].
    destruct (String.eqb_spec (presented_key r) (apiKey a)) as [?|_]; [done|].
    cbn [negb]. split; eexists; (split; [done|by left]).
Qed.

Lemma AuthMiddleware_guards_mutations_witness :
  let r := {| Method := "DELETE"; RemoteAddr := "10.0.0.1:4242";
              Header := {["X-API-Key" := "guess"]}; Query := ∅;
              Path := [EmptyString; "api"; "packs"; "250"]; Body := None |} in
  (∃ resp, AuthMiddleware (NewAPIKeyAuth "secret") serve_AddPackSize r sample_handler =
             Done (sample_handler, resp) ∧
           (status resp = 401 ∨ status resp = 405)) ∧
  (∃ resp, AuthMiddleware (NewAPIKeyAuth "secret") serve_DeletePackSize r sample_handler =
             Done (sample_handler, resp) ∧
           (status resp = 401 ∨ status resp = 405)).
Proof.
  apply (AuthMiddleware_guards_mutations (NewAPIKeyAuth "secret")
           {| Method := "DELETE"; RemoteAddr := "10.0.0.1:4242";
              Header := {["X-API-Key" := "guess"]}; Query := ∅;
              Path := [EmptyString; "api"; "packs"; "250"]; Body := None |}
           sample_handler).
  - done.
  - done.
Defined.
